(** * The UCT pilot of L2Fsim (pilot/mcts/b03_uct_pilot.hpp)

    A shallow embedding of the Monte Carlo tree search that picks the
    command of the Beeler glider: the search tree, the tree policy, the
    random rollout, the backup and the driver [operator()], followed by
    the properties of these functions.

    Conventions of the embedding.
    - A [double] is a value of an abstract type with the operations the
      pilot uses (class [Double]); every general statement holds for any
      interpretation of these operations, IEEE arithmetic included.
    - An [unsigned int] is an [N] below [2^32]; increments wrap.
    - The search tree is the root node owned by the frame of [operator()];
      a reference (or pointer) to one of its nodes is the list of child
      indices that leads to it from the root.  The nodes that a
      [push_back] may move in memory are designated by no pointer
      ([leaves_below_expandable], [simulations_well_formed]).
    - The node that the tree policy returns is the local node [v] of the
      frame, which receives a copy; the frame models both.
    - [rand ()] reads the next number of a fixed sequence; a variable
      without initialiser holds a value fixed from outside ([runtime]).
    - An exception, a failed assertion or an invalid access is [None].
    - A recursive member takes the depth of recursion at hand as [fuel];
      the statements on calls that return hold for every depth large
      enough. *)

From Stdlib Require Import QArith.
From stdpp Require Import base numbers option list.

Set Default Proof Using "Type".
Open Scope N_scope.

(** ** Double precision numbers *)

Class Double (D : Type) : Type := {
  dconst : Q -> D;            (* a literal of the source text *)
  of_uint : N -> D;           (* the cast (double) of an unsigned int *)
  dadd : D -> D -> D;
  dmul : D -> D -> D;
  ddiv : D -> D -> D;
  dopp : D -> D;
  dsqrt : D -> D;             (* sqrt of <cmath> *)
  dlog : D -> D;              (* log of <cmath> *)
  dpow : D -> D -> D;         (* pow of <cmath> *)
  dltb : D -> D -> bool       (* the comparison < *)
}.

Declare Scope double_scope.
Delimit Scope double_scope with D.
Infix "+" := dadd : double_scope.
Infix "*" := dmul : double_scope.
Infix "/" := ddiv : double_scope.
Notation "- x" := (dopp x) : double_scope.
Infix "<?" := dltb : double_scope.

(** ** Unsigned 32-bit counters *)

Definition uint_max : N := 2 ^ 32.

Definition wrap (n : N) : N := n mod uint_max.

(** ** States, commands and the aircraft *)

Section Model.

Context {D : Type} `{Double D}.

(** Modelled from the spec: aircraft/beeler_glider/beeler_glider_state.hpp
    is missing.  The state is a snapshot of the vehicle, copied by value;
    it has the members that the sources at hand read or write. *)
Record beeler_glider_state : Type := mk_state {
  x : D; y : D; z : D;
  V : D; gamma : D; khi : D;
  alpha : D; beta : D; sigma : D;
  xdot : D; ydot : D; zdot : D;
  Vdot : D; gammadot : D; khidot : D;
  time : D;
  max_angle_magnitude : D
}.

(** Modelled from the spec: aircraft/beeler_glider/beeler_glider_command.hpp
    is missing.  A command holds the three angle increments, in the order
    of the constructor calls of the pilot: the bank-rate adjustment comes
    last. *)
Record beeler_glider_command : Type := mk_command {
  dalpha : D; dbeta : D; dsigma : D
}.

(** [beeler_glider]: its state, its command and the constructor's
    physical parameters. *)
Record beeler_glider : Type := mk_glider {
  ac_state : beeler_glider_state;
  ac_command : beeler_glider_command;
  mass : D; wingspan : D; aspect_ratio : D
}.

Definition set_state (ac : beeler_glider) (s : beeler_glider_state) : beeler_glider :=
  mk_glider s (ac_command ac) (mass ac) (wingspan ac) (aspect_ratio ac).

Definition set_command (ac : beeler_glider) (u : beeler_glider_command) : beeler_glider :=
  mk_glider (ac_state ac) u (mass ac) (wingspan ac) (aspect_ratio ac).

Definition set_sigma (s : beeler_glider_state) (v : D) : beeler_glider_state :=
  mk_state (x s) (y s) (z s) (V s) (gamma s) (khi s) (alpha s) (beta s) v
           (xdot s) (ydot s) (zdot s) (Vdot s) (gammadot s) (khidot s)
           (time s) (max_angle_magnitude s).

Definition set_alpha (s : beeler_glider_state) (v : D) : beeler_glider_state :=
  mk_state (x s) (y s) (z s) (V s) (gamma s) (khi s) v (beta s) (sigma s)
           (xdot s) (ydot s) (zdot s) (Vdot s) (gammadot s) (khidot s)
           (time s) (max_angle_magnitude s).

Definition set_beta (s : beeler_glider_state) (v : D) : beeler_glider_state :=
  mk_state (x s) (y s) (z s) (V s) (gamma s) (khi s) (alpha s) v (sigma s)
           (xdot s) (ydot s) (zdot s) (Vdot s) (gammadot s) (khidot s)
           (time s) (max_angle_magnitude s).

(** [beeler_glider::apply_command]: the three angles move by the command. *)
Definition apply_command (ac : beeler_glider) : beeler_glider :=
  let s0 := ac_state ac in
  let u := ac_command ac in
  let s1 := set_alpha s0 (alpha s0 + dalpha u)%D in
  let s2 := set_beta s1 (beta s1 + dbeta u)%D in
  let s3 := set_sigma s2 (sigma s2 + dsigma u)%D in
  set_state ac s3.

End Model.

Arguments beeler_glider_state D : clear implicits.
Arguments beeler_glider_command D : clear implicits.
Arguments beeler_glider D : clear implicits.

(** ** The search tree (pilot/mcts/b03_node.hpp) *)

(** A reference to a node of the tree: the child indices from the root. *)
Definition node_ref : Type := list nat.

(** Modelled from the spec: pilot/mcts/b03_node.hpp, the node that the
    pilot includes, is missing (pilot/uct/b03_node.hpp is a later node with
    other members).  A node holds a state snapshot, the action that led to
    it, the untried actions, the accumulated return, the visit count, the
    depth, a back-reference to its parent and its children; the names of
    the members and the argument order of the constructors are those of
    the pilot's uses: [b03_node (s, expendable_actions, average_reward,
    number_of_visits, depth)] and the same without the state.  [parent] is
    [None] as long as no address was stored in it. *)
#[warnings="-register-all"] Inductive b03_node (D : Type) : Type := mk_node {
  get_state : beeler_glider_state D;
  incoming_action : beeler_glider_command D;
  expendable_actions : list (beeler_glider_command D);
  average_reward : D;
  number_of_visits : N;
  depth : N;
  parent : option node_ref;
  children : list (b03_node D)
}.

Arguments mk_node {D}.
Arguments get_state {D}.
Arguments incoming_action {D}.
Arguments expendable_actions {D}.
Arguments average_reward {D}.
Arguments number_of_visits {D}.
Arguments depth {D}.
Arguments parent {D}.
Arguments children {D}.

Section Tree.

Context {D : Type}.

Local Abbreviation node := (b03_node D).

Definition set_children (v : node) (cs : list node) : node :=
  mk_node (get_state v) (incoming_action v) (expendable_actions v)
          (average_reward v) (number_of_visits v) (depth v) (parent v) cs.

(** The node a reference designates. *)
Fixpoint lookup_node (t : node) (p : node_ref) : option node :=
  match p with
  | [] => Some t
  | i :: q =>
      match children t !! i with
      | Some c => lookup_node c q
      | None => None
      end
  end.

(** Assignment through a reference: the designated node becomes [f] of
    itself, the rest of the tree stays. *)
Fixpoint update_node (t : node) (p : node_ref) (f : node -> node) : node :=
  match p with
  | [] => f t
  | i :: q =>
      match children t !! i with
      | Some c => set_children t (<[i := update_node c q f]> (children t))
      | None => t
      end
  end.

(** Number of nodes of a tree. *)
Fixpoint tree_size (t : node) : nat :=
  match t with
  | mk_node _ _ _ _ _ _ _ cs =>
      S ((fix sizes (l : list node) : nat :=
            match l with
            | [] => 0%nat
            | c :: l' => (tree_size c + sizes l')%nat
            end) cs)
  end.

(** [b03_node::is_fully_expanded].
    Modelled from the spec: the header that declares this method for the
    node with [expendable_actions] is missing; a node is fully expanded iff
    its set of untried actions is empty. *)
Definition is_fully_expanded (v : node) : bool :=
  match expendable_actions v with
  | [] => true
  | _ :: _ => false
  end.

(** [b03_node::get_last_child].
    Modelled from the spec: the header that declares this method is
    missing; the tree policy returns through it the child it has just
    attached at the back of [children]. *)
Definition get_last_child (v : node) : option node := last (children v).

(** What a node holds besides the contents of its children: its own
    members and the number of its children. *)
Definition node_info (n : node) : node * nat :=
  (set_children n [], length (children n)).

(** The frame of [operator()]: the root [v0] of the tree and the local
    node [v] that receives the result of the tree policy. *)
Record frame : Type := mk_frame {
  root : node;
  local : node
}.

(** What a [b03_node &] may designate. *)
Inductive lvalue : Type :=
| Local
| InTree (p : node_ref).

Definition load (fr : frame) (r : lvalue) : option node :=
  match r with
  | Local => Some (local fr)
  | InTree p => lookup_node (root fr) p
  end.

Definition store (fr : frame) (r : lvalue) (n : node) : frame :=
  match r with
  | Local => mk_frame (root fr) n
  | InTree p => mk_frame (update_node (root fr) p (fun _ => n)) (local fr)
  end.

End Tree.

(** ** The machine the pilot runs on *)

(** What a call of the pilot can read and write besides its own frame:
    the state [_s] and the command [_a] handed over by reference, the
    pilot's members [ac] and [fz], and the position in the sequence of
    [rand ()]. *)
Record machine (D FZ : Type) : Type := mk_machine {
  arg_state : beeler_glider_state D;
  arg_command : beeler_glider_command D;
  ac : beeler_glider D;
  fz : FZ;
  rand_calls : nat
}.

Arguments mk_machine {D FZ}.
Arguments arg_state {D FZ}.
Arguments arg_command {D FZ}.
Arguments ac {D FZ}.
Arguments fz {D FZ}.
Arguments rand_calls {D FZ}.

(** The machine after one more call of [rand ()]. *)
Definition after_rand {D FZ} (m : machine D FZ) : machine D FZ :=
  mk_machine (arg_state m) (arg_command m) (ac m) (fz m) (S (rand_calls m)).

(** The machines [m] and [m'] differ at most by the number of calls of
    [rand ()]. *)
Definition same_members {D FZ} (m m' : machine D FZ) : Prop :=
  arg_state m' = arg_state m ∧ arg_command m' = arg_command m ∧
  ac m' = ac m ∧ fz m' = fz m.

(** Computations that read and write the machine and may fail. *)
Definition M (D FZ A : Type) : Type := machine D FZ -> option (A * machine D FZ).

Definition ret {D FZ A} (a : A) : M D FZ A := fun m => Some (a, m).

Definition bind {D FZ A B} (c : M D FZ A) (f : A -> M D FZ B) : M D FZ B :=
  fun m => match c m with
           | Some (a, m') => f a m'
           | None => None
           end.

Definition fail {D FZ A} : M D FZ A := fun _ => None.

(** A computation that cannot touch the machine. *)
Definition lift {D FZ A} (o : option A) : M D FZ A :=
  fun m => match o with
           | Some a => Some (a, m)
           | None => None
           end.

Declare Scope pilot_scope.
Delimit Scope pilot_scope with pilot.
Notation "x <- c1 ;; c2" := (bind c1 (fun x => c2))
  (at level 100, c1 at next level, right associativity) : pilot_scope.

(** The attributes of [b03_uct_pilot] that a call does not modify. *)
Record b03_uct_pilot (D FZ : Type) : Type := mk_pilot {
  transition_function :
    beeler_glider D -> FZ -> D -> D -> D -> beeler_glider D * FZ * D;
  angle_rate_magnitude : D;
  uct_parameter : D;
  time_step_width : D;
  sub_time_step_width : D;
  df : D;
  horizon : N;
  computational_budget : N
}.

Arguments mk_pilot {D FZ}.
Arguments transition_function {D FZ}.
Arguments angle_rate_magnitude {D FZ}.
Arguments uct_parameter {D FZ}.
Arguments time_step_width {D FZ}.
Arguments sub_time_step_width {D FZ}.
Arguments df {D FZ}.
Arguments horizon {D FZ}.
Arguments computational_budget {D FZ}.

(** What a run takes from outside the text of the pilot: the sequence of
    values [rand ()] returns; the indeterminate value that the variable
    [reward], which [operator()] declares as [double reward;] without an
    initialiser, holds in iteration [i]; the default-constructed state and
    command, which fill the members that a node constructor does not
    receive. *)
Record runtime (D : Type) : Type := mk_runtime {
  rand_seq : nat -> nat;
  uninitialised : N -> D;
  default_state : beeler_glider_state D;
  default_command : beeler_glider_command D
}.

Arguments mk_runtime {D}.
Arguments rand_seq {D}.
Arguments uninitialised {D}.
Arguments default_state {D}.
Arguments default_command {D}.

(** ** The pilot *)

Section Pilot.

Context {D : Type} `{Double D} {FZ : Type}.

Variable rt : runtime D.
Variable pl : b03_uct_pilot D FZ.

Local Abbreviation node := (b03_node D).
Local Abbreviation state := (beeler_glider_state D).
Local Abbreviation command := (beeler_glider_command D).
Local Abbreviation Mp := (M D FZ).

Local Open Scope pilot_scope.

(** *** Random choices and maximal scores (utils.hpp) *)

Definition rand : Mp nat :=
  fun m => Some (rand_seq rt (rand_calls m), after_rand m).

(** Modelled from the spec: utils.hpp, which defines [rand_indice], is
    missing.  An index is picked uniformly at random: the next value of
    [rand ()] reduced modulo the size; an empty vector has no index. *)
Definition rand_indice {A} (v : list A) : Mp nat :=
  match v with
  | [] => fail
  | _ :: _ => r <- rand ;; ret (r mod length v)%nat
  end.

(** Modelled from the spec: utils.hpp, which defines [rand_element], is
    missing.  The element at a random index. *)
Definition rand_element {A} (v : list A) : Mp A :=
  i <- rand_indice v ;; lift (v !! i).

Fixpoint sort_indices_from (j : nat) (maxval : D) (up_ind : list nat)
    (v : list D) : list nat :=
  match v with
  | [] => up_ind
  | vj :: v' =>
      if (maxval <? vj)%D then sort_indices_from (S j) vj [j] v'
      else if (vj <? maxval)%D then sort_indices_from (S j) maxval up_ind v'
      else sort_indices_from (S j) maxval (up_ind ++ [j]) v'
  end.

(** Modelled from the spec: utils.hpp, which defines [sort_indices], is
    missing.  The indices of the scores that attain the maximum, found by
    one pass that keeps the greatest score met so far and where it was
    met. *)
Definition sort_indices (v : list D) : list nat :=
  match v with
  | [] => []
  | v0 :: v' => sort_indices_from 1 v0 [0%nat] v'
  end.

(** *** The members of the pilot *)

Definition is_terminal (_s : state) : bool := (z _s <? dconst 0)%D.

(** [get_uct_score]: the assertion is on the visit count, whose cast to
    [double] is zero exactly when the count is; the parent is read through
    the child's pointer. *)
Definition get_uct_score (fr : @frame D) (v : node) : option D :=
  let nchild := of_uint (number_of_visits v) in
  if number_of_visits v =? 0 then None
  else
    q ← parent v;
    vp ← lookup_node (root fr) q;
    let nparent := of_uint (number_of_visits vp) in
    Some (average_reward v
          + dconst 2 * uct_parameter pl * dsqrt (dconst 2 * dlog nparent / nchild))%D.

(** [get_best_uct_child]: the index, in [parent.children], of the child the
    returned reference designates. *)
Definition get_best_uct_child (fr : @frame D) (parent : node) : Mp nat :=
  scores <- lift (mapM (get_uct_score fr) (children parent)) ;;
  let max_indices := sort_indices scores in
  i <- rand_element max_indices ;;
  _ <- lift (children parent !! i) ;;
  ret i.

Definition get_expendable_actions : list command :=
  [ mk_command (dconst 0) (dconst 0) (angle_rate_magnitude pl);
    mk_command (dconst 0) (dconst 0) (dconst 0);
    mk_command (dconst 0) (dconst 0) (- angle_rate_magnitude pl)%D ].

Definition get_transition_model (s : state) (a : command) : Mp state :=
  fun m =>
    let s_prime := s in
    let ac1 := set_state (ac m) s_prime in
    let ac2 := set_command ac1 a in
    let current_time := time s_prime in
    match transition_function pl ac2 (fz m) current_time
            (time_step_width pl) (sub_time_step_width pl) with
    | (ac3, fz3, _) =>
        Some (ac_state ac3,
              mk_machine (arg_state m) (arg_command m) ac3 fz3 (rand_calls m))
    end.

Definition get_reward_model (s_t : state) (a_t : command) (s_tp : state) : D :=
  (zdot s_t + V s_t * Vdot s_t / dconst 9.81)%D.

(** The node [create_new_child] builds for the action [a] tried from the
    node [v] that the reference [p] designates. *)
Definition new_child_of (p : node_ref) (v : node) (a : command) (s_prime : state) : node :=
  mk_node s_prime a get_expendable_actions (dconst 0) 1 (wrap (depth v + 1))
          (Some p) [].

(** The node [v] once [create_new_child] has erased the action at [indice]
    and pushed [new_child] at the back of the children. *)
Definition expand_node (v : node) (indice : nat) (new_child : node) : node :=
  mk_node (get_state v) (incoming_action v)
          (delete indice (expendable_actions v))
          (average_reward v) (number_of_visits v) (depth v)
          (parent v) (children v ++ [new_child]).

Definition create_new_child (fr : @frame D) (p : node_ref) : Mp (@frame D) :=
  v <- lift (lookup_node (root fr) p) ;;
  indice <- rand_indice (expendable_actions v) ;;
  a <- lift (expendable_actions v !! indice) ;;
  s_prime <- get_transition_model (get_state v) a ;;
  let new_child := new_child_of p v a s_prime in
  ret (store fr (InTree p) (expand_node v indice new_child)).

(** [tree_policy (v0, v)]: [p] designates [v0], and [v] is the local node of
    the frame; [fuel] bounds the depth of the recursion. *)
Fixpoint tree_policy (fuel : nat) (fr : @frame D) (p : node_ref) : Mp (@frame D) :=
  match fuel with
  | O => fail
  | S fuel' =>
      v0 <- lift (lookup_node (root fr) p) ;;
      if is_terminal (get_state v0) then ret (store fr Local v0)
      else if is_fully_expanded v0 then
        i <- get_best_uct_child fr v0 ;;
        tree_policy fuel' fr (p ++ [i])
      else
        fr' <- create_new_child fr p ;;
        v0' <- lift (lookup_node (root fr') p) ;;
        c <- lift (get_last_child v0') ;;
        ret (store fr' Local c)
  end.

(** The loop of [default_policy]: [n] iterations are left, [t] is the loop
    counter. *)
Fixpoint default_policy_loop (n : nat) (t : N) (s_t : state) (reward : D) : Mp D :=
  match n with
  | O => ret reward
  | S n' =>
      a_t <- rand_element get_expendable_actions ;;
      s_tp <- get_transition_model s_t a_t ;;
      if is_terminal s_tp then ret reward
      else
        default_policy_loop n' (t + 1) s_tp
          (reward + dpow (df pl) (of_uint t) * get_reward_model s_t a_t s_tp)%D
  end.

(** [default_policy (s, reward)]: the value of [reward] at the return, from
    its value at the call. *)
Definition default_policy (s : state) (reward : D) : Mp D :=
  default_policy_loop (N.to_nat (horizon pl)) 0 s reward.

(** The two assignments of [backup] to the node it is given. *)
Definition backup_node (v : node) (reward : D) : node :=
  mk_node (get_state v) (incoming_action v) (expendable_actions v)
          (average_reward v + dpow (df pl) (of_uint (depth v)) * reward)%D
          (wrap (number_of_visits v + 1)) (depth v) (parent v) (children v).

(** [backup (v, reward)]: [r] designates [v]; [fuel] bounds the depth of the
    recursion. *)
Fixpoint backup (fuel : nat) (fr : @frame D) (r : lvalue) (reward : D) : option (@frame D) :=
  match fuel with
  | O => None
  | S fuel' =>
      v ← load fr r;
      let v' := backup_node v reward in
      let fr' := store fr r v' in
      if 0 <? depth v' then
        q ← parent v';
        backup fuel' fr' (InTree q) reward
      else Some fr'
  end.

Definition get_best_action (v0 : node) : Mp command :=
  let scores := map average_reward (children v0) in
  let max_indices := sort_indices scores in
  i <- rand_element max_indices ;;
  v <- lift (children v0 !! i) ;;
  ret (incoming_action v).

(** The root node of [operator()] and the node [v] each iteration declares. *)
Definition root_node (s0 : state) : node :=
  mk_node s0 (default_command rt) get_expendable_actions (dconst 0) 1 0 None [].

Definition blank_node : node :=
  mk_node (default_state rt) (default_command rt) get_expendable_actions
          (dconst 0) 0 0 None [].

(** One iteration of the loop of [operator()], numbered [i]. *)
Definition simulation (fuel : nat) (i : N) (v0 : node) : Mp node :=
  let v := blank_node in
  let reward := uninitialised rt i in
  fr <- tree_policy fuel (mk_frame v0 v) [] ;;
  reward' <- default_policy (get_state (local fr)) reward ;;
  fr' <- lift (backup fuel fr Local reward') ;;
  ret (root fr').

(** The loop of [operator()]: [n] iterations are left, [i] is the loop
    counter. *)
Fixpoint simulations (fuel : nat) (n : nat) (i : N) (v0 : node) : Mp node :=
  match n with
  | O => ret v0
  | S n' =>
      v0' <- simulation fuel i v0 ;;
      simulations fuel n' (i + 1) v0'
  end.

Definition set_arg_command (a : command) : Mp unit :=
  fun m => Some (tt, mk_machine (arg_state m) a (ac m) (fz m) (rand_calls m)).

Definition get_arg_state : Mp state := fun m => Some (arg_state m, m).

(** [operator()], the action selection: builds the tree, then writes the
    chosen command through [_a]. *)
Definition select_action (fuel : nat) : Mp unit :=
  s0 <- get_arg_state ;;
  v0 <- simulations fuel (N.to_nat (computational_budget pl)) 0 (root_node s0) ;;
  a <- get_best_action v0 ;;
  set_arg_command a.

(** [out_of_range], the policy for out of range situations. *)
Definition out_of_range : Mp unit :=
  s <- get_arg_state ;;
  let a_dsigma :=
    if (sigma s <? dconst 0.4)%D then angle_rate_magnitude pl else dconst 0 in
  set_arg_command (mk_command (dconst 0) (dconst 0) a_dsigma).

End Pilot.

(** * Exact rational arithmetic for the examples

    The examples run the pilot on rational numbers; [None] stands for a
    result that is not a rational number (a division by zero, the root of a
    number that is not a square, a logarithm other than [log 1]) and
    compares like a NaN. *)

Definition Qx : Type := option Q.

Definition Qx_lift2 (f : Q -> Q -> Q) (a b : Qx) : Qx :=
  match a, b with
  | Some u, Some v => Some (Qred (f u v))
  | _, _ => None
  end.

Definition Qx_div (a b : Qx) : Qx :=
  match a, b with
  | Some u, Some v => if Qeq_bool v 0 then None else Some (Qred (u / v))
  | _, _ => None
  end.

Definition Qx_sqrt (a : Qx) : Qx :=
  match a with
  | Some u =>
      let u' := Qred u in
      let n := Z.sqrt (Qnum u') in
      let d := Pos.sqrt (Qden u') in
      if ((n * n =? Qnum u')%Z && (d * d =? Qden u')%positive)%bool
      then Some (n # d) else None
  | None => None
  end.

Definition Qx_log (a : Qx) : Qx :=
  match a with
  | Some u => if Qeq_bool u 1 then Some 0%Q else None
  | None => None
  end.

Definition Qx_pow (a b : Qx) : Qx :=
  match a, b with
  | Some u, Some v =>
      if ((Zpos (Qden (Qred v)) =? 1)%Z && (0 <=? Qnum (Qred v))%Z)%bool
      then Some (Qred (Qpower u (Qnum (Qred v)))) else None
  | _, _ => None
  end.

Definition Qx_ltb (a b : Qx) : bool :=
  match a, b with
  | Some u, Some v => negb (Qle_bool v u)
  | _, _ => false
  end.

#[export] Instance Qx_Double : Double Qx := {
  dconst q := Some (Qred q);
  of_uint n := Some (inject_Z (Z.of_N n));
  dadd := Qx_lift2 Qplus;
  dmul := Qx_lift2 Qmult;
  ddiv := Qx_div;
  dopp a := match a with Some u => Some (Qred (- u)) | None => None end;
  dsqrt := Qx_sqrt;
  dlog := Qx_log;
  dpow := Qx_pow;
  dltb := Qx_ltb
}.

(** The flat zone of flight_zone/flat_zone.hpp: a constant horizontal wind. *)
Record flat_zone : Type := mk_flat_zone { windx : Qx; windy : Qx }.

Definition set_z_time {D} (s : beeler_glider_state D) (vz vt : D) : beeler_glider_state D :=
  mk_state (x s) (y s) vz (V s) (gamma s) (khi s) (alpha s) (beta s) (sigma s)
           (xdot s) (ydot s) (zdot s) (Vdot s) (gammadot s) (khidot s)
           vt (max_angle_magnitude s).

(** A transition function for the examples: the command is applied, then
    the altitude follows [zdot] for the whole time step. *)
Definition sink_transition (ac : beeler_glider Qx) (fz : flat_zone)
    (current_time time_step_width dt : Qx) : beeler_glider Qx * flat_zone * Qx :=
  let ac1 := apply_command ac in
  let s1 := ac_state ac1 in
  let t1 := (current_time + time_step_width)%D in
  (set_state ac1 (set_z_time s1 (z s1 + zdot s1 * time_step_width)%D t1), fz, t1).

Definition q (v : Q) : Qx := Some (Qred v).

(** A glider at altitude [alt] that sinks one metre per second. *)
Definition sinking_state (alt : Q) : beeler_glider_state Qx :=
  mk_state (q 0) (q 0) (q alt) (q 10) (q 0) (q 0) (q 0) (q 0) (q 0)
           (q 0) (q 0) (q (-1)) (q 0) (q 0) (q 0) (q 0) (q 1).

Definition zero_state : beeler_glider_state Qx :=
  mk_state (q 0) (q 0) (q 0) (q 0) (q 0) (q 0) (q 0) (q 0) (q 0)
           (q 0) (q 0) (q 0) (q 0) (q 0) (q 0) (q 0) (q 0).

Definition zero_command : beeler_glider_command Qx := mk_command (q 0) (q 0) (q 0).

(** A pilot with the default parameters of the constructor, a time step of
    one second and no discount. *)
Definition test_pilot (h b : N) : b03_uct_pilot Qx flat_zone :=
  mk_pilot sink_transition (q 0.01) (q 1) (q 1) (q 0.1) (q 1) h b.

(** The machine at the call: the observed state [s0]; the pilot's own
    aircraft still in the state it was built with. *)
Definition test_machine (s0 : beeler_glider_state Qx) : machine Qx flat_zone :=
  mk_machine s0 zero_command
             (mk_glider zero_state zero_command (q 1.36) (q 1.524) (q 16))
             (mk_flat_zone (q 0) (q 0)) 0.

(** [rand ()] counts 0, 1, 2, ...; an uninitialised [reward] holds 5. *)
Definition test_runtime : runtime Qx :=
  mk_runtime (λ k, k) (λ _, q 5) zero_state zero_command.

(** The runs of the examples: a recursion depth of 10 is at hand. *)
Definition test_root (h b : N) (s0 : beeler_glider_state Qx) : b03_node Qx :=
  root_node test_runtime (test_pilot h b) s0.

Definition test_frame (h b : N) (s0 : beeler_glider_state Qx) : @frame Qx :=
  mk_frame (test_root h b s0) (blank_node test_runtime (test_pilot h b)).

Definition test_simulations (h b : N) (k : nat) (s0 : beeler_glider_state Qx)
    : option (b03_node Qx * machine Qx flat_zone) :=
  simulations test_runtime (test_pilot h b) 10 k 0 (test_root h b s0) (test_machine s0).

Definition test_select_action (h b : N) (s0 : beeler_glider_state Qx)
    : option (unit * machine Qx flat_zone) :=
  select_action test_runtime (test_pilot h b) 10 (test_machine s0).

(** The tree and the machine after one iteration from an altitude of ten
    metres, with a horizon of 3. *)
Definition test_tree_1 : b03_node Qx :=
  Eval vm_compute in
    match test_simulations 3 1 1 (sinking_state 10) with
    | Some (t, _) => t
    | None => test_root 3 1 (sinking_state 10)
    end.

Definition test_machine_1 : machine Qx flat_zone :=
  Eval vm_compute in
    match test_simulations 3 1 1 (sinking_state 10) with
    | Some (_, m) => m
    | None => test_machine (sinking_state 10)
    end.

(** * Invariants of the search tree *)

Section Invariants.

Context {D : Type}.

(** What holds of the node [n] that the reference [p] designates once [j]
    iterations of the loop of [operator()] are done: its depth is the length
    of [p]; its parent pointer designates the node above it; unless it is
    the root it was visited at least once and at most [j] times; it is at
    most [j] levels below the root; each of the three actions is either
    still expendable or has its child. *)
Record node_ok (j : N) (p : node_ref) (n : b03_node D) : Prop := mk_node_ok {
  ok_depth : depth n = N.of_nat (length p);
  ok_parent : ∀ p' i, p = p' ++ [i] → parent n = Some p';
  ok_visits : p ≠ [] → 1 ≤ number_of_visits n ∧ number_of_visits n ≤ j;
  ok_level : N.of_nat (length p) ≤ j;
  ok_arity : (length (children n) + length (expendable_actions n) = 3)%nat
}.

Definition well_formed (j : N) (t : b03_node D) : Prop :=
  ∀ p n, lookup_node t p = Some n → node_ok j p n.

(** The part of it that the backup relies on: depths and parent pointers
    agree with the positions in the tree. *)
Definition linked (t : b03_node D) : Prop :=
  ∀ p n, lookup_node t p = Some n →
    depth n = N.of_nat (length p) ∧ ∀ p' i, p = p' ++ [i] → parent n = Some p'.

(** The children of a node that still has an expendable action have no
    children themselves.  [create_new_child] pushes a child at the back of
    the children of such a node only; when this moves the children to
    another place in memory, no pointer designates them, which is why a
    reference can be the position in the tree. *)
Definition leaves_below_expandable (t : b03_node D) : Prop :=
  ∀ p n i c,
    lookup_node t p = Some n → expendable_actions n ≠ [] →
    children n !! i = Some c → children c = [].

(** The tree [t'] is [t] where the nodes from the root down to the one
    that [q] designates went through the two assignments of [backup] for
    the pilot [pl] and the return [reward]; the nodes keep their places. *)
Definition backed_up `{Double D} {FZ} (pl : b03_uct_pilot D FZ) (reward : D)
    (q : node_ref) (t t' : b03_node D) : Prop :=
  ∀ p, node_info <$> lookup_node t' p
       = node_info <$>
           ((λ n, if decide (p `prefix_of` q) then backup_node pl n reward else n)
              <$> lookup_node t p).

End Invariants.

(** * What a rollout and a call may be expected to do *)

Section Expectations.

Context {D : Type} `{Double D} {FZ : Type}.

(** One executed step of a rollout: its index, the state it starts from,
    the action drawn and the state reached. *)
Record rollout_step : Type := mk_step {
  step_index : N;
  step_from : beeler_glider_state D;
  step_action : beeler_glider_command D;
  step_to : beeler_glider_state D
}.

Variable rt : runtime D.
Variable pl : b03_uct_pilot D FZ.

(** The steps of a rollout of at most [n] steps from the state [s_t] and
    the step index [t], on the machine [m]: a step is executed when the
    state it reaches is not terminal, and the first step that reaches a
    terminal state ends the rollout. *)
Fixpoint rollout_steps (n : nat) (t : N) (s_t : beeler_glider_state D)
    (m : machine D FZ) : list rollout_step :=
  match n with
  | O => []
  | S n' =>
      match rand_element rt (get_expendable_actions pl) m with
      | Some (a_t, m1) =>
          match get_transition_model pl s_t a_t m1 with
          | Some (s_tp, m2) =>
              if is_terminal s_tp then []
              else mk_step t s_t a_t s_tp :: rollout_steps n' (t + 1) s_tp m2
          | None => []
          end
      | None => []
      end
  end.

(** The sum, from [r0] on and in the order of the steps, of
    [df ^ t * reward_t]. *)
Definition discounted_sum (r0 : D) (steps : list rollout_step) : D :=
  fold_left
    (λ acc st,
       acc + dpow (df pl) (of_uint (step_index st))
             * get_reward_model (step_from st) (step_action st) (step_to st))%D
    steps r0.

(** The score at the index [i] of [v] is one that no score of [v]
    exceeds. *)
Definition attains_max (v : list D) (i : nat) : Prop :=
  ∃ vi, v !! i = Some vi ∧ ∀ j vj, v !! j = Some vj → (vi <? vj)%D = false.

(** The comparison orders the scores: no score is below itself, the
    comparison is transitive, and so is being neither below nor above. *)
Definition ordered_scores : Prop :=
  (∀ a : D, (a <? a)%D = false)
  ∧ (∀ a b c : D, (a <? b)%D = true → (b <? c)%D = true → (a <? c)%D = true)
  ∧ (∀ a b c : D, (a <? b)%D = false → (b <? a)%D = false →
                  (b <? c)%D = false → (c <? b)%D = false →
                  (a <? c)%D = false ∧ (c <? a)%D = false).

(** The computation [c] changes the machine only along the relation [R]. *)
Definition keeps {A} (R : relation (machine D FZ)) (c : M D FZ A) : Prop :=
  ∀ m a m', c m = Some (a, m') → R m m'.

End Expectations.

(** * What one iteration does to the search tree *)

Section Steps.

Context {D : Type} `{Double D} {FZ : Type}.

Variable pl : b03_uct_pilot D FZ.

(** The tree [t'] is the tree [t] after one iteration of the loop of
    [operator()].  Either the root is terminal and the tree stays as it is;
    or the tree policy went down, through nodes without expendable
    action, to a terminal node, copied it, and the backup went from the
    parent [q] of that node up to the root; or the
    tree policy went down, through nodes without expendable action, to the
    node that [q] designates, gave it a child for one of its expendable
    actions, with the state [s'] that the transition model returned for
    this action, copied the child, and the backup went from [q] up to the
    root. *)
Inductive sim_step (t t' : b03_node D) : Prop :=
| sim_terminal_root :
    is_terminal (get_state t) = true → t' = t → sim_step t t'
| sim_terminal_node q k nq r :
    lookup_node t (q ++ [k]) = Some nq →
    is_terminal (get_state nq) = true →
    (∀ x nx, x `prefix_of` q → lookup_node t x = Some nx →
             expendable_actions nx = []) →
    backed_up pl r q t t' →
    sim_step t t'
| sim_expansion q nq indice a s' r :
    lookup_node t q = Some nq →
    is_terminal (get_state nq) = false →
    expendable_actions nq !! indice = Some a →
    (∃ m1 m2, get_transition_model pl (get_state nq) a m1 = Some (s', m2)) →
    (∀ x nx, x `prefix_of` q → x ≠ q → lookup_node t x = Some nx →
             expendable_actions nx = []) →
    backed_up pl r q
      (update_node t q (λ _, expand_node nq indice (new_child_of pl q nq a s'))) t' →
    sim_step t t'.

(** Every node of the tree has tried each action of the pilot at most
    once: the incoming actions of its children and its expendable actions
    are, together, the actions of [get_expendable_actions]. *)
Definition actions_partitioned (t : b03_node D) : Prop :=
  ∀ p n, lookup_node t p = Some n →
    map incoming_action (children n) ++ expendable_actions n
    ≡ₚ get_expendable_actions pl.

(** The statistics of the nodes: a node without children holds the values
    it was built with, a node with children was visited again. *)
Definition leaf_statistics (t : b03_node D) : Prop :=
  ∀ p n, lookup_node t p = Some n →
    (children n = [] → number_of_visits n = 1 ∧ average_reward n = dconst 0)
    ∧ (children n ≠ [] → 2 ≤ number_of_visits n).

(** The comparison orders the scores of the list [l]: none is below
    itself, the comparison is transitive on them, and so is being neither
    below nor above.  This holds of the [double]s of a list without NaN. *)
Definition ordered_on (l : list D) : Prop :=
  (∀ a, a ∈ l → (a <? a)%D = false)
  ∧ (∀ a b c, a ∈ l → b ∈ l → c ∈ l →
       (a <? b)%D = true → (b <? c)%D = true → (a <? c)%D = true)
  ∧ (∀ a b c, a ∈ l → b ∈ l → c ∈ l →
       (a <? b)%D = false → (b <? a)%D = false →
       (b <? c)%D = false → (c <? b)%D = false →
       (a <? c)%D = false ∧ (c <? a)%D = false).

End Steps.

(** * The rest of the simulator *)

(** ** More of double precision arithmetic *)

Class DoubleOps (D : Type) : Type := {
  of_int : Z -> D;            (* the conversion of an int to double *)
  dsub : D -> D -> D;
  dgtb : D -> D -> bool       (* the comparison > *)
}.

Infix "-" := dsub : double_scope.
Infix ">?" := dgtb : double_scope.

#[export] Instance Qx_DoubleOps : DoubleOps Qx := {
  of_int n := Some (inject_Z n);
  dsub := Qx_lift2 Qminus;
  dgtb a b := Qx_ltb b a
}.

(** ** The checks of the glider (aircraft/beeler_glider/beeler_glider.hpp) *)

Section Glider.

Context {D : Type} `{Double D} `{DoubleOps D}.

(** What [is_in_model] prints before it returns [false]: which limit is
    crossed, and the bound that it prints with it. *)
Inductive stop_message : Type :=
| stop_altitude
| stop_gamma_above (bound : D)
| stop_gamma_below (bound : D)
| stop_inclination_above (bound : D)
| stop_inclination_below (bound : D).

(** [beeler_glider::is_in_model]: the verdict and the line printed. *)
Definition is_in_model (ac : beeler_glider D) : bool * option stop_message :=
  let s := ac_state ac in
  let gm := gamma s in
  let alpgm := (alpha s + gm)%D in
  let mam := max_angle_magnitude s in
  if (z s <? dconst 0)%D then (false, Some stop_altitude)
  else if (gm >? mam)%D then (false, Some (stop_gamma_above mam))
  else if (gm <? - mam)%D then (false, Some (stop_gamma_below (- mam)%D))
  else if (alpgm >? mam)%D then (false, Some (stop_inclination_above mam))
  else if (alpgm <? - mam)%D then (false, Some (stop_inclination_below (- mam)%D))
  else (true, None).

End Glider.

(** ** The heuristic pilot (pilot/heuristic_pilot.hpp) *)

Module heuristic_pilot.

Section Heuristic.

Context {D : Type} `{Double D} `{DoubleOps D}.

Record pilot : Type := mk_pilot {
  angle_rate_magnitude : D
}.

(** [operator()]: the command [u] once the policy has written to it, from
    the state [s], which it reads. *)
Definition operator_call (hp : pilot) (s : beeler_glider_state D)
    (u : beeler_glider_command D) : beeler_glider_command D :=
  let th := (dconst 0.5 * angle_rate_magnitude hp)%D in
  let kd := dconst 1e-2 in
  let gammadot_ref := dconst 0 in
  let u1 := mk_command (kd * (gammadot_ref - gammadot s))%D (dbeta u) (dsigma u) in
  let u2 := mk_command (dalpha u1) (dconst 0) (dsigma u1) in
  let u3 :=
    if (sigma s >? th)%D
    then mk_command (dalpha u2) (dbeta u2) (- angle_rate_magnitude hp)%D
    else u2 in
  let u4 :=
    if (sigma s <? - th)%D
    then mk_command (dalpha u3) (dbeta u3) (angle_rate_magnitude hp)
    else u3 in
  u4.

(** [out_of_range]: steers the glider back into the valid zone. *)
Definition out_of_range (hp : pilot) (s : beeler_glider_state D)
    (u : beeler_glider_command D) : beeler_glider_command D :=
  let u1 := mk_command (dconst 0) (dbeta u) (dsigma u) in
  let u2 := mk_command (dalpha u1) (dconst 0) (dsigma u1) in
  if (sigma s <? dconst 0.4)%D
  then mk_command (dalpha u2) (dbeta u2) (angle_rate_magnitude hp)
  else mk_command (dalpha u2) (dbeta u2) (dconst 0).

End Heuristic.

Arguments pilot D : clear implicits.

End heuristic_pilot.

(** ** The Euler integrator (stepper/euler_integrator.hpp) *)

Module euler_integrator.

(** The members of [aircraft], and of the [state] it owns, that the
    transition calls: they are virtual, and taken to return.
    [update_state_dynamic] receives the flight zone by reference;
    [apply_dynamic] and [update_time] are called on [ac.get_state ()]. *)
Class Aircraft (D FZ AC : Type) : Type := {
  apply_command : AC -> AC;
  update_state_dynamic : FZ -> D -> AC -> AC * FZ;
  apply_dynamic : D -> AC -> AC;
  update_time : D -> AC -> AC
}.

Section Stepper.

Context {D : Type} `{Double D} `{DoubleOps D} {FZ AC : Type} `{Aircraft D FZ AC}.

(** The greatest [int]; [++n] beyond it is undefined. *)
Definition int_max : Z := 2 ^ 31 - 1.

(** The body of the loop of [transition_function]: one Euler step of
    width [dt]. *)
Definition sub_step (dt : D) (w : AC * FZ * D) : AC * FZ * D :=
  match w with
  | (ac, fz, current_time) =>
      match update_state_dynamic fz current_time ac with
      | (ac1, fz1) =>
          let ac2 := apply_dynamic dt ac1 in
          let current_time' := (current_time + dt)%D in
          (update_time current_time' ac2, fz1, current_time')
      end
  end.

(** The loop of [transition_function], the counter at [n]; [fuel] bounds
    the number of tests of the loop condition. *)
Fixpoint transition_loop (fuel : nat) (n : Z) (w : AC * FZ * D)
    (time_step_width dt : D) : option (AC * FZ * D) :=
  match fuel with
  | O => None
  | S fuel' =>
      if (of_int n <? time_step_width / dt)%D then
        let w' := sub_step dt w in
        if (n + 1 <=? int_max)%Z
        then transition_loop fuel' (n + 1) w' time_step_width dt
        else None
      else Some w
  end.

(** [transition_function (ac, fz, current_time, time_step_width, dt)]:
    the aircraft, the flight zone and [current_time] at the return. *)
Definition transition_function (fuel : nat) (ac : AC) (fz : FZ)
    (current_time time_step_width dt : D) : option (AC * FZ * D) :=
  transition_loop fuel 0 (apply_command ac, fz, current_time) time_step_width dt.

End Stepper.

End euler_integrator.

(** An aircraft for the examples: its state is a position on a line, a
    speed and a clock; a command sets the speed to one, the dynamics moves
    the position by the speed. *)
Record toy_aircraft : Type := mk_toy {
  toy_position : Qx;
  toy_speed : Qx;
  toy_clock : Qx
}.

#[export] Instance toy_Aircraft : euler_integrator.Aircraft Qx flat_zone toy_aircraft := {
  euler_integrator.apply_command a := mk_toy (toy_position a) (q 1) (toy_clock a);
  euler_integrator.update_state_dynamic fz _ a := (a, fz);
  euler_integrator.apply_dynamic dt a :=
    mk_toy (toy_position a + toy_speed a * dt)%D (toy_speed a) (toy_clock a);
  euler_integrator.update_time t a := mk_toy (toy_position a) (toy_speed a) t
}.

(** The tree and the machine after five iterations from an altitude of
    ten metres, with a horizon of 3: the root has its three children, and
    two of them a child. *)
Definition test_tree_5 : b03_node Qx :=
  Eval vm_compute in
    match test_simulations 3 5 5 (sinking_state 10) with
    | Some (t, _) => t
    | None => test_root 3 5 (sinking_state 10)
    end.

Definition test_machine_5 : machine Qx flat_zone :=
  Eval vm_compute in
    match test_simulations 3 5 5 (sinking_state 10) with
    | Some (_, m) => m
    | None => test_machine (sinking_state 10)
    end.

(** The same from an altitude of a metre and a half: the first child of
    the root has two children, both below the ground. *)
Definition test_tree_low : b03_node Qx :=
  Eval vm_compute in
    match test_simulations 3 5 5 (sinking_state 1.5) with
    | Some (t, _) => t
    | None => test_root 3 5 (sinking_state 1.5)
    end.

Definition test_machine_low : machine Qx flat_zone :=
  Eval vm_compute in
    match test_simulations 3 5 5 (sinking_state 1.5) with
    | Some (_, m) => m
    | None => test_machine (sinking_state 1.5)
    end.

(** A tree whose UCT scores are rational numbers: its root holds a visit
    count of one, so that the logarithm in the scores is [log 1]; the three
    children, one for each action, hold the returns 1, 3 and 2. *)
Definition scored_child (a : beeler_glider_command Qx) (r : Q) : b03_node Qx :=
  mk_node (sinking_state 9) a (get_expendable_actions (test_pilot 3 5))
          (q r) 1 1 (Some []) [].

Definition test_tree_scored : b03_node Qx :=
  mk_node (sinking_state 10) zero_command [] (q 0) 1 0 None
    [ scored_child (mk_command (q 0) (q 0) (q 0.01)) 1;
      scored_child zero_command 3;
      scored_child (mk_command (q 0) (q 0) (q (-0.01))) 2 ].

(** * Facts on references into the tree *)

Section TreeFacts.

Context {D : Type}.

Implicit Types (t n c : b03_node D) (p q : node_ref).

Lemma lookup_node_app t p q :
  lookup_node t (p ++ q) = lookup_node t p ≫= λ n, lookup_node n q.
Proof.
  revert t. induction p as [|i p IH]; intros t; simpl; [done|].
  destruct (children t !! i); simpl; auto.
Qed.

Lemma lookup_node_snoc t p i n c :
  lookup_node t p = Some n → children n !! i = Some c →
  lookup_node t (p ++ [i]) = Some c.
Proof.
  intros Hp Hc. rewrite lookup_node_app, Hp. simpl. by rewrite Hc.
Qed.

Lemma lookup_node_snoc_inv t p i c :
  lookup_node t (p ++ [i]) = Some c →
  ∃ n, lookup_node t p = Some n ∧ children n !! i = Some c.
Proof.
  rewrite lookup_node_app. destruct (lookup_node t p) as [n|]; simpl; [|done].
  destruct (children n !! i) eqn:E; [|done]. intros [= <-]. eauto.
Qed.

Lemma lookup_node_prefix t p q n :
  lookup_node t q = Some n → p `prefix_of` q → is_Some (lookup_node t p).
Proof.
  intros Hq [r ->]. rewrite lookup_node_app in Hq.
  destruct (lookup_node t p); [eauto|done].
Qed.

(** Reading at or below an updated node. *)
Lemma lookup_update_node_ext t p f q n :
  lookup_node t p = Some n →
  lookup_node (update_node t p f) (p ++ q) = lookup_node (f n) q.
Proof.
  revert t. induction p as [|i p IH]; intros t; simpl.
  - by intros [= ->].
  - destruct (children t !! i) as [c|] eqn:E; [|done]. intros Hc. simpl.
    rewrite list_lookup_insert_eq by (eapply lookup_lt_Some; eauto). auto.
Qed.

Lemma lookup_update_node_same t p f n :
  lookup_node t p = Some n → lookup_node (update_node t p f) p = Some (f n).
Proof.
  intros Hp. rewrite <- (app_nil_r p) at 2.
  by rewrite (lookup_update_node_ext _ _ _ _ n).
Qed.

(** Reading anywhere else: the node read has the members it had. *)
Lemma lookup_update_node_other t p f q :
  ¬ p `prefix_of` q →
  node_info <$> lookup_node (update_node t p f) q = node_info <$> lookup_node t q.
Proof.
  revert t q. induction p as [|i p IH]; intros t q Hn.
  - destruct Hn. apply prefix_nil.
  - simpl. destruct (children t !! i) as [c|] eqn:E; [|done].
    destruct q as [|k q]; simpl.
    + unfold node_info. simpl. by rewrite length_insert.
    + destruct (decide (i = k)) as [->|Hne].
      * rewrite list_lookup_insert_eq by (eapply lookup_lt_Some; eauto).
        rewrite E. apply IH. intros Hp. apply Hn. by apply prefix_cons.
      * by rewrite list_lookup_insert_ne.
Qed.

Lemma node_info_fields n n' :
  node_info n = node_info n' →
  get_state n = get_state n' ∧ incoming_action n = incoming_action n' ∧
  expendable_actions n = expendable_actions n' ∧
  average_reward n = average_reward n' ∧
  number_of_visits n = number_of_visits n' ∧ depth n = depth n' ∧
  parent n = parent n' ∧ length (children n) = length (children n').
Proof.
  unfold node_info. intros [= Hs Ha He Hr Hv Hd Hp Hl]. done.
Qed.

Lemma node_ok_info j p n n' :
  node_info n = node_info n' → node_ok j p n → node_ok j p n'.
Proof.
  intros Hi [H1 H2 H3 H4 H5].
  destruct (node_info_fields _ _ Hi) as (_ & _ & He & _ & Hv & Hd & Hp & Hl).
  split; rewrite <- ?Hd, <- ?Hp, <- ?Hv, <- ?Hl, <- ?He; auto.
Qed.

Lemma node_ok_mono j j' p n : j ≤ j' → node_ok j p n → node_ok j' p n.
Proof.
  intros Hj [H1 H2 H3 H4 H5]. split; auto; try lia.
  intros Hp. specialize (H3 Hp). lia.
Qed.

Lemma fmap_info_Some (o : option (b03_node D)) n' :
  node_info <$> o = Some (node_info n') →
  ∃ n, o = Some n ∧ node_info n = node_info n'.
Proof.
  destruct o as [n|]; simpl; [|done]. intros E. exists n.
  split; [done | congruence].
Qed.

End TreeFacts.

(** * The number of nodes of a tree *)

Section SizeFacts.

Context {D : Type}.

Implicit Types (t n c : b03_node D) (p q : node_ref).

Lemma tree_size_children t :
  tree_size t = S (sum_list (tree_size <$> children t)).
Proof.
  destruct t as [s a e r v d pa cs]. simpl. f_equal.
  induction cs as [|c cs IH]; simpl; [done|]. by rewrite IH.
Qed.

Lemma sum_list_insert (l : list nat) i a b :
  l !! i = Some a → (sum_list (<[i := b]> l) + a = sum_list l + b)%nat.
Proof.
  revert i. induction l as [|y l IH]; intros i Hi; [done|].
  destruct i as [|i]; simpl in *.
  - injection Hi as ->. lia.
  - specialize (IH i Hi). lia.
Qed.

(** Assigning a node that is [k] nodes larger makes the tree [k] nodes
    larger. *)
Lemma tree_size_update_node t p f n k :
  lookup_node t p = Some n → (tree_size (f n) = tree_size n + k)%nat →
  (tree_size (update_node t p f) = tree_size t + k)%nat.
Proof.
  revert t. induction p as [|i p IH]; intros t Hp Hf; simpl in *.
  - by injection Hp as ->.
  - destruct (children t !! i) as [c|] eqn:E; [|done].
    specialize (IH c Hp Hf).
    rewrite (tree_size_children (set_children _ _)), (tree_size_children t). simpl.
    rewrite list_fmap_insert.
    pose proof (sum_list_insert (tree_size <$> children t) i (tree_size c)
                  (tree_size (update_node c p f))) as Hs.
    rewrite list_lookup_fmap, E in Hs. specialize (Hs eq_refl). lia.
Qed.

Lemma tree_size_expand_node n indice c :
  children c = [] →
  (tree_size (expand_node n indice c) = tree_size n + 1)%nat.
Proof.
  intros Hc. rewrite (tree_size_children (expand_node _ _ _)), (tree_size_children n).
  simpl. rewrite fmap_app, sum_list_with_app. simpl.
  rewrite (tree_size_children c), Hc. simpl. lia.
Qed.

End SizeFacts.

(** * Facts on the members of the pilot *)

Section PilotFacts.

Context {D : Type} `{Double D} {FZ : Type}.
Variable rt : runtime D.
Variable pl : b03_uct_pilot D FZ.

Implicit Types (t n c : b03_node D) (p q : node_ref) (m : machine D FZ).

Lemma bind_Some {A B} (c : M D FZ A) (f : A -> M D FZ B) m r :
  bind c f m = Some r ↔ ∃ a m', c m = Some (a, m') ∧ f a m' = Some r.
Proof.
  unfold bind. destruct (c m) as [[a m']|]; split.
  - eauto.
  - by intros (? & ? & [= <- <-] & ?).
  - done.
  - by intros (? & ? & ? & ?).
Qed.

Lemma lift_Some {A} (o : option A) m a m' :
  lift o m = Some (a, m') ↔ o = Some a ∧ m' = m.
Proof.
  unfold lift. destruct o as [b|]; split.
  - by intros [= -> ->].
  - by intros [[= ->] ->].
  - done.
  - by intros [? _].
Qed.

Lemma rand_indice_Some {A} (v : list A) m :
  v ≠ [] →
  ∃ m', rand_indice rt v m
        = Some (rand_seq rt (rand_calls m) `mod` length v, m')%nat
        ∧ same_members m m'.
Proof.
  destruct v as [|a v]; [done|]. intros _. eexists. split; [reflexivity|].
  by repeat split.
Qed.

Lemma rand_element_Some {A} (v : list A) m :
  v ≠ [] →
  ∃ a m', rand_element rt v m = Some (a, m')
          ∧ v !! (rand_seq rt (rand_calls m) `mod` length v)%nat = Some a
          ∧ same_members m m'.
Proof.
  intros Hv. destruct (rand_indice_Some v m Hv) as (m' & Hr & Hs).
  assert (Hlt : (rand_seq rt (rand_calls m) `mod` length v < length v)%nat).
  { apply Nat.mod_upper_bound. by destruct v. }
  destruct (lookup_lt_is_Some_2 _ _ Hlt) as [a Ha].
  exists a, m'. split_and!; [|done..].
  unfold rand_element. apply bind_Some. exists (rand_seq rt (rand_calls m) `mod` length v)%nat, m'.
  split; [done|]. by apply lift_Some.
Qed.

Lemma sort_indices_from_spec j maxval up v :
  up ≠ [] → Forall (λ i, i < j)%nat up →
  sort_indices_from j maxval up v ≠ []
  ∧ Forall (λ i, i < j + length v)%nat (sort_indices_from j maxval up v).
Proof.
  revert j maxval up. induction v as [|vj v IH]; intros j maxval up Hne Hlt; simpl.
  - split; [done|]. eapply Forall_impl; [done|]. simpl. lia.
  - assert (Hup : Forall (λ i, i < S j)%nat up).
    { eapply Forall_impl; [done|]. simpl. lia. }
    replace (j + S (length v))%nat with (S j + length v)%nat by lia.
    destruct (maxval <? vj)%D; [|destruct (vj <? maxval)%D].
    + apply IH; [done|]. apply Forall_singleton. lia.
    + by apply IH.
    + apply IH; [by destruct up|]. apply Forall_app. split; [done|].
      apply Forall_singleton. lia.
Qed.

Lemma sort_indices_spec (v : list D) :
  v ≠ [] →
  sort_indices v ≠ [] ∧ Forall (λ i, i < length v)%nat (sort_indices v).
Proof.
  destruct v as [|v0 v]; [done|]. intros _. simpl.
  apply (sort_indices_from_spec 1 v0 [0%nat] v); [done|].
  apply Forall_singleton. lia.
Qed.

Lemma get_uct_score_Some (fr : @frame D) c vp q :
  number_of_visits c ≠ 0 → parent c = Some q →
  lookup_node (root fr) q = Some vp →
  get_uct_score pl fr c
  = Some (average_reward c
          + dconst 2 * uct_parameter pl
            * dsqrt (dconst 2 * dlog (of_uint (number_of_visits vp))
                     / of_uint (number_of_visits c)))%D.
Proof.
  intros Hv Hp Hq. unfold get_uct_score.
  destruct (N.eqb_spec (number_of_visits c) 0) as [|_]; [done|].
  rewrite Hp. simpl. by rewrite Hq.
Qed.

Lemma get_transition_model_total s a m :
  ∃ s' m', get_transition_model pl s a m = Some (s', m')
           ∧ arg_state m' = arg_state m ∧ arg_command m' = arg_command m
           ∧ rand_calls m' = rand_calls m.
Proof.
  unfold get_transition_model.
  destruct (transition_function pl _ _ _ _ _) as [[ac3 fz3] tm].
  by eexists _, _.
Qed.

Lemma default_policy_loop_total k tc s r m :
  ∃ r' m', default_policy_loop rt pl k tc s r m = Some (r', m').
Proof.
  revert tc s r m. induction k as [|k IH]; intros tc s r m; simpl.
  - by eexists _, _.
  - destruct (rand_element_Some (get_expendable_actions pl) m) as (a & m1 & Ha & _); [done|].
    destruct (get_transition_model_total s a m1) as (s' & m2 & Hs & _).
    unfold bind at 1. rewrite Ha. unfold bind at 1. rewrite Hs.
    destruct (is_terminal s'); [by eexists _, _|]. apply IH.
Qed.

End PilotFacts.

(** * The indices of the maximal scores *)

Section MaximalScores.

Context {D : Type} `{Double D}.
Hypothesis Hord : @ordered_scores D _.

Lemma below_of_tie (a b c : D) :
  (a <? b)%D = false → (b <? a)%D = false → (b <? c)%D = true → (a <? c)%D = true.
Proof using Hord.
  destruct Hord as (Hirr & Htr & Htie). intros Hab Hba Hbc.
  destruct (a <? c)%D eqn:Hac; [done|].
  destruct (c <? a)%D eqn:Hca.
  - by rewrite (Htr b c a) in Hba.
  - destruct (Htie b a c) as [Hx _]; congruence.
Qed.

Lemma above_of_tie (a b c : D) :
  (a <? b)%D = false → (b <? a)%D = false → (c <? b)%D = true → (c <? a)%D = true.
Proof using Hord.
  destruct Hord as (Hirr & Htr & Htie). intros Hab Hba Hcb.
  destruct (c <? a)%D eqn:Hca; [done|].
  destruct (a <? c)%D eqn:Hac.
  - by rewrite (Htr a c b) in Hab.
  - destruct (Htie c a b) as [Hx _]; congruence.
Qed.

(** The pass over the scores keeps, for the scores [pre] already met, the
    indices of the maximal ones and a score that ties with them. *)
Lemma sort_indices_from_max (pre v : list D) maxval up :
  up ≠ [] →
  (∀ i, i ∈ up ↔ attains_max pre i) →
  (∀ i a, i ∈ up → pre !! i = Some a →
          (a <? maxval)%D = false ∧ (maxval <? a)%D = false) →
  ∀ i, i ∈ sort_indices_from (length pre) maxval up v ↔ attains_max (pre ++ v) i.
Proof using Hord.
  pose proof Hord as (Hirr & Htr & Htie).
  revert pre maxval up. induction v as [|vj v IH]; intros pre maxval up Hne Hup Htied i.
  { simpl. by rewrite app_nil_r. }
  assert (Hmax : ∀ k y, pre !! k = Some y → (maxval <? y)%D = false).
  { intros k y Hk. destruct up as [|i0 up']; [done|].
    destruct (proj1 (Hup i0) ltac:(left)) as (a & Ha & Hamax).
    destruct (Htied i0 a ltac:(left) Ha) as [H1 H2].
    destruct (maxval <? y)%D eqn:E; [|done].
    pose proof (Hamax k y Hk) as Hx.
    by rewrite (below_of_tie a maxval y) in Hx. }
  assert (Hlen : length (pre ++ [vj]) = S (length pre)).
  { rewrite length_app. simpl. lia. }
  simpl. rewrite (cons_middle vj pre v), app_assoc, <- Hlen.
  destruct (maxval <? vj)%D eqn:E1; [|destruct (vj <? maxval)%D eqn:E2].
  - (* a greater score: it alone is maximal *)
    apply IH; [done| |].
    + intros k. rewrite list_elem_of_singleton. split.
      * intros ->. exists vj. split; [by rewrite list_lookup_middle|].
        intros j y Hj. apply lookup_snoc_Some in Hj as [[_ Hj]|[_ <-]]; [|done].
        specialize (Hmax j y Hj). destruct (vj <? y)%D eqn:E; [|done].
        by rewrite (Htr maxval vj y) in Hmax.
      * intros (a & Ha & Hamax).
        apply lookup_snoc_Some in Ha as [[Hk Ha]|[Hk _]]; [|done].
        exfalso.
        assert (Hin : attains_max pre k).
        { exists a. split; [done|]. intros j y Hj. apply (Hamax j y).
          by rewrite lookup_app_l by (by eapply lookup_lt_Some). }
        apply Hup in Hin. destruct (Htied k a Hin Ha) as [H1 H2].
        pose proof (Hamax (length pre) vj (list_lookup_middle _ _ _ _ eq_refl)) as Hx.
        by rewrite (below_of_tie a maxval vj) in Hx.
    + intros k a ->%list_elem_of_singleton Hk.
      rewrite list_lookup_middle in Hk by done. injection Hk as <-. by rewrite Hirr.
  - (* a smaller score: the maximal ones stay *)
    apply IH; [done| |].
    + intros k. rewrite Hup. split.
      * intros (a & Ha & Hamax). exists a.
        split; [by rewrite lookup_app_l by (by eapply lookup_lt_Some)|].
        intros j y Hj. apply lookup_snoc_Some in Hj as [[_ Hj]|[_ <-]]; [by eapply Hamax|].
        assert (Hin : attains_max pre k) by (by exists a).
        apply Hup in Hin. destruct (Htied k a Hin Ha) as [H1 H2].
        destruct (a <? vj)%D eqn:E; [|done].
        by rewrite (Htr a vj maxval) in H1.
      * intros (a & Ha & Hamax).
        apply lookup_snoc_Some in Ha as [[Hk Ha]|[Hk <-]].
        -- exists a. split; [done|]. intros j y Hj. apply (Hamax j y).
           by rewrite lookup_app_l by (by eapply lookup_lt_Some).
        -- exfalso. destruct up as [|i0 up']; [done|].
           destruct (proj1 (Hup i0) ltac:(left)) as (b & Hb & _).
           destruct (Htied i0 b ltac:(left) Hb) as [H1 H2].
           pose proof (Hamax i0 b) as Hx.
           rewrite lookup_app_l in Hx by (by eapply lookup_lt_Some).
           specialize (Hx Hb).
           by rewrite (above_of_tie b maxval vj) in Hx.
    + intros k a Hk Ha. apply (Htied k a Hk).
      pose proof (proj1 (Hup k) Hk) as (b & Hb & _).
      by rewrite lookup_app_l in Ha by (by eapply lookup_lt_Some).
  - (* a tie: one more maximal score *)
    apply IH; [by destruct up| |].
    + intros k. rewrite elem_of_app, list_elem_of_singleton, Hup. split.
      * intros [(a & Ha & Hamax)| ->].
        -- exists a. split; [by rewrite lookup_app_l by (by eapply lookup_lt_Some)|].
           intros j y Hj.
           apply lookup_snoc_Some in Hj as [[_ Hj]|[_ <-]]; [by eapply Hamax|].
           assert (Hin : attains_max pre k) by (by exists a).
           apply Hup in Hin. destruct (Htied k a Hin Ha) as [H1 H2].
           by destruct (Htie a maxval vj).
        -- exists vj. split; [by rewrite list_lookup_middle|].
           intros j y Hj. apply lookup_snoc_Some in Hj as [[_ Hj]|[_ <-]]; [|done].
           specialize (Hmax j y Hj). destruct (vj <? y)%D eqn:E; [|done].
           by rewrite (below_of_tie maxval vj y) in Hmax.
      * intros (a & Ha & Hamax).
        apply lookup_snoc_Some in Ha as [[Hk Ha]|[Hk <-]]; [left|by right].
        exists a. split; [done|]. intros j y Hj. apply (Hamax j y).
        by rewrite lookup_app_l by (by eapply lookup_lt_Some).
    + intros k a Hk Ha. apply elem_of_app in Hk as [Hk| ->%list_elem_of_singleton].
      * apply (Htied k a Hk).
        pose proof (proj1 (Hup k) Hk) as (b & Hb & _).
        by rewrite lookup_app_l in Ha by (by eapply lookup_lt_Some).
      * rewrite list_lookup_middle in Ha by done. by injection Ha as <-.
Qed.

(** [sort_indices] returns the indices of the maximal scores. *)
Lemma sort_indices_max (v : list D) i : i ∈ sort_indices v ↔ attains_max v i.
Proof using Hord.
  pose proof Hord as (Hirr & Htr & Htie).
  destruct v as [|v0 v]; simpl.
  { split; [by intros ?%elem_of_nil | by intros (? & ? & _)]. }
  apply (sort_indices_from_max [v0] v v0 [0%nat]); [done| |].
  - intros k. rewrite list_elem_of_singleton. split.
    + intros ->. exists v0. split; [done|]. intros [|j] y Hj; [|done].
      simpl in Hj. by injection Hj as <-.
    + intros (a & Ha & _). by destruct k.
  - intros k a ->%list_elem_of_singleton Ha. simpl in Ha. by injection Ha as <-.
Qed.

End MaximalScores.

Section NoDupScores.

Context {D : Type} `{Double D}.

Lemma sort_indices_from_NoDup j (maxval : D) up v :
  NoDup up → Forall (λ i, i < j)%nat up → NoDup (sort_indices_from j maxval up v).
Proof.
  revert j maxval up. induction v as [|vj v IH]; intros j maxval up Hnd Hlt; simpl; [done|].
  assert (Hup : Forall (λ i, i < S j)%nat up).
  { eapply Forall_impl; [done|]. simpl. lia. }
  destruct (maxval <? vj)%D; [|destruct (vj <? maxval)%D].
  - apply IH; [apply NoDup_singleton | apply Forall_singleton; lia].
  - by apply IH.
  - apply IH.
    + apply NoDup_app. split; [done|]. split; [|apply NoDup_singleton].
      intros k Hk ->%list_elem_of_singleton.
      rewrite Forall_forall in Hlt. specialize (Hlt _ Hk). lia.
    + apply Forall_app. split; [done|]. apply Forall_singleton. lia.
Qed.

(** No index comes twice: each is drawn with the same chance. *)
Lemma sort_indices_NoDup (v : list D) : NoDup (sort_indices v).
Proof.
  destruct v as [|v0 v]; simpl; [apply NoDup_nil_2|].
  apply sort_indices_from_NoDup; [apply NoDup_singleton | apply Forall_singleton; lia].
Qed.

End NoDupScores.

(** * The maximal scores of a list that the comparison orders *)

Section ScoresAlong.

Context {D1 D2 : Type} `{Double D1} `{Double D2}.
Variable f : D1 → D2.
Hypothesis f_ltb : ∀ a b, (f a <? f b)%D = (a <? b)%D.

Lemma sort_indices_from_map j maxval up (v : list D1) :
  sort_indices_from j (f maxval) up (map f v) = sort_indices_from j maxval up v.
Proof using f_ltb.
  revert j maxval up. induction v as [|vj v IH]; intros j maxval up; simpl; [done|].
  rewrite !f_ltb. destruct (maxval <? vj)%D; [apply IH|].
  destruct (vj <? maxval)%D; apply IH.
Qed.

Lemma sort_indices_map (v : list D1) : sort_indices (map f v) = sort_indices v.
Proof using f_ltb.
  destruct v as [|v0 v]; simpl; [done|]. apply sort_indices_from_map.
Qed.

Lemma attains_max_map (v : list D1) i : attains_max (map f v) i ↔ attains_max v i.
Proof using f_ltb.
  split.
  - intros (y & Hy & Hmax). rewrite list_lookup_fmap in Hy.
    destruct (v !! i) as [vi|] eqn:Hi; [|done]. injection Hy as <-.
    exists vi. split; [done|]. intros j vj Hj. rewrite <- f_ltb.
    apply (Hmax j). by rewrite list_lookup_fmap, Hj.
  - intros (vi & Hi & Hmax). exists (f vi).
    split; [by rewrite list_lookup_fmap, Hi|].
    intros j y Hj. rewrite list_lookup_fmap in Hj.
    destruct (v !! j) as [vj|] eqn:Hvj; [|done]. injection Hj as <-.
    rewrite f_ltb. by apply (Hmax j).
Qed.

End ScoresAlong.

Section OrderedOn.

Context {D : Type} `{Double D}.

Lemma list_of_sig (P : D → Prop) (l : list D) :
  Forall P l → ∃ l' : list (sig P), map proj1_sig l' = l.
Proof.
  induction 1 as [|a l Ha _ [l' <-]].
  - by exists [].
  - by exists (a ↾ Ha :: l').
Qed.

(** [sort_indices] returns the indices of the maximal scores of a list
    that the comparison orders. *)
Lemma sort_indices_max_on (v : list D) i :
  ordered_on v → i ∈ sort_indices v ↔ attains_max v i.
Proof.
  intros (Hirr & Htr & Htie).
  destruct v as [|v0 v1] eqn:Ev.
  { simpl. split; [by intros ?%elem_of_nil | by intros (? & ? & _)]. }
  rewrite <- Ev in *.
  assert (H0 : v0 ∈ v) by (rewrite Ev; left).
  set (d0 := v0 ↾ H0 : sig (λ a, a ∈ v)).
  pose (HD' := {| dconst := λ _, d0; of_uint := λ _, d0;
                  dadd := λ _ _, d0; dmul := λ _ _, d0; ddiv := λ _ _, d0;
                  dopp := λ _, d0; dsqrt := λ _, d0; dlog := λ _, d0;
                  dpow := λ _ _, d0;
                  dltb := λ a b : sig (λ a, a ∈ v), (`a <? `b)%D |}).
  destruct (list_of_sig (λ a, a ∈ v) v) as [v' Hv'].
  { by apply Forall_forall. }
  assert (Hf : ∀ a b : sig (λ a, a ∈ v), (`a <? `b)%D = @dltb _ HD' a b) by done.
  rewrite <- Hv'.
  rewrite (@sort_indices_map _ _ HD' _ proj1_sig Hf v').
  rewrite (@attains_max_map _ _ HD' _ proj1_sig Hf v').
  apply (@sort_indices_max _ HD').
  split_and!.
  - intros [a Ha]. simpl. by apply Hirr.
  - intros [a Ha] [b Hb] [c Hc]. simpl. by apply Htr.
  - intros [a Ha] [b Hb] [c Hc]. simpl. by apply Htie.
Qed.

(** When no score is below another, every index is returned, in order. *)
Lemma sort_indices_from_ties j (maxval : D) up v :
  Forall (λ a, (maxval <? a)%D = false ∧ (a <? maxval)%D = false) v →
  sort_indices_from j maxval up v = up ++ seq j (length v).
Proof.
  revert j up. induction v as [|vj v IH]; intros j up Hv; simpl.
  { by rewrite app_nil_r. }
  apply Forall_cons in Hv as [[H1 H2] Hv]. rewrite H1, H2.
  rewrite IH by done. by rewrite <- app_assoc.
Qed.

Lemma sort_indices_ties (z0 : D) v :
  (z0 <? z0)%D = false → Forall (λ a, a = z0) v →
  sort_indices v = seq 0 (length v).
Proof.
  intros Hz Hv. destruct v as [|v0 v]; [done|]. simpl.
  apply Forall_cons in Hv as [-> Hv].
  rewrite sort_indices_from_ties; [done|].
  eapply Forall_impl; [done|]. by intros a ->.
Qed.

End OrderedOn.

(** * The tree policy on a well-formed tree *)

Section TreePolicyFacts.

Context {D : Type} `{Double D} {FZ : Type}.
Variable rt : runtime D.
Variable pl : b03_uct_pilot D FZ.

Implicit Types (t n c : b03_node D) (p q : node_ref) (m : machine D FZ).

Lemma get_best_uct_child_total j t l n p m :
  well_formed j t → lookup_node t p = Some n → is_fully_expanded n = true →
  ∃ i c m', get_best_uct_child rt pl (mk_frame t l) n m = Some (i, m')
            ∧ children n !! i = Some c.
Proof.
  intros Hwf Hp Hfull.
  assert (Hlen : length (children n) = 3%nat).
  { pose proof (ok_arity _ _ _ (Hwf _ _ Hp)) as Ha.
    unfold is_fully_expanded in Hfull.
    destruct (expendable_actions n); [simpl in Ha; lia | done]. }
  assert (Hscore : Forall (is_Some ∘ get_uct_score pl (mk_frame t l)) (children n)).
  { apply Forall_lookup_2. intros k c Hc. simpl.
    pose proof (Hwf _ _ (lookup_node_snoc _ _ _ _ _ Hp Hc)) as Hok.
    assert (Hne : p ++ [k] ≠ []) by (by destruct p).
    destruct (ok_visits _ _ _ Hok Hne) as [Hv _].
    erewrite get_uct_score_Some; [done | lia | by eapply ok_parent | done]. }
  apply mapM_is_Some in Hscore. destruct Hscore as [scores Hscores].
  pose proof (length_mapM _ _ _ Hscores) as Hls.
  destruct (sort_indices_spec scores) as [Hne Hlt].
  { intros ->. simpl in Hls. lia. }
  destruct (rand_element_Some rt (sort_indices scores) m Hne)
    as (i & m' & Hi & Hin & _).
  assert (Hi3 : (i < length (children n))%nat).
  { rewrite Hls. eapply (Forall_lookup_1 _ _ _ _ Hlt Hin). }
  destruct (lookup_lt_is_Some_2 _ _ Hi3) as [c Hc].
  exists i, c, m'. split; [|done].
  unfold get_best_uct_child. apply bind_Some. exists scores, m. split.
  { apply lift_Some. by rewrite Hscores. }
  apply bind_Some. exists i, m'. split; [done|].
  apply bind_Some. exists c, m'. split; [by apply lift_Some | done].
Qed.

(** The tree policy case by case. *)
Lemma tree_policy_terminal fuel (fr : @frame D) p v0 m :
  lookup_node (root fr) p = Some v0 → is_terminal (get_state v0) = true →
  tree_policy rt pl (S fuel) fr p m = Some (mk_frame (root fr) v0, m).
Proof. intros Hp Ht. simpl. unfold bind, lift. by rewrite Hp, Ht. Qed.

Lemma tree_policy_descend fuel (fr : @frame D) p v0 m :
  lookup_node (root fr) p = Some v0 → is_terminal (get_state v0) = false →
  is_fully_expanded v0 = true →
  tree_policy rt pl (S fuel) fr p m
  = bind (get_best_uct_child rt pl fr v0)
         (λ i, tree_policy rt pl fuel fr (p ++ [i])) m.
Proof. intros Hp Ht Hf. simpl. unfold bind at 1, lift. by rewrite Hp, Ht, Hf. Qed.

Lemma create_new_child_eq (fr : @frame D) p v m :
  lookup_node (root fr) p = Some v → expendable_actions v ≠ [] →
  let indice := (rand_seq rt (rand_calls m) `mod` length (expendable_actions v))%nat in
  ∃ a s' m', expendable_actions v !! indice = Some a ∧
    get_transition_model pl (get_state v) a (after_rand m) = Some (s', m') ∧
    create_new_child rt pl fr p m
    = Some (mk_frame (update_node (root fr) p
                        (λ _, expand_node v indice (new_child_of pl p v a s')))
                     (local fr), m').
Proof.
  intros Hp Hne indice.
  assert (Hlt : (indice < length (expendable_actions v))%nat).
  { apply Nat.mod_upper_bound. by destruct (expendable_actions v). }
  destruct (lookup_lt_is_Some_2 _ _ Hlt) as [a Ha].
  destruct (get_transition_model_total pl (get_state v) a (after_rand m))
    as (s' & m' & Hs & _).
  exists a, s', m'. split; [done|]. split; [done|].
  unfold create_new_child, bind, lift. rewrite Hp.
  unfold rand_indice. destruct (expendable_actions v) as [|a0 e] eqn:E; [done|].
  unfold bind, rand, ret. fold indice. rewrite Ha, Hs. done.
Qed.

Lemma tree_policy_expand fuel (fr : @frame D) p v0 m :
  lookup_node (root fr) p = Some v0 → is_terminal (get_state v0) = false →
  is_fully_expanded v0 = false →
  let indice := (rand_seq rt (rand_calls m) `mod` length (expendable_actions v0))%nat in
  ∃ a s' m', expendable_actions v0 !! indice = Some a ∧
    get_transition_model pl (get_state v0) a (after_rand m) = Some (s', m') ∧
    let c := new_child_of pl p v0 a s' in
    tree_policy rt pl (S fuel) fr p m
    = Some (mk_frame (update_node (root fr) p (λ _, expand_node v0 indice c)) c, m').
Proof.
  intros Hp Ht Hf indice.
  destruct (create_new_child_eq fr p v0 m Hp) as (a & s' & m' & Ha & Hs & Hc).
  { unfold is_fully_expanded in Hf. by destruct (expendable_actions v0). }
  exists a, s', m'. split; [done|]. split; [done|].
  simpl. unfold bind at 1, lift. rewrite Hp, Ht, Hf.
  unfold bind at 1. rewrite Hc. unfold bind, lift, ret. simpl.
  rewrite (lookup_update_node_same _ _ _ v0) by done.
  unfold get_last_child. simpl. by rewrite last_snoc.
Qed.

(** The two ways the tree policy ends, from the node that [p] designates
    in a well-formed tree: on a terminal node below [p], which it copies, or
    on a node below [p] with an expendable action, which gets a child.  The
    nodes it went through on the way are fully expanded. *)
Lemma tree_policy_total j t l fuel p n m :
  well_formed j t → lookup_node t p = Some n →
  (N.to_nat j < fuel + length p)%nat →
  ∃ q nq m', p `prefix_of` q ∧ lookup_node t q = Some nq ∧
    (∀ x nx, p `prefix_of` x → x `prefix_of` q → x ≠ q →
             lookup_node t x = Some nx → expendable_actions nx = []) ∧
    ((is_terminal (get_state nq) = true ∧
      tree_policy rt pl fuel (mk_frame t l) p m = Some (mk_frame t nq, m'))
     ∨
     (is_terminal (get_state nq) = false ∧
      ∃ indice a s', expendable_actions nq !! indice = Some a ∧
        let c := new_child_of pl q nq a s' in
        tree_policy rt pl fuel (mk_frame t l) p m
        = Some (mk_frame (update_node t q (λ _, expand_node nq indice c)) c, m'))).
Proof.
  intros Hwf. revert p n m. induction fuel as [|fuel IH]; intros p n m Hp Hfuel.
  { pose proof (ok_level _ _ _ (Hwf _ _ Hp)). lia. }
  assert (Hnone : ∀ x nx, p `prefix_of` x → x `prefix_of` p → x ≠ p →
            lookup_node t x = Some nx → expendable_actions nx = []).
  { intros x nx H1 H2 Hne. destruct Hne. by apply (anti_symm prefix). }
  destruct (is_terminal (get_state n)) eqn:Hterm.
  { exists p, n, m. split; [reflexivity|]. split; [done|]. split; [done|].
    left. split; [done|]. by rewrite (tree_policy_terminal _ _ _ n). }
  destruct (is_fully_expanded n) eqn:Hfull.
  - destruct (get_best_uct_child_total j t l n p m Hwf Hp Hfull)
      as (i & c & m1 & Hbest & Hc).
    destruct (IH (p ++ [i]) c m1) as (q & nq & m' & Hpre & Hq & Hway & Hcases).
    { by eapply lookup_node_snoc. }
    { rewrite length_app. simpl. lia. }
    exists q, nq, m'. split; [|split; [done|split]].
    { etrans; [|done]. by apply prefix_app_r. }
    { intros x nx [y ->] Hxq Hne Hx. destruct y as [|k y].
      - rewrite app_nil_r in Hx. rewrite Hp in Hx. injection Hx as <-.
        pose proof Hfull as Hfull'. unfold is_fully_expanded in Hfull'.
        destruct (expendable_actions n) eqn:E.
        { reflexivity. }
        { discriminate Hfull'. }
      - assert (Hpi : p ++ [i] `prefix_of` p ++ k :: y).
        { destruct Hpre as [z ->]. destruct Hxq as [w Hw].
          rewrite <- !app_assoc in Hw. apply app_inv_head in Hw.
          simpl in Hw. injection Hw as -> _. exists y.
          by rewrite <- app_assoc. }
        exact (Hway (p ++ k :: y) nx Hpi Hxq Hne Hx). }
    rewrite (tree_policy_descend _ _ _ n) by done.
    unfold bind. by rewrite Hbest.
  - destruct (tree_policy_expand fuel (mk_frame t l) p n m Hp Hterm Hfull)
      as (a & s' & m' & Ha & Hs & Htp).
    exists p, n, m'. split; [reflexivity|]. split; [done|]. split; [done|].
    right. split; [done|]. by eexists _, a, s'.
Qed.

End TreePolicyFacts.

(** * The backup along the parent pointers *)

Section BackupFacts.

Context {D : Type} `{Double D} {FZ : Type}.
Variable pl : b03_uct_pilot D FZ.

Implicit Types (t n c : b03_node D) (p q : node_ref) (m : machine D FZ).

Lemma node_info_backup_node n n' r :
  node_info n = node_info n' →
  node_info (backup_node pl n r) = node_info (backup_node pl n' r).
Proof.
  intros Hi. destruct (node_info_fields _ _ Hi) as (? & ? & ? & ? & ? & ? & ? & ?).
  unfold node_info, backup_node, set_children. simpl. congruence.
Qed.

Lemma lookup_backup_node_below n r i p :
  lookup_node (backup_node pl n r) (i :: p) = lookup_node n (i :: p).
Proof. done. Qed.

(** One step of the backup: the assignments reach the designated node and
    no other. *)
Lemma lookup_update_backup_node t q n r p :
  lookup_node t q = Some n →
  node_info <$> lookup_node (update_node t q (λ _, backup_node pl n r)) p
  = node_info <$>
      ((λ n', if decide (p = q) then backup_node pl n' r else n') <$> lookup_node t p).
Proof.
  intros Hq. destruct (decide (q `prefix_of` p)) as [[y ->]|Hn].
  - rewrite (lookup_update_node_ext _ _ _ _ n) by done.
    rewrite lookup_node_app, Hq. simpl. destruct y as [|k y].
    + simpl. destruct (decide _) as [|Hx]; [done|].
      destruct Hx. by rewrite app_nil_r.
    + rewrite lookup_backup_node_below.
      destruct (decide _) as [Heq|]; [|by destruct (lookup_node n (k :: y))].
      apply (f_equal length) in Heq. rewrite length_app in Heq.
      simpl in Heq. lia.
  - rewrite lookup_update_node_other by done.
    destruct (lookup_node t p) as [n'|]; simpl; [|done].
    destruct (decide _) as [->|]; [|done]. by destruct Hn.
Qed.

Lemma linked_info t t' (g : node_ref → b03_node D → b03_node D) :
  (∀ p n, depth (g p n) = depth n ∧ parent (g p n) = parent n) →
  (∀ p, node_info <$> lookup_node t' p = node_info <$> (g p <$> lookup_node t p)) →
  linked t → linked t'.
Proof.
  intros Hg Hrel Hl p n' Hp. specialize (Hrel p). rewrite Hp in Hrel.
  destruct (lookup_node t p) as [n|] eqn:E; simpl in Hrel; [|done].
  assert (Hi : node_info n' = node_info (g p n)) by congruence.
  destruct (node_info_fields _ _ Hi) as (_ & _ & _ & _ & _ & Hd & Hpa & _).
  destruct (Hg p n) as [Hd' Hpa']. destruct (Hl _ _ E) as [H1 H2].
  rewrite Hd, Hpa, Hd', Hpa'. done.
Qed.

Lemma backed_up_linked r q t t' : backed_up pl r q t t' → linked t → linked t'.
Proof.
  intros Hb. eapply (linked_info t t'
    (λ p n, if decide (p `prefix_of` q) then backup_node pl n r else n)); [|done].
  intros p n. simpl. by destruct (decide _).
Qed.

Lemma backed_up_lookup r q t t' p n' :
  backed_up pl r q t t' → lookup_node t' p = Some n' →
  ∃ n, lookup_node t p = Some n ∧
       node_info n' = node_info (if decide (p `prefix_of` q) then backup_node pl n r else n).
Proof.
  intros Hb Hp. specialize (Hb p). rewrite Hp in Hb.
  destruct (lookup_node t p) as [n|]; simpl in Hb; [|done].
  exists n. split; [done|]. congruence.
Qed.

(** The backup from a node of the tree: it ends, and has gone through the
    nodes from that node up to the root, each once. *)
Lemma backup_in_tree fuel t l q n r :
  linked t → lookup_node t q = Some n → (length q < fuel)%nat →
  ∃ t', backup pl fuel (mk_frame t l) (InTree q) r = Some (mk_frame t' l)
        ∧ backed_up pl r q t t'.
Proof.
  revert t q n. induction fuel as [|fuel IH]; intros t q n Hl Hq Hfuel; [lia|].
  simpl. rewrite Hq. simpl.
  destruct (Hl _ _ Hq) as [Hd Hpa].
  destruct q as [|i q0 _] using rev_ind.
  - rewrite Hd. simpl. eexists. split; [done|].
    simpl in Hq. injection Hq as ->. intros p. simpl. destruct p as [|k p].
    + done.
    + rewrite lookup_backup_node_below.
      destruct (decide _) as [Hx|]; [|by destruct (lookup_node n (k :: p))].
      by apply prefix_nil_not in Hx.
  - rewrite Hd, length_app. simpl.
    destruct (N.ltb_spec 0 (N.of_nat (length q0 + 1))) as [_|]; [|lia].
    rewrite (Hpa q0 i) by done. simpl.
    set (t1 := update_node t (q0 ++ [i]) (λ _, backup_node pl n r)).
    assert (Hrel1 : ∀ p, node_info <$> lookup_node t1 p
       = node_info <$> ((λ n', if decide (p = q0 ++ [i]) then backup_node pl n' r else n')
                          <$> lookup_node t p)).
    { intros p. by apply lookup_update_backup_node. }
    assert (Hl1 : linked t1).
    { eapply (linked_info t t1); [|exact Hrel1|done].
      intros p n'. simpl. by destruct (decide _). }
    destruct (lookup_node_snoc_inv _ _ _ _ Hq) as (n0 & Hq0 & _).
    assert (Hq1 : ∃ n1, lookup_node t1 q0 = Some n1).
    { specialize (Hrel1 q0). rewrite Hq0 in Hrel1.
      destruct (lookup_node t1 q0); [eauto|done]. }
    destruct Hq1 as [n1 Hq1].
    destruct (IH t1 q0 n1 Hl1 Hq1) as (t' & Hb & Hrel2).
    { rewrite length_app in Hfuel. simpl in Hfuel. lia. }
    exists t'. split; [done|]. intros p.
    rewrite (Hrel2 p). specialize (Hrel1 p).
    destruct (lookup_node t p) as [np|] eqn:Ep; simpl in *.
    2:{ by destruct (lookup_node t1 p). }
    destruct (lookup_node t1 p) as [np1|] eqn:Ep1; simpl in *; [|done].
    assert (Hi1 : node_info np1
      = node_info (if decide (p = q0 ++ [i]) then backup_node pl np r else np))
      by congruence.
    clear Hrel1. f_equal.
    destruct (decide (p = q0 ++ [i])) as [->|Hne].
    + destruct (decide (q0 ++ [i] `prefix_of` q0)) as [Hx|].
      { by apply prefix_snoc_not in Hx. }
      by destruct (decide _) as [|[]].
    + destruct (decide (p `prefix_of` q0)) as [Hpre|Hnpre].
      * destruct (decide (p `prefix_of` q0 ++ [i])) as [|Hx].
        { by apply node_info_backup_node. }
        destruct Hx. by apply prefix_app_r.
      * destruct (decide (p `prefix_of` q0 ++ [i])) as [[y Hy]|]; [|done].
        destruct y as [|k y _] using rev_ind.
        { rewrite app_nil_r in Hy. done. }
        rewrite app_assoc in Hy. apply app_inj_tail in Hy as [-> _].
        destruct Hnpre. by eexists.
Qed.

(** The backup from the local node of the frame. *)
Lemma backup_local_root fuel t l r :
  depth l = 0 →
  backup pl (S fuel) (mk_frame t l) Local r = Some (mk_frame t (backup_node pl l r)).
Proof. intros Hd. simpl. by rewrite Hd. Qed.

Lemma backup_local_below fuel t l q n r :
  0 < depth l → parent l = Some q →
  linked t → lookup_node t q = Some n → (length q < fuel)%nat →
  ∃ t', backup pl (S fuel) (mk_frame t l) Local r
        = Some (mk_frame t' (backup_node pl l r))
        ∧ backed_up pl r q t t'.
Proof.
  intros Hd Hpa Hl Hq Hfuel. simpl.
  destruct (N.ltb_spec 0 (depth l)) as [_|]; [|lia]. rewrite Hpa. simpl.
  by apply (backup_in_tree fuel t (backup_node pl l r) q n r).
Qed.

(** Handed the local node, the backup leaves the children of the node that
    the local node points to as they are: the node of the tree that the
    local node is a copy of is one of them. *)
Lemma backup_local_skips_children fuel t l q n r k :
  0 < depth l → parent l = Some q →
  linked t → lookup_node t q = Some n → (length q < fuel)%nat →
  ∃ t', backup pl (S fuel) (mk_frame t l) Local r
        = Some (mk_frame t' (backup_node pl l r))
        ∧ node_info <$> lookup_node t' (q ++ [k])
          = node_info <$> lookup_node t (q ++ [k]).
Proof.
  intros Hd Hpa Hl Hq Hfuel.
  destruct (backup_local_below fuel t l q n r Hd Hpa Hl Hq Hfuel) as (t' & Hb & Hrel).
  exists t'. split; [done|]. rewrite (Hrel (q ++ [k])).
  destruct (decide (q ++ [k] `prefix_of` q)) as [Hx|_].
  { by apply prefix_snoc_not in Hx. }
  by destruct (lookup_node t (q ++ [k])).
Qed.

End BackupFacts.

(** * The iterations keep the tree well formed *)

Lemma wrap_small n : n < uint_max → wrap n = n.
Proof. intros Hn. unfold wrap. by apply N.mod_small. Qed.

Section Preservation.

Context {D : Type} `{Double D} {FZ : Type}.
Variable pl : b03_uct_pilot D FZ.

Implicit Types (t n c : b03_node D) (p q : node_ref) (m : machine D FZ).

Lemma well_formed_linked j t : well_formed j t → linked t.
Proof.
  intros Hwf p n Hp. destruct (Hwf _ _ Hp) as [H1 H2 _ _ _]. by split.
Qed.

Lemma well_formed_mono j j' t : j ≤ j' → well_formed j t → well_formed j' t.
Proof. intros Hj Hwf p n Hp. eapply node_ok_mono; [done|]. by apply Hwf. Qed.

(** A backup keeps the tree well formed as long as the nodes it goes
    through were visited less than [j] times. *)
Lemma well_formed_backed_up j t t' r q :
  well_formed j t →
  (∀ p n, p `prefix_of` q → p ≠ [] → lookup_node t p = Some n →
          number_of_visits n + 1 ≤ j) →
  j < uint_max → backed_up pl r q t t' → well_formed j t'.
Proof.
  intros Hwf Hvis Hj Hb p n' Hp.
  destruct (backed_up_lookup pl _ _ _ _ _ _ Hb Hp) as (n & Hn & Hi).
  pose proof (Hwf _ _ Hn) as Hok.
  destruct (decide (p `prefix_of` q)) as [Hpre|_].
  - eapply node_ok_info; [symmetry; exact Hi|].
    destruct Hok as [H1 H2 H3 H4 H5]. split; simpl; auto.
    intros Hne. specialize (H3 Hne). specialize (Hvis p n Hpre Hne Hn).
    rewrite wrap_small by lia. lia.
  - eapply node_ok_info; [symmetry; exact Hi|done].
Qed.

(** An expansion keeps the tree well formed, one iteration later. *)
Lemma well_formed_expand j t q nq indice a s' :
  well_formed j t → lookup_node t q = Some nq →
  expendable_actions nq !! indice = Some a → j + 1 < uint_max →
  well_formed (j + 1)
    (update_node t q (λ _, expand_node nq indice (new_child_of pl q nq a s'))).
Proof.
  intros Hwf Hq Ha Hj p n' Hp.
  pose proof (Hwf _ _ Hq) as [Hd Hpa Hv Hlev Har].
  destruct (decide (q `prefix_of` p)) as [[y ->]|Hn].
  - rewrite (lookup_update_node_ext _ _ _ _ nq) in Hp by done.
    destruct y as [|k y].
    + simpl in Hp. injection Hp as <-. rewrite app_nil_r.
      apply (node_ok_mono j); [lia|]. split; simpl; auto.
      rewrite length_app, length_delete by eauto. simpl.
      apply lookup_lt_Some in Ha. lia.
    + simpl in Hp. destruct (decide (k < length (children nq))%nat) as [Hk|Hk].
      * rewrite lookup_app_l in Hp by done.
        apply (node_ok_mono j); [lia|]. apply Hwf.
        rewrite lookup_node_app, Hq. done.
      * rewrite lookup_app_r in Hp by lia.
        destruct (k - length (children nq))%nat as [|k'] eqn:Ek; simpl in Hp; [|done].
        destruct y as [|k2 y]; simpl in Hp; [|done]. injection Hp as <-.
        split; simpl.
        -- rewrite Hd, length_app. simpl. rewrite wrap_small by lia. lia.
        -- intros p' i Heq. apply app_inj_tail in Heq as [-> _]. done.
        -- intros _. lia.
        -- rewrite length_app. simpl. lia.
        -- done.
  - pose proof (lookup_update_node_other t q
      (λ _, expand_node nq indice (new_child_of pl q nq a s')) p Hn) as Ho.
    rewrite Hp in Ho. symmetry in Ho.
    apply fmap_info_Some in Ho as (n & Hn' & Hi).
    apply (node_ok_mono j); [lia|]. eapply node_ok_info; [exact Hi|]. by apply Hwf.
Qed.

(** The same for the absence of grandchildren below the nodes that can
    still be expanded. *)
Lemma leaves_backed_up r q t t' :
  backed_up pl r q t t' → leaves_below_expandable t → leaves_below_expandable t'.
Proof.
  intros Hb Hlv p n' i c' Hp Hexp Hc.
  pose proof (lookup_node_snoc _ _ _ _ _ Hp Hc) as Hpi.
  destruct (backed_up_lookup pl _ _ _ _ _ _ Hb Hp) as (n & Hn & Hi).
  destruct (backed_up_lookup pl _ _ _ _ _ _ Hb Hpi) as (c & Hcn & Hic).
  assert (He : expendable_actions n' = expendable_actions n).
  { destruct (node_info_fields _ _ Hi) as (_ & _ & He & _). rewrite He.
    by destruct (decide (p `prefix_of` q)). }
  assert (Hl : length (children c') = length (children c)).
  { destruct (node_info_fields _ _ Hic) as (_ & _ & _ & _ & _ & _ & _ & Hl).
    rewrite Hl. by destruct (decide (p ++ [i] `prefix_of` q)). }
  destruct (lookup_node_snoc_inv _ _ _ _ Hcn) as (n2 & Hn2 & Hc2).
  rewrite Hn in Hn2. injection Hn2 as <-.
  rewrite (Hlv p n i c Hn) in Hl; [by destruct (children c') | congruence | done].
Qed.

Lemma leaves_expand t q nq indice a s' :
  leaves_below_expandable t → lookup_node t q = Some nq →
  expendable_actions nq !! indice = Some a →
  (∀ x nx, x `prefix_of` q → x ≠ q → lookup_node t x = Some nx →
           expendable_actions nx = []) →
  leaves_below_expandable
    (update_node t q (λ _, expand_node nq indice (new_child_of pl q nq a s'))).
Proof.
  intros Hlv Hq Ha Hway p n' i c' Hp Hexp Hc.
  set (f := λ _ : b03_node D, expand_node nq indice (new_child_of pl q nq a s')) in *.
  assert (Hnq : expendable_actions nq ≠ []).
  { intros E. by rewrite E in Ha. }
  destruct (decide (q `prefix_of` p)) as [[y ->]|Hn].
  - rewrite (lookup_update_node_ext _ _ _ _ nq) in Hp by done.
    assert (Hold : ∀ k y' n0, (k < length (children nq))%nat →
              lookup_node (f nq) (k :: y') = Some n0 →
              lookup_node t (q ++ k :: y') = Some n0).
    { intros k y' n0 Hk Hl. simpl in Hl. rewrite lookup_app_l in Hl by done.
      rewrite lookup_node_app, Hq. done. }
    destruct y as [|k y].
    + simpl in Hp. injection Hp as <-. simpl in Hc.
      destruct (decide (i < length (children nq))%nat) as [Hi|Hi].
      * rewrite lookup_app_l in Hc by done. by apply (Hlv q nq i c').
      * rewrite lookup_app_r in Hc by lia.
        destruct (i - length (children nq))%nat; simpl in Hc; [|done].
        by injection Hc as <-.
    + destruct (decide (k < length (children nq))%nat) as [Hk|Hk].
      * apply (Hlv (q ++ k :: y) n' i c'); [by apply Hold | done | done].
      * simpl in Hp. rewrite lookup_app_r in Hp by lia.
        destruct (k - length (children nq))%nat; simpl in Hp; [|done].
        destruct y; simpl in Hp; [|done]. injection Hp as <-. done.
  - pose proof (lookup_update_node_other t q f p Hn) as Ho.
    rewrite Hp in Ho. symmetry in Ho.
    apply fmap_info_Some in Ho as (n & Hn' & Hi).
    destruct (node_info_fields _ _ Hi) as (_ & _ & He & _).
    pose proof (lookup_node_snoc _ _ _ _ _ Hp Hc) as Hpi.
    destruct (decide (q `prefix_of` p ++ [i])) as [[y Hy]|Hni].
    + exfalso. destruct y as [|k y _] using rev_ind.
      * rewrite app_nil_r in Hy. apply Hexp. rewrite <- He.
        apply (Hway p n); [by exists [i] | | done].
        intros ->. apply Hn. reflexivity.
      * rewrite app_assoc in Hy. apply app_inj_tail in Hy as [-> _].
        apply Hn. by exists y.
    + pose proof (lookup_update_node_other t q f (p ++ [i]) Hni) as Hoc.
      rewrite Hpi in Hoc. symmetry in Hoc.
      apply fmap_info_Some in Hoc as (c & Hcn & Hic).
      destruct (node_info_fields _ _ Hic) as (_ & _ & _ & _ & _ & _ & _ & Hl).
      destruct (lookup_node_snoc_inv _ _ _ _ Hcn) as (n2 & Hn2 & Hc2).
      rewrite Hn' in Hn2. injection Hn2 as <-.
      rewrite (Hlv p n i c Hn') in Hl; [by destruct (children c') | congruence | done].
Qed.

End Preservation.

(** * One iteration of the loop *)

Section SimulationFacts.

Context {D : Type} `{Double D} {FZ : Type}.
Variable rt : runtime D.
Variable pl : b03_uct_pilot D FZ.

Implicit Types (t n c : b03_node D) (p q : node_ref) (m : machine D FZ).

Lemma simulation_Some fuel i t m fr m1 r' m2 fr' :
  tree_policy rt pl fuel (mk_frame t (blank_node rt pl)) [] m
    = Some (fr, m1) →
  default_policy rt pl (get_state (local fr)) (uninitialised rt i) m1 = Some (r', m2) →
  backup pl fuel fr Local r' = Some fr' →
  simulation rt pl fuel i t m
  = Some (root fr', m2).
Proof.
  intros Ht Hd Hb. unfold simulation, bind, lift, ret. by rewrite Ht, Hd, Hb.
Qed.

Lemma default_policy_total s r m :
  ∃ r' m', default_policy rt pl s r m = Some (r', m').
Proof. apply default_policy_loop_total. Qed.

Lemma root_children_of_path t i q n :
  lookup_node t (i :: q) = Some n → children t ≠ [].
Proof. simpl. by destruct (children t). Qed.

(** One iteration from a well-formed tree whose root is not terminal: it
    ends, the tree stays well formed, and the root was visited once more. *)
Lemma simulation_total j t fuel i m :
  well_formed j t → leaves_below_expandable t →
  j + 1 < uint_max → (N.to_nat j + 1 < fuel)%nat →
  is_terminal (get_state t) = false →
  ∃ t' m',
    simulation rt pl fuel i t m = Some (t', m')
    ∧ well_formed (j + 1) t' ∧ leaves_below_expandable t'
    ∧ get_state t' = get_state t
    ∧ number_of_visits t' = wrap (number_of_visits t + 1)
    ∧ children t' ≠ [].
Proof.
  intros Hwf Hlv Hj Hfuel Hroot.
  destruct fuel as [|fuel]; [lia|].
  destruct (tree_policy_total rt pl j t
              (blank_node rt pl) (S fuel) [] t m Hwf)
    as (q & nq & m1 & _ & Hq & Hway
        & [[Hterm Htp]|[Hterm (indice & a & s' & Ha & Htp)]]);
    [done | simpl; lia | |].
  - (* the descent ends on a terminal node, which is copied *)
    destruct (default_policy_total (get_state nq) (uninitialised rt i) m1)
      as (r' & m2 & Hdp).
    pose proof (Hwf _ _ Hq) as [Hd Hpa Hv Hlev Har].
    destruct q as [|k q0 _] using rev_ind.
    { simpl in Hq. injection Hq as ->. congruence. }
    destruct (lookup_node_snoc_inv _ _ _ _ Hq) as (n0 & Hq0 & _).
    rewrite length_app in Hd, Hlev. simpl in Hd, Hlev.
    destruct (backup_local_below pl fuel t nq q0 n0 r') as (t' & Hb & Hrel);
      [lia | by eapply Hpa | by eapply well_formed_linked | done | lia |].
    exists t', m2. split.
    { exact (simulation_Some _ _ _ _ _ _ _ _ _ Htp Hdp Hb). }
    assert (Hwf' : well_formed (j + 1) t').
    { eapply (well_formed_backed_up pl (j + 1) t t'); [| |done|done].
      - eapply well_formed_mono; [|done]. lia.
      - intros p n Hpre Hne Hp. destruct (ok_visits _ _ _ (Hwf _ _ Hp) Hne). lia. }
    split; [done|]. split; [by eapply leaves_backed_up|].
    destruct (backed_up_lookup pl r' q0 t t' [] t' Hrel eq_refl) as (t0 & Ht0 & Hi).
    simpl in Ht0. injection Ht0 as <-.
    destruct (decide ([] `prefix_of` q0)) as [_|Hx]; [|destruct Hx; apply prefix_nil].
    destruct (node_info_fields _ _ Hi) as (Hs & _ & _ & _ & Hvis & _ & _ & Hlen).
    split; [done|]. split; [done|].
    simpl in Hlen. intros Hnil. rewrite Hnil in Hlen. simpl in Hlen.
    destruct (q0 ++ [k]) as [|k' q'] eqn:Eq; [by destruct q0|].
    apply root_children_of_path in Hq. by destruct (children t).
  - (* the descent ends on an expansion *)
    cbv zeta in Htp.
    set (c := new_child_of pl q nq a s') in *.
    set (t1 := update_node t q (λ _, expand_node nq indice c)) in *.
    destruct (default_policy_total (get_state c) (uninitialised rt i) m1)
      as (r' & m2 & Hdp).
    pose proof (Hwf _ _ Hq) as [Hd Hpa Hv Hlev Har].
    assert (Hwf1 : well_formed (j + 1) t1) by (by apply well_formed_expand).
    assert (Hq1 : lookup_node t1 q = Some (expand_node nq indice c)).
    { exact (lookup_update_node_same t q (λ _, expand_node nq indice c) nq Hq). }
    destruct (backup_local_below pl fuel t1 c q (expand_node nq indice c) r')
      as (t' & Hb & Hrel).
    { simpl. rewrite Hd. rewrite wrap_small by lia. lia. }
    { done. }
    { by eapply well_formed_linked. }
    { done. }
    { lia. }
    exists t', m2. split.
    { exact (simulation_Some _ _ _ _ _ _ _ _ _ Htp Hdp Hb). }
    assert (Hwf' : well_formed (j + 1) t').
    { eapply (well_formed_backed_up pl (j + 1) t1 t'); [done| |done|done].
      intros p n Hpre Hne Hp.
      destruct (decide (p = q)) as [->|Hpq].
      - rewrite Hq1 in Hp. injection Hp as <-. simpl.
        destruct (Hv Hne). lia.
      - assert (Hnp : ¬ q `prefix_of` p).
        { intros Hqp. apply Hpq. apply (anti_symm prefix); done. }
        pose proof (lookup_update_node_other t q
          (λ _, expand_node nq indice c) p Hnp) as Ho.
        fold t1 in Ho. rewrite Hp in Ho. symmetry in Ho.
        apply fmap_info_Some in Ho as (n' & Hn' & Hi).
        destruct (node_info_fields _ _ Hi) as (_ & _ & _ & _ & Hvis & _).
        destruct (ok_visits _ _ _ (Hwf _ _ Hn') Hne). lia. }
    split; [done|]. split.
    { eapply leaves_backed_up; [done|]. apply leaves_expand; [done..|].
      intros x nx Hx Hne Hlx. apply (Hway x nx); [apply prefix_nil | done..]. }
    destruct (backed_up_lookup pl r' q t1 t' [] t' Hrel eq_refl) as (t0 & Ht0 & Hi).
    simpl in Ht0. injection Ht0 as <-.
    destruct (decide ([] `prefix_of` q)) as [_|Hx]; [|destruct Hx; apply prefix_nil].
    destruct (node_info_fields _ _ Hi) as (Hs & _ & _ & _ & Hvis & _ & _ & Hlen).
    simpl in Hs, Hvis, Hlen.
    assert (Hroot1 : get_state t1 = get_state t
                     ∧ number_of_visits t1 = number_of_visits t
                     ∧ children t1 ≠ []).
    { destruct q as [|k q'].
      - simpl in Hq. injection Hq as <-. subst t1. simpl.
        split; [done|]. split; [done|]. by destruct (children t).
      - pose proof (lookup_update_node_other t (k :: q')
          (λ _, expand_node nq indice c) [] (prefix_nil_not _ _)) as Ho.
        fold t1 in Ho. simpl in Ho.
        assert (Hi1 : node_info t1 = node_info t) by congruence.
        destruct (node_info_fields _ _ Hi1) as (? & _ & _ & _ & ? & _ & _ & Hl1).
        split; [done|]. split; [done|].
        apply root_children_of_path in Hq.
        intros Hnil. rewrite Hnil in Hl1. by destruct (children t). }
    destruct Hroot1 as (Hs1 & Hv1 & Hc1).
    split; [congruence|]. split; [congruence|].
    intros Hnil. rewrite Hnil in Hlen. by destruct (children t1).
Qed.

End SimulationFacts.

(** * The loop and the choice of the action *)

Section LoopFacts.

Context {D : Type} `{Double D} {FZ : Type}.
Variable rt : runtime D.
Variable pl : b03_uct_pilot D FZ.

Implicit Types (t n c : b03_node D) (p q : node_ref) (m : machine D FZ).


Lemma well_formed_root_node s0 : well_formed 0 (root_node rt pl s0).
Proof.
  intros p n Hp. destruct p as [|i p]; [|done].
  simpl in Hp. injection Hp as <-. split; simpl; try done.
  intros p' i Heq. by destruct p'.
Qed.

Lemma leaves_root_node s0 : leaves_below_expandable (root_node rt pl s0).
Proof.
  intros p n i c Hp _ Hc. destruct p as [|k p]; [|done].
  simpl in Hp. by injection Hp as <-.
Qed.

Lemma simulations_S fuel k i t m :
  simulations rt pl fuel (S k) i t m
  = bind (simulation rt pl fuel i t)
         (λ v0', simulations rt pl fuel k (i + 1) v0') m.
Proof. done. Qed.

Lemma wrap_lt (k : N) : wrap k < uint_max.
Proof. unfold wrap. by apply N.mod_lt. Qed.

(** The loop of [operator()] from a well-formed tree whose root is not
    terminal: every iteration ends and visits the root once. *)
Lemma simulations_total fuel k j t i m :
  well_formed j t → leaves_below_expandable t →
  j + N.of_nat k < uint_max → (N.to_nat j + k < fuel)%nat →
  is_terminal (get_state t) = false → number_of_visits t < uint_max →
  ∃ t' m',
    simulations rt pl fuel k i t m = Some (t', m')
    ∧ well_formed (j + N.of_nat k) t' ∧ leaves_below_expandable t'
    ∧ get_state t' = get_state t
    ∧ number_of_visits t' = wrap (number_of_visits t + N.of_nat k)
    ∧ (k ≠ 0%nat → children t' ≠ []).
Proof.
  revert j t i m. induction k as [|k IH]; intros j t i m Hwf Hlv Hj Hfuel Hroot Hv.
  - exists t, m. split; [done|]. split.
    { eapply well_formed_mono; [|done]. lia. }
    split; [done|]. split; [done|]. split; [|done].
    rewrite N.add_0_r. symmetry. by apply wrap_small.
  - destruct (simulation_total rt pl j t fuel i m Hwf Hlv)
      as (t1 & m1 & Hsim & Hwf1 & Hlv1 & Hs1 & Hv1 & Hc1); [lia | lia | done |].
    destruct (IH (j + 1) t1 (i + 1) m1 Hwf1 Hlv1)
      as (t' & m' & Hsims & Hwf' & Hlv' & Hs' & Hv' & Hc');
      [lia | lia | congruence | rewrite Hv1; apply wrap_lt |].
    exists t', m'. split.
    { rewrite simulations_S. unfold bind. by rewrite Hsim. }
    split.
    { replace (j + N.of_nat (S k)) with (j + 1 + N.of_nat k) by lia. done. }
    split; [done|]. split; [congruence|]. split.
    + rewrite Hv', Hv1. unfold wrap. rewrite N.Div0.add_mod_idemp_l.
      f_equal. lia.
    + intros _. destruct k as [|k]; [|by apply Hc'].
      simpl in Hsims. injection Hsims as <- <-. done.
Qed.

(** One iteration from a terminal root: the tree policy copies the root,
    and the backup reaches the copy only. *)
Lemma simulation_terminal_root fuel i t m :
  is_terminal (get_state t) = true → depth t = 0 →
  ∃ m', simulation rt pl (S fuel) i t m = Some (t, m').
Proof.
  intros Hterm Hd.
  destruct (default_policy_total rt pl (get_state t) (uninitialised rt i) m)
    as (r' & m' & Hdp).
  exists m'.
  apply (simulation_Some rt pl (S fuel) i t m (mk_frame t t) m r' m'
           (mk_frame t (backup_node pl t r'))); [|done|].
  - by apply tree_policy_terminal.
  - by apply backup_local_root.
Qed.

Lemma simulations_terminal_root fuel k i t m :
  is_terminal (get_state t) = true → depth t = 0 →
  ∃ m', simulations rt pl (S fuel) k i t m = Some (t, m').
Proof.
  intros Hterm Hd. revert i m. induction k as [|k IH]; intros i m.
  - by exists m.
  - destruct (simulation_terminal_root fuel i t m Hterm Hd) as (m1 & Hsim).
    destruct (IH (i + 1) m1) as (m' & Hsims). exists m'.
    rewrite simulations_S. unfold bind. by rewrite Hsim.
Qed.

(** [get_best_action] reads a child of the node: without a child it fails,
    whichever index is drawn. *)
Lemma get_best_action_no_child v0 m :
  children v0 = [] → get_best_action rt v0 m = None.
Proof. intros Hc. unfold get_best_action. by rewrite Hc. Qed.

Lemma get_best_action_total v0 m :
  children v0 ≠ [] →
  ∃ i c m', get_best_action rt v0 m = Some (incoming_action c, m')
            ∧ children v0 !! i = Some c ∧ same_members m m'.
Proof.
  intros Hc. unfold get_best_action.
  destruct (sort_indices_spec (map average_reward (children v0))) as [Hne Hlt].
  { by destruct (children v0). }
  destruct (rand_element_Some rt _ m Hne) as (i & m' & Hi & Hin & Hsame).
  assert (Hi3 : (i < length (children v0))%nat).
  { pose proof (Forall_lookup_1 _ _ _ _ Hlt Hin) as Hx. simpl in Hx.
    by rewrite length_map in Hx. }
  destruct (lookup_lt_is_Some_2 _ _ Hi3) as [c Hc'].
  exists i, c, m'. split; [|done].
  unfold bind, lift, ret. by rewrite Hi, Hc'.
Qed.

End LoopFacts.

(** * What a call leaves as it was *)

Section FrameFacts.

Context {D : Type} `{Double D} {FZ : Type}.
Variable rt : runtime D.
Variable pl : b03_uct_pilot D FZ.

Variable R : relation (machine D FZ).
Context `{!PreOrder R}.
Hypothesis R_rand : ∀ m, R m (after_rand m).
Hypothesis R_transition : ∀ s a, keeps R (get_transition_model pl s a).

Implicit Types (m : machine D FZ).

Lemma keeps_ret {A} (a : A) : keeps R (ret a).
Proof using PreOrder0. intros m a' m' [= _ <-]. reflexivity. Qed.

Lemma keeps_lift {A} (o : option A) : keeps R (lift o).
Proof using PreOrder0.
  intros m a m' Hl. apply lift_Some in Hl as [_ ->]. reflexivity.
Qed.

Lemma keeps_bind {A B} (c : M D FZ A) (f : A → M D FZ B) :
  keeps R c → (∀ a, keeps R (f a)) → keeps R (bind c f).
Proof using PreOrder0.
  intros Hc Hf m b m' Hb. apply bind_Some in Hb as (a & m1 & H1 & H2).
  etrans; [by eapply Hc | by eapply Hf].
Qed.

Lemma keeps_rand_indice {A} (v : list A) : keeps R (rand_indice rt v).
Proof using PreOrder0 R_rand.
  intros m a m'. destruct v as [|x v]; [done|]. intros [= _ <-]. apply R_rand.
Qed.

Lemma keeps_rand_element {A} (v : list A) : keeps R (rand_element rt v).
Proof using PreOrder0 R_rand.
  apply keeps_bind; [apply keeps_rand_indice | intros; apply keeps_lift].
Qed.

Lemma keeps_get_best_uct_child fr v :
  keeps R (get_best_uct_child rt pl fr v).
Proof using PreOrder0 R_rand.
  apply keeps_bind; [apply keeps_lift|]. intros scores.
  apply keeps_bind; [apply keeps_rand_element|]. intros i.
  apply keeps_bind; [apply keeps_lift|]. intros _. apply keeps_ret.
Qed.

Lemma keeps_create_new_child fr p : keeps R (create_new_child rt pl fr p).
Proof using PreOrder0 R_rand R_transition.
  apply keeps_bind; [apply keeps_lift|]. intros v.
  apply keeps_bind; [apply keeps_rand_indice|]. intros i.
  apply keeps_bind; [apply keeps_lift|]. intros a.
  apply keeps_bind; [apply R_transition|]. intros s'. apply keeps_ret.
Qed.

Lemma keeps_tree_policy fuel fr p : keeps R (tree_policy rt pl fuel fr p).
Proof using PreOrder0 R_rand R_transition.
  revert p. induction fuel as [|fuel IH]; intros p; [done|]. simpl.
  apply keeps_bind; [apply keeps_lift|]. intros v0.
  destruct (is_terminal _); [apply keeps_ret|].
  destruct (is_fully_expanded _).
  - apply keeps_bind; [apply keeps_get_best_uct_child | intros; apply IH].
  - apply keeps_bind; [apply keeps_create_new_child|]. intros fr'.
    apply keeps_bind; [apply keeps_lift|]. intros v0'.
    apply keeps_bind; [apply keeps_lift|]. intros c. apply keeps_ret.
Qed.

Lemma keeps_default_policy_loop n t s r :
  keeps R (default_policy_loop rt pl n t s r).
Proof using PreOrder0 R_rand R_transition.
  revert t s r. induction n as [|n IH]; intros t s r; simpl; [apply keeps_ret|].
  apply keeps_bind; [apply keeps_rand_element|]. intros a.
  apply keeps_bind; [apply R_transition|]. intros s'.
  destruct (is_terminal s'); [apply keeps_ret | apply IH].
Qed.

Lemma keeps_simulation fuel i v0 :
  keeps R (simulation rt pl fuel i v0).
Proof using PreOrder0 R_rand R_transition.
  apply keeps_bind; [apply keeps_tree_policy|]. intros fr.
  apply keeps_bind; [apply keeps_default_policy_loop|]. intros r.
  apply keeps_bind; [apply keeps_lift|]. intros fr'. apply keeps_ret.
Qed.

Lemma keeps_simulations fuel n i v0 :
  keeps R (simulations rt pl fuel n i v0).
Proof using PreOrder0 R_rand R_transition.
  revert i v0. induction n as [|n IH]; intros i v0; simpl; [apply keeps_ret|].
  apply keeps_bind; [apply keeps_simulation | intros; apply IH].
Qed.

Lemma keeps_get_best_action v0 : keeps R (get_best_action rt v0).
Proof using PreOrder0 R_rand.
  apply keeps_bind; [apply keeps_rand_element|]. intros i.
  apply keeps_bind; [apply keeps_lift|]. intros v. apply keeps_ret.
Qed.

End FrameFacts.

(** * The claims on the pilot *)

Section Claims.

Context {D : Type} `{Double D} {FZ : Type}.
Variable rt : runtime D.
Variable pl : b03_uct_pilot D FZ.

Implicit Types (t n c : b03_node D) (p q : node_ref) (m : machine D FZ).


(** ** The rollout *)

Lemma discounted_sum_cons r0 st (steps : list (@rollout_step D)) :
  discounted_sum pl r0 (st :: steps)
  = discounted_sum pl
      (r0 + dpow (df pl) (of_uint (step_index st))
            * get_reward_model (step_from st) (step_action st) (step_to st))%D
      steps.
Proof. done. Qed.

(** The value a rollout leaves in [reward]: the value found there, plus the
    discounted rewards of the executed steps. *)
Lemma default_policy_loop_return k tc s r m :
  ∃ m', default_policy_loop rt pl k tc s r m
        = Some (discounted_sum pl r (rollout_steps rt pl k tc s m), m').
Proof.
  revert tc s r m. induction k as [|k IH]; intros tc s r m; simpl.
  - by eexists.
  - destruct (rand_element_Some rt (get_expendable_actions pl) m)
      as (a & m1 & Ha & _); [done|].
    destruct (get_transition_model_total pl s a m1) as (s' & m2 & Hs & _).
    unfold bind at 1. rewrite Ha. unfold bind at 1. rewrite Hs.
    destruct (is_terminal s'); [by eexists|].
    rewrite discounted_sum_cons. apply IH.
Qed.

Lemma default_policy_return s r m :
  ∃ m', default_policy rt pl s r m
        = Some (discounted_sum pl r
                  (rollout_steps rt pl (N.to_nat (horizon pl)) 0 s m), m').
Proof. apply default_policy_loop_return. Qed.

(** Without discount the terms are the rewards themselves. *)
Lemma discounted_sum_no_discount r0 (steps : list (@rollout_step D)) :
  (∀ tc y, (dpow (df pl) (of_uint tc) * y)%D = y) →
  discounted_sum pl r0 steps
  = fold_left
      (λ acc st,
         acc + get_reward_model (step_from st) (step_action st) (step_to st))%D
      steps r0.
Proof.
  intros Hone. revert r0. induction steps as [|st steps IH]; intros r0; [done|].
  rewrite discounted_sum_cons, Hone. apply IH.
Qed.

Lemma rollout_steps_length k tc s m :
  (length (rollout_steps rt pl k tc s m) ≤ k)%nat.
Proof.
  revert tc s m. induction k as [|k IH]; intros tc s m; simpl; [done|].
  destruct (rand_element _ _ m) as [[a m1]|]; simpl; [|lia].
  destruct (get_transition_model pl s a m1) as [[s' m2]|]; simpl; [|lia].
  destruct (is_terminal s'); simpl; [lia|]. specialize (IH (tc + 1) s' m2). lia.
Qed.

Lemma rollout_steps_lookup k tc s m i st :
  rollout_steps rt pl k tc s m !! i = Some st →
  step_index st = tc + N.of_nat i ∧ is_terminal (step_to st) = false.
Proof.
  revert tc s m i. induction k as [|k IH]; intros tc s m i; simpl; [done|].
  destruct (rand_element _ _ m) as [[a m1]|]; [|done].
  destruct (get_transition_model pl s a m1) as [[s' m2]|]; [|done].
  destruct (is_terminal s') eqn:Ht; [done|].
  destruct i as [|i]; simpl.
  - intros [= <-]. simpl. split; [lia|done].
  - intros Hi. destruct (IH _ _ _ _ Hi) as [-> ?]. split; [lia|done].
Qed.

(** C10: the reward model returns [zdot + V * Vdot / 9.81] of the state
    before the transition, whatever the action and the state reached. *)
Theorem get_reward_model_pre_state (s_t : beeler_glider_state D)
    (a_t : beeler_glider_command D) (s_tp : beeler_glider_state D) :
  get_reward_model s_t a_t s_tp = (zdot s_t + V s_t * Vdot s_t / dconst 9.81)%D
  ∧ ∀ a' s', get_reward_model s_t a' s' = get_reward_model s_t a_t s_tp.
Proof. done. Qed.

(** C4: a step of the rollout whose transition reaches a terminal state ends
    the rollout and adds nothing to the return; with a horizon of 3, a
    rollout whose step 1 reaches a terminal state adds one term, the reward
    of step 0. *)
Theorem default_policy_stops_on_terminal (s : beeler_glider_state D) (r : D) m :
  (∀ k tc a m1 s' m2,
     rand_element rt (get_expendable_actions pl) m = Some (a, m1) →
     get_transition_model pl s a m1 = Some (s', m2) →
     is_terminal s' = true →
     default_policy_loop rt pl (S k) tc s r m = Some (r, m2))
  ∧ (∀ a0 m1 s1 m2 a1 m3 s2 m4,
     horizon pl = 3 →
     rand_element rt (get_expendable_actions pl) m = Some (a0, m1) →
     get_transition_model pl s a0 m1 = Some (s1, m2) →
     is_terminal s1 = false →
     rand_element rt (get_expendable_actions pl) m2 = Some (a1, m3) →
     get_transition_model pl s1 a1 m3 = Some (s2, m4) →
     is_terminal s2 = true →
     default_policy rt pl s r m
     = Some (r + dpow (df pl) (of_uint 0) * get_reward_model s a0 s1, m4)%D).
Proof.
  split.
  - intros k tc a m1 s' m2 Ha Hs Ht. simpl. unfold bind, ret. by rewrite Ha, Hs, Ht.
  - intros a0 m1 s1 m2 a1 m3 s2 m4 Hh Ha0 Hs1 Ht1 Ha1 Hs2 Ht2.
    unfold default_policy. rewrite Hh. simpl. unfold bind, ret.
    by rewrite Ha0, Hs1, Ht1, Ha1, Hs2, Ht2.
Qed.


(** ** The tree policy *)

Lemma get_best_uct_child_Some (fr : @frame D) v m i m1 :
  get_best_uct_child rt pl fr v m = Some (i, m1) →
  ∃ scores, mapM (get_uct_score pl fr) (children v) = Some scores
    ∧ sort_indices scores
        !! (rand_seq rt (rand_calls m) `mod` length (sort_indices scores))%nat = Some i
    ∧ is_Some (children v !! i) ∧ m1 = after_rand m
    ∧ NoDup (sort_indices scores)
    ∧ (ordered_on scores → ∀ j, j ∈ sort_indices scores ↔ attains_max scores j).
Proof.
  unfold get_best_uct_child. intros Hb.
  apply bind_Some in Hb as (scores & m0 & Hsc & Hb).
  apply lift_Some in Hsc as [Hsc ->].
  apply bind_Some in Hb as (i' & m2 & Hre & Hb).
  apply bind_Some in Hb as (c & m3 & Hc & Hb).
  apply lift_Some in Hc as [Hc ->]. injection Hb as -> ->.
  exists scores. split; [done|].
  unfold rand_element in Hre. apply bind_Some in Hre as (k & m4 & Hk & Hl).
  apply lift_Some in Hl as [Hl ->].
  unfold rand_indice in Hk. destruct (sort_indices scores) as [|x0 l0] eqn:E; [done|].
  injection Hk as <- <-. split_and!; [done..| |].
  - rewrite <- E. apply sort_indices_NoDup.
  - intros Hord j. rewrite <- E. by apply sort_indices_max_on.
Qed.

Lemma tree_policy_size fuel (fr : @frame D) p m fr' m' :
  tree_policy rt pl fuel fr p m = Some (fr', m') →
  (tree_size (root fr') ≤ tree_size (root fr) + 1)%nat.
Proof.
  revert p m. induction fuel as [|fuel IH]; intros p m Htp; [done|].
  destruct (lookup_node (root fr) p) as [v0|] eqn:Hv0.
  2:{ simpl in Htp. unfold bind, lift in Htp. by rewrite Hv0 in Htp. }
  destruct (is_terminal (get_state v0)) eqn:Ht.
  { rewrite (tree_policy_terminal _ _ _ _ _ v0) in Htp by done.
    injection Htp as <- <-. simpl. lia. }
  destruct (is_fully_expanded v0) eqn:Hf.
  - rewrite (tree_policy_descend _ _ _ _ _ v0) in Htp by done.
    apply bind_Some in Htp as (i & m1 & _ & Htp). by eapply IH.
  - destruct (tree_policy_expand rt pl fuel fr p v0 m Hv0 Ht Hf)
      as (a & s' & m2 & _ & _ & Heq).
    cbv zeta in Heq. rewrite Heq in Htp. injection Htp as <- <-. simpl.
    erewrite tree_size_update_node; [|done|by apply tree_size_expand_node]. lia.
Qed.

(** C1: the tree policy on the node [v0] that [p] designates.  A terminal
    node is returned as it is, the tree untouched.  A node that is not
    terminal and is fully expanded hands over to the child whose index is
    drawn, by the next value of [rand ()], from the indices [sort_indices]
    returns for the UCT scores of the children: each index once, and, when
    the comparison orders these scores, the indices of the children whose
    score no other exceeds.  In a well-formed tree this choice does return:
    the scores of all the children are computed, the index drawn is the
    index of a child, one whose score no other exceeds when the comparison
    orders the scores, and the tree policy goes on from that child.  Any
    other node loses the expendable action at the index drawn by the next
    value of [rand ()] and gets, at the back of its children, one node built
    from the transition of this action: one level deeper, with the full set
    of actions, the action as incoming action and [p] as parent; this node
    is returned.  The tree grows by at most one node.  In a well-formed tree
    whose levels the recursion depth covers, the tree policy returns: it has
    gone down from [p], through nodes without expendable action, to a node
    that is terminal, which it returns, or to a node with an expendable
    action, whose new child it returns. *)
Theorem tree_policy_cases fuel (fr : @frame D) p v0 m :
  lookup_node (root fr) p = Some v0 →
  (is_terminal (get_state v0) = true →
     tree_policy rt pl (S fuel) fr p m = Some (mk_frame (root fr) v0, m))
  ∧ (is_terminal (get_state v0) = false → is_fully_expanded v0 = true →
     tree_policy rt pl (S fuel) fr p m
     = bind (get_best_uct_child rt pl fr v0)
            (λ i, tree_policy rt pl fuel fr (p ++ [i])) m
     ∧ (∀ i m1, get_best_uct_child rt pl fr v0 m = Some (i, m1) →
         ∃ scores, mapM (get_uct_score pl fr) (children v0) = Some scores
           ∧ sort_indices scores
               !! (rand_seq rt (rand_calls m) `mod` length (sort_indices scores))%nat
             = Some i
           ∧ is_Some (children v0 !! i) ∧ m1 = after_rand m
           ∧ NoDup (sort_indices scores)
           ∧ (ordered_on scores →
              ∀ j, j ∈ sort_indices scores ↔ attains_max scores j))
     ∧ (∀ j, well_formed j (root fr) →
         ∃ i c scores,
           get_best_uct_child rt pl fr v0 m = Some (i, after_rand m)
           ∧ children v0 !! i = Some c
           ∧ mapM (get_uct_score pl fr) (children v0) = Some scores
           ∧ sort_indices scores
               !! (rand_seq rt (rand_calls m) `mod` length (sort_indices scores))%nat
             = Some i
           ∧ tree_policy rt pl (S fuel) fr p m
             = tree_policy rt pl fuel fr (p ++ [i]) (after_rand m)
           ∧ (ordered_on scores → attains_max scores i)))
  ∧ (is_terminal (get_state v0) = false → is_fully_expanded v0 = false →
     let indice :=
       (rand_seq rt (rand_calls m) `mod` length (expendable_actions v0))%nat in
     ∃ a s' m',
       expendable_actions v0 !! indice = Some a
       ∧ get_transition_model pl (get_state v0) a (after_rand m) = Some (s', m')
       ∧ let c := mk_node s' a (get_expendable_actions pl) (dconst 0) 1
                          (wrap (depth v0 + 1)) (Some p) [] in
         tree_policy rt pl (S fuel) fr p m
         = Some (mk_frame (update_node (root fr) p (λ _, expand_node v0 indice c)) c, m')
         ∧ (depth v0 + 1 < uint_max → depth c = depth v0 + 1))
  ∧ (∀ fr' m', tree_policy rt pl (S fuel) fr p m = Some (fr', m') →
       (tree_size (root fr') ≤ tree_size (root fr) + 1)%nat)
  ∧ (∀ j, well_formed j (root fr) → (N.to_nat j < S fuel + length p)%nat →
       ∃ q nq m', p `prefix_of` q ∧ lookup_node (root fr) q = Some nq
         ∧ (∀ x nx, p `prefix_of` x → x `prefix_of` q → x ≠ q →
                    lookup_node (root fr) x = Some nx → expendable_actions nx = [])
         ∧ ((is_terminal (get_state nq) = true
             ∧ tree_policy rt pl (S fuel) fr p m = Some (mk_frame (root fr) nq, m'))
            ∨ (is_terminal (get_state nq) = false
               ∧ ∃ indice a s', expendable_actions nq !! indice = Some a
                   ∧ let c := new_child_of pl q nq a s' in
                     tree_policy rt pl (S fuel) fr p m
                     = Some (mk_frame (update_node (root fr) q
                                         (λ _, expand_node nq indice c)) c, m')))).
Proof.
  intros Hp. split_and!.
  - intros Ht. by apply tree_policy_terminal.
  - intros Ht Hf. split; [by apply tree_policy_descend|]. split.
    { intros i m1. apply get_best_uct_child_Some. }
    intros j Hwf. destruct fr as [t l]. simpl in Hp, Hwf.
    destruct (get_best_uct_child_total rt pl j t l v0 p m Hwf Hp Hf)
      as (i & c & m1 & Hbest & Hc).
    destruct (get_best_uct_child_Some _ _ _ _ _ Hbest)
      as (scores & Hsc & Hi & _ & -> & _ & Hmax).
    exists i, c, scores. split_and!; [done..| |].
    + rewrite (tree_policy_descend _ _ _ _ _ v0) by done.
      unfold bind. by rewrite Hbest.
    + intros Hord. apply Hmax; [done|]. by eapply list_elem_of_lookup_2.
  - intros Ht Hf indice.
    destruct (tree_policy_expand rt pl fuel fr p v0 m Hp Ht Hf)
      as (a & s' & m' & Ha & Hs & Htp).
    exists a, s', m'. split; [done|]. split; [done|]. split; [done|].
    simpl. intros Hd. by apply wrap_small.
  - intros fr' m'. apply tree_policy_size.
  - intros j Hwf Hfuel. destruct fr as [t l]. simpl in Hp, Hwf.
    exact (tree_policy_total rt pl j t l (S fuel) p v0 m Hwf Hp Hfuel).
Qed.

(** ** The visit counts *)

(** The tree after [k] iterations of the loop of [operator()] is well
    formed, and a node of it that can still get a child has only children
    without children: what [push_back] may move is designated by no
    pointer, so that the parent pointers of the tree stay valid. *)
Lemma simulations_well_formed fuel k s0 m t m' :
  N.of_nat k < uint_max → (k < fuel)%nat →
  simulations rt pl fuel k 0 (root_node rt pl s0) m = Some (t, m') →
  well_formed (N.of_nat k) t ∧ leaves_below_expandable t.
Proof.
  intros Hk Hfuel Hsim.
  pose proof (well_formed_root_node rt pl s0) as Hwf0.
  pose proof (leaves_root_node rt pl s0) as Hlv0.
  destruct (is_terminal s0) eqn:Ht.
  - destruct fuel as [|fuel]; [lia|].
    destruct (simulations_terminal_root rt pl fuel k 0 (root_node rt pl s0) m)
      as (m1 & Hsim'); [done..|].
    rewrite Hsim' in Hsim. injection Hsim as <- <-. split; [|done].
    eapply well_formed_mono; [|done]. lia.
  - destruct (simulations_total rt pl fuel k 0 (root_node rt pl s0) 0 m Hwf0 Hlv0)
      as (t' & m1 & Hsim' & Hwf' & Hlv' & _); [lia | lia | done | done |].
    rewrite Hsim' in Hsim. injection Hsim as <- <-.
    by rewrite N.add_0_l in Hwf'.
Qed.

(** C3: for a child [c] with a visit count above zero whose parent pointer
    designates [vp], the score is the accumulated return of [c] plus
    [2 * C * sqrt (2 * log (visits of vp) / visits of c)], and computing it
    leaves the machine as it is; in the tree that any number [k] of
    iterations of [operator()] has built, within the budget, every child of
    every node has a visit count above zero and a parent pointer to that
    node, so that the assertion of the scorer holds wherever the tree
    policy calls it. *)
Theorem get_uct_score_precondition fuel k s0 m t m' l :
  computational_budget pl < uint_max →
  (N.to_nat (computational_budget pl) < fuel)%nat →
  (k ≤ N.to_nat (computational_budget pl))%nat →
  simulations rt pl fuel k 0 (root_node rt pl s0) m = Some (t, m') →
  (∀ (fr : @frame D) c q vp,
     0 < number_of_visits c → parent c = Some q →
     lookup_node (root fr) q = Some vp →
     get_uct_score pl fr c
     = Some (average_reward c
             + dconst 2 * uct_parameter pl
               * dsqrt (dconst 2 * dlog (of_uint (number_of_visits vp))
                        / of_uint (number_of_visits c)))%D
     ∧ ∀ m0 : machine D FZ,
         lift (get_uct_score pl fr c) m0
         = option_map (λ sc, (sc, m0)) (get_uct_score pl fr c))
  ∧ (∀ p vp i c,
       lookup_node t p = Some vp → children vp !! i = Some c →
       0 < number_of_visits c ∧ parent c = Some p
       ∧ get_uct_score pl (mk_frame t l) c
         = Some (average_reward c
                 + dconst 2 * uct_parameter pl
                   * dsqrt (dconst 2 * dlog (of_uint (number_of_visits vp))
                            / of_uint (number_of_visits c)))%D).
Proof.
  intros Hb Hfuel Hk Hsim. split.
  - intros fr c q vp Hv Hpa Hq. split.
    + apply (get_uct_score_Some pl fr c vp q); [lia | done | done].
    + intros m0. unfold lift. by destruct (get_uct_score _ _ _).
  - intros p vp i c Hp Hc.
    assert (Hwf : well_formed (N.of_nat k) t).
    { eapply (simulations_well_formed fuel k s0 m t m'); [| |done]; lia. }
    pose proof (Hwf _ _ (lookup_node_snoc _ _ _ _ _ Hp Hc)) as Hok.
    assert (Hne : p ++ [i] ≠ []) by (by destruct p).
    destruct (ok_visits _ _ _ Hok Hne) as [Hv _].
    assert (Hpa : parent c = Some p) by (by eapply ok_parent).
    split; [lia|]. split; [done|].
    apply (get_uct_score_Some pl _ c vp p); [lia | done | done].
Qed.

(** C5, as the code has it: when the state at the root is not terminal, the
    loop of [operator()] with the budget [B] leaves the root with the visit
    count [(1 + B) mod 2^32]: the root is built with the count 1, and each
    of the [B] backups adds one to it. *)
Theorem root_visits_after_budget fuel s0 m :
  is_terminal s0 = false →
  computational_budget pl < uint_max →
  (N.to_nat (computational_budget pl) < fuel)%nat →
  ∃ t m',
    simulations rt pl fuel (N.to_nat (computational_budget pl)) 0
      (root_node rt pl s0) m = Some (t, m')
    ∧ number_of_visits t = (1 + computational_budget pl) `mod` 2 ^ 32.
Proof.
  intros Ht Hb Hfuel.
  destruct (simulations_total rt pl fuel (N.to_nat (computational_budget pl)) 0
              (root_node rt pl s0) 0 m
              (well_formed_root_node rt pl s0) (leaves_root_node rt pl s0))
    as (t & m' & Hsim & _ & _ & _ & Hv & _); [lia | lia | done | done |].
  exists t, m'. split; [done|]. rewrite Hv. simpl. by rewrite N2Nat.id.
Qed.

(** ** Calls that select no action *)

Lemma select_action_eq fuel m :
  select_action rt pl fuel m
  = bind (simulations rt pl fuel (N.to_nat (computational_budget pl)) 0
            (root_node rt pl (arg_state m)))
         (λ v0, bind (get_best_action rt v0) set_arg_command) m.
Proof. done. Qed.

(** C6, as the code has it: when the state at the root is terminal, every
    iteration of [operator()] leaves the tree as it is, so the root stays
    without children, and the call fails on the access to the best child,
    whichever index it reads and whatever the budget; no command is
    written. *)
Theorem select_action_terminal_root fuel m :
  is_terminal (arg_state m) = true →
  select_action rt pl fuel m = None
  ∧ (∀ k i, ∃ m',
       simulations rt pl (S fuel) k i (root_node rt pl (arg_state m)) m
       = Some (root_node rt pl (arg_state m), m'))
  ∧ ∀ i, children (root_node rt pl (arg_state m)) !! i = None.
Proof.
  intros Ht. split_and!.
  - rewrite select_action_eq. unfold bind at 1.
    destruct (simulations rt pl _ _ _ _ m) as [[v0 m1]|] eqn:Hsim; [|done].
    destruct fuel as [|fuel].
    + destruct (N.to_nat (computational_budget pl)) as [|k]; simpl in Hsim.
      * injection Hsim as <- <-. done.
      * done.
    + destruct (simulations_terminal_root rt pl fuel
                  (N.to_nat (computational_budget pl)) 0
                  (root_node rt pl (arg_state m)) m)
        as (m2 & Hsim'); [done..|].
      rewrite Hsim' in Hsim. injection Hsim as <- <-. done.
  - intros k i. by apply simulations_terminal_root.
  - done.
Qed.

(** C8, as the code has it: with a budget of zero the loop of [operator()]
    does not run, the root has no child when [operator()] looks for the
    best one, and the call fails on that access, whichever index it reads;
    no command is written. *)
Theorem select_action_no_budget fuel m :
  computational_budget pl = 0 →
  select_action rt pl fuel m = None
  ∧ simulations rt pl fuel (N.to_nat (computational_budget pl)) 0
      (root_node rt pl (arg_state m)) m
    = Some (root_node rt pl (arg_state m), m)
  ∧ ∀ i, children (root_node rt pl (arg_state m)) !! i = None.
Proof.
  intros Hb. split_and!.
  - rewrite select_action_eq, Hb. done.
  - by rewrite Hb.
  - done.
Qed.

(** With a budget and a root that is not terminal the call does select the
    incoming action of a child of the root. *)
Lemma select_action_total fuel m :
  is_terminal (arg_state m) = false →
  0 < computational_budget pl < uint_max →
  (N.to_nat (computational_budget pl) < fuel)%nat →
  ∃ t i c m', children t !! i = Some c
    ∧ select_action rt pl fuel m = Some (tt, m') ∧ arg_command m' = incoming_action c.
Proof.
  intros Ht Hb Hfuel.
  destruct (simulations_total rt pl fuel (N.to_nat (computational_budget pl)) 0
              (root_node rt pl (arg_state m)) 0 m
              (well_formed_root_node rt pl (arg_state m))
              (leaves_root_node rt pl (arg_state m)))
    as (t & m1 & Hsim & _ & _ & _ & _ & Hc); [lia | lia | done | done |].
  destruct (get_best_action_total rt t m1) as (i & c & m2 & Hbest & Hi & _).
  { apply Hc. lia. }
  exists t, i, c. eexists. split; [done|].
  rewrite select_action_eq. unfold bind. rewrite Hsim, Hbest. done.
Qed.

(** ** What a call leaves as it was *)

(** C9, as the code has it: a call of [operator()] that returns leaves the
    state it was given as it was, and leaves the pilot's flight zone as it
    was whenever the transition function does; the pilot's aircraft is
    where every transition is computed: after a call of the transition
    model it holds the state the call returns. *)
Theorem select_action_frame fuel m m' :
  select_action rt pl fuel m = Some (tt, m') →
  arg_state m' = arg_state m
  ∧ ((∀ ac0 fz0 tc w dt, (transition_function pl ac0 fz0 tc w dt).1.2 = fz0) →
     fz m' = fz m)
  ∧ ∀ s a m0 s' m0',
      get_transition_model pl s a m0 = Some (s', m0') → ac_state (ac m0') = s'.
Proof.
  intros Hsel. rewrite select_action_eq in Hsel.
  apply bind_Some in Hsel as (v0 & m1 & Hsim & Hsel).
  apply bind_Some in Hsel as (a & m2 & Hbest & Hset).
  injection Hset as <-. simpl. split_and!.
  - set (R := λ m0 m0' : machine D FZ, arg_state m0' = arg_state m0).
    assert (HR : PreOrder R).
    { split; [by intros ?|]. intros ? ? ? H1 H2. unfold R in *. congruence. }
    assert (Hrand : ∀ m0, R m0 (after_rand m0)) by done.
    assert (Htr : ∀ s a0, keeps R (get_transition_model pl s a0)).
    { intros s a0 m0 s' m0' Hs. unfold get_transition_model in Hs.
      destruct (transition_function _ _ _ _ _ _) as [[ac3 fz3] tm].
      by injection Hs as <- <-. }
    pose proof (keeps_simulations rt pl R Hrand Htr _ _ _ _ _ _ _ Hsim) as H1.
    pose proof (keeps_get_best_action rt R Hrand _ _ _ _ Hbest) as H2.
    unfold R in *. congruence.
  - intros Hfz.
    set (R := λ m0 m0' : machine D FZ, fz m0' = fz m0).
    assert (HR : PreOrder R).
    { split; [by intros ?|]. intros ? ? ? H1 H2. unfold R in *. congruence. }
    assert (Hrand : ∀ m0, R m0 (after_rand m0)) by done.
    assert (Htr : ∀ s a0, keeps R (get_transition_model pl s a0)).
    { intros s a0 m0 s' m0' Hs. unfold get_transition_model in Hs.
      pose proof (Hfz (set_command (set_state (ac m0) s) a0) (fz m0) (time s)
                    (time_step_width pl) (sub_time_step_width pl)) as Hz.
      destruct (transition_function _ _ _ _ _ _) as [[ac3 fz3] tm].
      injection Hs as <- <-. done. }
    pose proof (keeps_simulations rt pl R Hrand Htr _ _ _ _ _ _ _ Hsim) as H1.
    pose proof (keeps_get_best_action rt R Hrand _ _ _ _ Hbest) as H2.
    unfold R in *. congruence.
  - intros s a0 m0 s' m0' Hs. unfold get_transition_model in Hs.
    destruct (transition_function _ _ _ _ _ _) as [[ac3 fz3] tm].
    by injection Hs as <- <-.
Qed.

End Claims.

(** * The claims on runs of the examples *)

(** The trees of the examples are well formed. *)
Lemma well_formed_test_tree_scored : well_formed 1 test_tree_scored.
Proof.
  intros p n Hp.
  destruct p as [|[|[|[|i]]] [|k p]]; simpl in Hp; try done; injection Hp as <-;
    (split; [done | | by intros _ | done | done]);
    intros [|j [|j2 p']] i' E; try done; by injection E as <-.
Qed.

Lemma well_formed_test_tree_5 : well_formed 5 test_tree_5.
Proof.
  apply (simulations_well_formed test_runtime (test_pilot 3 5) 10 5
           (sinking_state 10) (test_machine (sinking_state 10))
           test_tree_5 test_machine_5); [done | lia | vm_compute; reflexivity].
Qed.

(** The scores of the children of the root of [test_tree_scored], which
    the comparison orders, and the child that the tree policy goes to. *)
Lemma test_tree_scored_scores :
  mapM (get_uct_score (test_pilot 3 5)
          (mk_frame test_tree_scored (blank_node test_runtime (test_pilot 3 5))))
       (children test_tree_scored)
  = Some [q 1; q 3; q 2].
Proof. vm_compute. reflexivity. Qed.

Lemma ordered_on_test_tree_scored : ordered_on [q 1; q 3; q 2].
Proof.
  split_and!.
  - intros a Ha. decompose_list_elem_of; subst; vm_compute; done.
  - intros a b c Ha Hb Hc. decompose_list_elem_of; subst; vm_compute; done.
  - intros a b c Ha Hb Hc. decompose_list_elem_of; subst; vm_compute; done.
Qed.

Lemma test_tree_scored_best :
  get_best_uct_child test_runtime (test_pilot 3 5)
    (mk_frame test_tree_scored (blank_node test_runtime (test_pilot 3 5)))
    test_tree_scored (test_machine (sinking_state 10))
  = Some (1%nat, after_rand (test_machine (sinking_state 10))).
Proof. vm_compute. reflexivity. Qed.

(** The tree policy on four nodes.  On a fresh root ten metres up: the
    first of the three actions is erased and its child pushed.  On the
    root of [test_tree_scored], which has its three children: their scores
    are 1, 3 and 2, and the tree policy goes on from the second child,
    whose score no other exceeds.  On the root of the tree that five
    iterations from ten metres up have built: the tree policy returns.  On
    a node below the ground, in the tree that five iterations from a metre
    and a half up have built: the node is returned, the tree as it was. *)
Lemma tree_policy_cases_witness :
  (lookup_node (root (test_frame 3 1 (sinking_state 10))) []
     = Some (test_root 3 1 (sinking_state 10))
   ∧ is_terminal (get_state (test_root 3 1 (sinking_state 10))) = false
   ∧ is_fully_expanded (test_root 3 1 (sinking_state 10)) = false
   ∧ ∃ a s' m',
       expendable_actions (test_root 3 1 (sinking_state 10)) !! 0%nat = Some a
       ∧ get_transition_model (test_pilot 3 1)
           (get_state (test_root 3 1 (sinking_state 10))) a
           (after_rand (test_machine (sinking_state 10))) = Some (s', m')
       ∧ let c := mk_node s' a (get_expendable_actions (test_pilot 3 1)) (dconst 0) 1
                          (wrap (depth (test_root 3 1 (sinking_state 10)) + 1))
                          (Some []) [] in
         tree_policy test_runtime (test_pilot 3 1) 1 (test_frame 3 1 (sinking_state 10))
           [] (test_machine (sinking_state 10))
         = Some (mk_frame
                   (update_node (root (test_frame 3 1 (sinking_state 10))) []
                      (λ _, expand_node (test_root 3 1 (sinking_state 10)) 0 c)) c,
                 m')
         ∧ (depth (test_root 3 1 (sinking_state 10)) + 1 < uint_max →
            depth c = depth (test_root 3 1 (sinking_state 10)) + 1))
  ∧ (let fr := mk_frame test_tree_scored (blank_node test_runtime (test_pilot 3 5)) in
     let m := test_machine (sinking_state 10) in
     lookup_node (root fr) [] = Some test_tree_scored
     ∧ is_terminal (get_state test_tree_scored) = false
     ∧ is_fully_expanded test_tree_scored = true
     ∧ well_formed 1 (root fr)
     ∧ ordered_on [q 1; q 3; q 2]
     ∧ ∃ c,
         get_best_uct_child test_runtime (test_pilot 3 5) fr test_tree_scored m
         = Some (1%nat, after_rand m)
         ∧ children test_tree_scored !! 1%nat = Some c
         ∧ mapM (get_uct_score (test_pilot 3 5) fr) (children test_tree_scored)
           = Some [q 1; q 3; q 2]
         ∧ tree_policy test_runtime (test_pilot 3 5) 2 fr [] m
           = tree_policy test_runtime (test_pilot 3 5) 1 fr ([] ++ [1%nat]) (after_rand m)
         ∧ attains_max [q 1; q 3; q 2] 1)
  ∧ (let fr := mk_frame test_tree_5 (blank_node test_runtime (test_pilot 3 5)) in
     lookup_node (root fr) [] = Some test_tree_5
     ∧ well_formed 5 (root fr)
     ∧ (N.to_nat 5 < 10 + length ([] : node_ref))%nat
     ∧ ∃ q nq m', [] `prefix_of` q ∧ lookup_node (root fr) q = Some nq
         ∧ (∀ x nx, [] `prefix_of` x → x `prefix_of` q → x ≠ q →
                    lookup_node (root fr) x = Some nx → expendable_actions nx = [])
         ∧ ((is_terminal (get_state nq) = true
             ∧ tree_policy test_runtime (test_pilot 3 5) 10 fr [] test_machine_5
               = Some (mk_frame (root fr) nq, m'))
            ∨ (is_terminal (get_state nq) = false
               ∧ ∃ indice a s', expendable_actions nq !! indice = Some a
                   ∧ let c := new_child_of (test_pilot 3 5) q nq a s' in
                     tree_policy test_runtime (test_pilot 3 5) 10 fr [] test_machine_5
                     = Some (mk_frame (update_node (root fr) q
                                         (λ _, expand_node nq indice c)) c, m'))))
  ∧ (let fr := mk_frame test_tree_low (blank_node test_runtime (test_pilot 3 5)) in
     ∃ v0, lookup_node (root fr) [0; 0]%nat = Some v0
       ∧ is_terminal (get_state v0) = true
       ∧ tree_policy test_runtime (test_pilot 3 5) 1 fr [0; 0]%nat test_machine_low
         = Some (mk_frame (root fr) v0, test_machine_low)).
Proof.
  split; [|split; [|split]].
  - split; [reflexivity|]. split; [reflexivity|]. split; [reflexivity|].
    exact (proj1 (proj2 (proj2
      (tree_policy_cases test_runtime (test_pilot 3 1) 0
         (test_frame 3 1 (sinking_state 10)) [] (test_root 3 1 (sinking_state 10))
         (test_machine (sinking_state 10)) eq_refl))) eq_refl eq_refl).
  - intros fr m.
    split; [reflexivity|]. split; [reflexivity|]. split; [reflexivity|].
    split; [exact well_formed_test_tree_scored|].
    split; [exact ordered_on_test_tree_scored|].
    assert (Ht : is_terminal (get_state test_tree_scored) = false) by reflexivity.
    assert (Hf : is_fully_expanded test_tree_scored = true) by reflexivity.
    destruct (proj2 (proj2 (proj1 (proj2
      (tree_policy_cases test_runtime (test_pilot 3 5) 1 fr [] test_tree_scored m
         eq_refl)) Ht Hf)) 1 well_formed_test_tree_scored)
      as (i & c & scores & Hbest & Hc & Hsc & _ & Htp & Hmax).
    pose proof test_tree_scored_best as Hb. fold fr m in Hb.
    rewrite Hb in Hbest. injection Hbest as <-.
    pose proof test_tree_scored_scores as Hs. fold fr in Hs.
    rewrite Hs in Hsc. injection Hsc as <-.
    exists c. split; [reflexivity|]. split; [exact Hc|]. split; [reflexivity|].
    split; [exact Htp|]. exact (Hmax ordered_on_test_tree_scored).
  - intros fr. split; [reflexivity|]. split; [exact well_formed_test_tree_5|].
    split; [simpl; lia|].
    exact (proj2 (proj2 (proj2 (proj2
      (tree_policy_cases test_runtime (test_pilot 3 5) 9 fr [] test_tree_5
         test_machine_5 eq_refl)))) 5 well_formed_test_tree_5 ltac:(simpl; lia)).
  - intros fr. eexists. split; [vm_compute; reflexivity|]. split; [reflexivity|].
    exact (proj1
      (tree_policy_cases test_runtime (test_pilot 3 5) 0 fr [0; 0]%nat _
         test_machine_low eq_refl) eq_refl).
Defined.

(** C2 on a run: the first iteration from ten metres up expands the root.
    The tree policy hands the new child over as a copy, the local node of
    the frame; the backup adds a visit and the return to this copy and to
    the root, and the child in the tree is after the backup what it was
    before: one visit, no return. *)
Theorem backup_misses_frontier_node :
  ∃ fr m1 r m2 fr',
    tree_policy test_runtime (test_pilot 3 1) 10 (test_frame 3 1 (sinking_state 10))
      [] (test_machine (sinking_state 10)) = Some (fr, m1)
    ∧ default_policy test_runtime (test_pilot 3 1) (get_state (local fr))
        (uninitialised test_runtime 0) m1 = Some (r, m2)
    ∧ backup (test_pilot 3 1) 10 fr Local r = Some fr'
    ∧ test_simulations 3 1 1 (sinking_state 10) = Some (root fr', m2)
    ∧ lookup_node (root fr) [0%nat] = Some (local fr)
    ∧ lookup_node (root fr') [0%nat] = Some (local fr)
    ∧ number_of_visits (local fr) = 1
    ∧ average_reward (local fr) = q 0
    ∧ number_of_visits (local fr') = 2
    ∧ average_reward (local fr') = r
    ∧ r = q 2
    ∧ number_of_visits (root fr) = 1
    ∧ number_of_visits (root fr') = 2.
Proof.
  eexists _, _, _, _, _.
  split; [vm_compute; reflexivity|].
  split; [vm_compute; reflexivity|].
  split; [vm_compute; reflexivity|].
  split_and!; vm_compute; reflexivity.
Qed.

(** The child of the root after one iteration from ten metres up: one
    visit, the root as parent. *)
Lemma get_uct_score_precondition_witness :
  computational_budget (test_pilot 3 1) < uint_max
  ∧ (N.to_nat (computational_budget (test_pilot 3 1)) < 10)%nat
  ∧ (1 ≤ N.to_nat (computational_budget (test_pilot 3 1)))%nat
  ∧ simulations test_runtime (test_pilot 3 1) 10 1 0
      (root_node test_runtime (test_pilot 3 1) (sinking_state 10))
      (test_machine (sinking_state 10)) = Some (test_tree_1, test_machine_1)
  ∧ lookup_node test_tree_1 [] = Some test_tree_1
  ∧ (∀ c, children test_tree_1 !! 0%nat = Some c →
     0 < number_of_visits c ∧ parent c = Some []
     ∧ get_uct_score (test_pilot 3 1) (mk_frame test_tree_1 test_tree_1) c
       = Some (average_reward c
               + dconst 2 * uct_parameter (test_pilot 3 1)
                 * dsqrt (dconst 2 * dlog (of_uint (number_of_visits test_tree_1))
                          / of_uint (number_of_visits c)))%D).
Proof.
  split; [reflexivity|]. split; [vm_compute; lia|]. split; [vm_compute; lia|].
  split; [vm_compute; reflexivity|]. split; [reflexivity|].
  intros c Hc.
  apply (proj2 (get_uct_score_precondition test_runtime (test_pilot 3 1) 10 1
           (sinking_state 10) (test_machine (sinking_state 10))
           test_tree_1 test_machine_1 test_tree_1
           ltac:(reflexivity) ltac:(vm_compute; lia) ltac:(vm_compute; lia)
           ltac:(vm_compute; reflexivity)) [] test_tree_1 0%nat c eq_refl Hc).
Defined.

(** A rollout of horizon 3 from an altitude of a metre and a half: step 0
    reaches half a metre, step 1 goes below the ground. *)
Lemma default_policy_stops_on_terminal_witness :
  ∃ a0 m1 s1 m2 a1 m3 s2 m4,
    horizon (test_pilot 3 1) = 3
    ∧ rand_element test_runtime (get_expendable_actions (test_pilot 3 1))
        (test_machine (sinking_state 1.5)) = Some (a0, m1)
    ∧ get_transition_model (test_pilot 3 1) (sinking_state 1.5) a0 m1 = Some (s1, m2)
    ∧ is_terminal s1 = false
    ∧ rand_element test_runtime (get_expendable_actions (test_pilot 3 1)) m2
      = Some (a1, m3)
    ∧ get_transition_model (test_pilot 3 1) s1 a1 m3 = Some (s2, m4)
    ∧ is_terminal s2 = true
    ∧ default_policy test_runtime (test_pilot 3 1) (sinking_state 1.5) (q 0)
        (test_machine (sinking_state 1.5))
      = Some (q 0 + dpow (df (test_pilot 3 1)) (of_uint 0)
                    * get_reward_model (sinking_state 1.5) a0 s1, m4)%D.
Proof.
  eexists _, _, _, _, _, _, _, _.
  split; [reflexivity|]. split; [vm_compute; reflexivity|].
  split; [vm_compute; reflexivity|]. split; [vm_compute; reflexivity|].
  split; [vm_compute; reflexivity|]. split; [vm_compute; reflexivity|].
  split; [vm_compute; reflexivity|].
  eapply (proj2 (default_policy_stops_on_terminal test_runtime (test_pilot 3 1)
                  (sinking_state 1.5) (q 0) (test_machine (sinking_state 1.5))));
    vm_compute; reflexivity.
Defined.

(** C5 on a run: three iterations from ten metres up leave a root visited
    four times. *)
Lemma root_visits_counterexample :
  ∃ t m', test_simulations 3 3 (N.to_nat (computational_budget (test_pilot 3 3)))
            (sinking_state 10) = Some (t, m')
          ∧ number_of_visits t = 4
          ∧ number_of_visits t ≠ computational_budget (test_pilot 3 3).
Proof. eexists _, _. split; [vm_compute; reflexivity|]. split; [reflexivity|done]. Qed.

(** Three iterations from ten metres up, with a recursion depth of 10. *)
Lemma root_visits_after_budget_witness :
  is_terminal (sinking_state 10) = false
  ∧ computational_budget (test_pilot 3 3) < uint_max
  ∧ (N.to_nat (computational_budget (test_pilot 3 3)) < 10)%nat
  ∧ ∃ t m',
      simulations test_runtime (test_pilot 3 3) 10
        (N.to_nat (computational_budget (test_pilot 3 3))) 0
        (root_node test_runtime (test_pilot 3 3) (sinking_state 10))
        (test_machine (sinking_state 10)) = Some (t, m')
      ∧ number_of_visits t = (1 + computational_budget (test_pilot 3 3)) `mod` 2 ^ 32.
Proof.
  split; [reflexivity|]. split; [reflexivity|]. split; [vm_compute; lia|].
  apply (root_visits_after_budget test_runtime (test_pilot 3 3) 10 (sinking_state 10)
           (test_machine (sinking_state 10)));
    [reflexivity | reflexivity | vm_compute; lia].
Defined.

(** C6 on a run: one metre below the ground, with a budget of 5, the call
    selects nothing, where [out_of_range] writes the recovery command. *)
Lemma select_action_terminal_root_counterexample :
  is_terminal (sinking_state (-1)) = true
  ∧ test_select_action 3 5 (sinking_state (-1)) = None
  ∧ is_Some (out_of_range (test_pilot 3 5) (test_machine (sinking_state (-1))))
  ∧ test_select_action 3 5 (sinking_state (-1))
    ≠ out_of_range (test_pilot 3 5) (test_machine (sinking_state (-1))).
Proof.
  split; [reflexivity|]. split; [vm_compute; reflexivity|].
  split; [vm_compute; eauto|]. vm_compute. discriminate.
Qed.

(** One metre below the ground, with a budget of 5. *)
Lemma select_action_terminal_root_witness :
  is_terminal (arg_state (test_machine (sinking_state (-1)))) = true
  ∧ select_action test_runtime (test_pilot 3 5) 10 (test_machine (sinking_state (-1)))
    = None.
Proof.
  split; [reflexivity|].
  apply (select_action_terminal_root test_runtime (test_pilot 3 5) 10
           (test_machine (sinking_state (-1)))).
  reflexivity.
Defined.

(** C8 on a run: ten metres up with a budget of zero the call selects
    nothing. *)
Lemma select_action_no_budget_counterexample :
  computational_budget (test_pilot 3 0) = 0
  ∧ ¬ is_Some (test_select_action 3 0 (sinking_state 10)).
Proof. split; [reflexivity|]. vm_compute. by intros [? ?]. Qed.

(** Ten metres up, with a budget of zero. *)
Lemma select_action_no_budget_witness :
  computational_budget (test_pilot 3 0) = 0
  ∧ select_action test_runtime (test_pilot 3 0) 10 (test_machine (sinking_state 10))
    = None.
Proof.
  split; [reflexivity|].
  apply (select_action_no_budget test_runtime (test_pilot 3 0) 10
           (test_machine (sinking_state 10))).
  reflexivity.
Defined.

(** C9 on a run: after one iteration from ten metres up the pilot's
    aircraft holds the last state of the rollout, six metres up, not the
    state it held at the call. *)
Lemma select_action_overwrites_aircraft :
  ∃ m', test_select_action 3 1 (sinking_state 10) = Some (tt, m')
        ∧ ac_state (ac (test_machine (sinking_state 10))) = zero_state
        ∧ z (ac_state (ac m')) = q 6
        ∧ ac m' ≠ ac (test_machine (sinking_state 10)).
Proof.
  eexists. split; [vm_compute; reflexivity|]. split; [reflexivity|].
  split; [reflexivity|]. vm_compute. discriminate.
Qed.

(** The same call: the state it was given and the flat zone are after the
    call what they were before. *)
Lemma select_action_frame_witness :
  select_action test_runtime (test_pilot 3 1) 10 (test_machine (sinking_state 10))
  = Some (tt, mk_machine (arg_state test_machine_1)
                (mk_command (q 0) (q 0) (q 0.01)) (ac test_machine_1)
                (fz test_machine_1) 5)
  ∧ arg_state test_machine_1 = arg_state (test_machine (sinking_state 10))
  ∧ fz test_machine_1 = fz (test_machine (sinking_state 10)).
Proof.
  assert (Hrun :
    select_action test_runtime (test_pilot 3 1) 10 (test_machine (sinking_state 10))
    = Some (tt, mk_machine (arg_state test_machine_1)
                  (mk_command (q 0) (q 0) (q 0.01)) (ac test_machine_1)
                  (fz test_machine_1) 5)) by (vm_compute; reflexivity).
  split; [exact Hrun|].
  destruct (select_action_frame test_runtime (test_pilot 3 1) 10
              (test_machine (sinking_state 10)) _ Hrun) as (Hs & Hz & _).
  split; [exact Hs|]. apply Hz. reflexivity.
Defined.

(** C7 on a run: in the first iteration from ten metres up [reward] holds 5
    when the rollout begins; the three steps earn -1 each, their sum is -3,
    and the rollout returns 2. *)
Theorem default_policy_uninitialised_return :
  ∃ fr m1 m2,
    tree_policy test_runtime (test_pilot 3 1) 10 (test_frame 3 1 (sinking_state 10))
      [] (test_machine (sinking_state 10)) = Some (fr, m1)
    ∧ uninitialised test_runtime 0 = q 5
    ∧ default_policy test_runtime (test_pilot 3 1) (get_state (local fr))
        (uninitialised test_runtime 0) m1 = Some (q 2, m2)
    ∧ discounted_sum (test_pilot 3 1) (dconst 0)
        (rollout_steps test_runtime (test_pilot 3 1) 3 0 (get_state (local fr)) m1)
      = q (-3)
    ∧ length (rollout_steps test_runtime (test_pilot 3 1) 3 0 (get_state (local fr)) m1)
      = 3%nat.
Proof.
  eexists _, _, _. split; [vm_compute; reflexivity|].
  split_and!; vm_compute; reflexivity.
Qed.

(** * The trees that the loop of [operator()] builds *)

Section Reachable.

Context {D : Type} `{Double D} {FZ : Type}.
Variable rt : runtime D.
Variable pl : b03_uct_pilot D FZ.

Implicit Types (t n c : b03_node D) (p q : node_ref) (m : machine D FZ).

(** The nodes of a tree after an expansion: the expanded node, its new
    child, and the nodes that were there, each as it was. *)
Lemma lookup_expand t q nq indice c p n' :
  lookup_node t q = Some nq → children c = [] →
  lookup_node (update_node t q (λ _, expand_node nq indice c)) p = Some n' →
  (p = q ∧ n' = expand_node nq indice c)
  ∨ (p = q ++ [length (children nq)] ∧ n' = c)
  ∨ (p ≠ q ∧ p ≠ q ++ [length (children nq)]
     ∧ ∃ n, lookup_node t p = Some n ∧ node_info n = node_info n').
Proof.
  intros Hq Hc Hp.
  destruct (decide (q `prefix_of` p)) as [[y ->]|Hn].
  - rewrite (lookup_update_node_ext _ _ _ _ nq) in Hp by done.
    destruct y as [|k y].
    + left. simpl in Hp. injection Hp as <-. by rewrite app_nil_r.
    + simpl in Hp. destruct (decide (k < length (children nq))%nat) as [Hk|Hk].
      * rewrite lookup_app_l in Hp by done. right. right.
        split; [|split].
        -- intros E. apply (f_equal length) in E. rewrite length_app in E.
           simpl in E. lia.
        -- intros E. apply app_inv_head in E. injection E as -> _. lia.
        -- exists n'. split; [|done]. rewrite lookup_node_app, Hq. done.
      * rewrite lookup_app_r in Hp by lia.
        destruct (k - length (children nq))%nat as [|k'] eqn:Ek; simpl in Hp; [|done].
        destruct y as [|k2 y]; simpl in Hp.
        -- injection Hp as <-. right. left. split; [|done].
           do 2 f_equal. lia.
        -- by rewrite Hc in Hp.
  - right. right.
    pose proof (lookup_update_node_other t q
      (λ _, expand_node nq indice c) p Hn) as Ho.
    rewrite Hp in Ho. symmetry in Ho.
    apply fmap_info_Some in Ho as (n & Hn' & Hi).
    split; [|split].
    + intros ->. by destruct Hn.
    + intros ->. destruct Hn. by apply prefix_app_r.
    + by exists n.
Qed.

(** The tree policy either leaves the tree as it is, or hangs below one
    of its nodes a child built from a state that the transition model
    returned. *)
Lemma tree_policy_new_child fuel (fr : @frame D) p m fr' m' :
  tree_policy rt pl fuel fr p m = Some (fr', m') →
  root fr' = root fr
  ∨ ∃ q nq indice a s' m1 m2,
      lookup_node (root fr) q = Some nq
      ∧ get_transition_model pl (get_state nq) a m1 = Some (s', m2)
      ∧ local fr' = new_child_of pl q nq a s'
      ∧ root fr'
        = update_node (root fr) q
            (λ _, expand_node nq indice (new_child_of pl q nq a s')).
Proof.
  revert p m. induction fuel as [|fuel IH]; intros p m Htp; [done|].
  destruct (lookup_node (root fr) p) as [v0|] eqn:Hv0.
  2:{ simpl in Htp. unfold bind, lift in Htp. by rewrite Hv0 in Htp. }
  destruct (is_terminal (get_state v0)) eqn:Ht.
  { rewrite (tree_policy_terminal _ _ _ _ _ v0) in Htp by done.
    injection Htp as <- <-. by left. }
  destruct (is_fully_expanded v0) eqn:Hf.
  - rewrite (tree_policy_descend _ _ _ _ _ v0) in Htp by done.
    apply bind_Some in Htp as (i & m1 & _ & Htp). by eapply IH.
  - destruct (tree_policy_expand rt pl fuel fr p v0 m Hv0 Ht Hf)
      as (a & s' & m2 & _ & Hs & Heq).
    cbv zeta in Heq. rewrite Heq in Htp. injection Htp as <- <-. right.
    by eexists p, v0, _, a, s', _, _.
Qed.

(** One iteration from a well-formed tree is a step of [sim_step]. *)
Lemma simulation_sim_step j t fuel i m t' m' :
  well_formed j t → j + 1 < uint_max → (N.to_nat j + 1 < fuel)%nat →
  simulation rt pl fuel i t m = Some (t', m') → sim_step pl t t'.
Proof.
  intros Hwf Hj Hfuel Hsim.
  destruct fuel as [|fuel]; [lia|].
  destruct (is_terminal (get_state t)) eqn:Hroot.
  { apply sim_terminal_root; [done|].
    destruct (simulation_terminal_root rt pl fuel i t m Hroot) as (m1 & Hs).
    { by destruct (Hwf [] t eq_refl). }
    congruence. }
  destruct (tree_policy_total rt pl j t
              (blank_node rt pl) (S fuel) [] t m Hwf)
    as (q & nq & m1 & _ & Hq & Hway
        & [[Hterm Htp]|[Hterm (indice & a & s' & Ha & Htp)]]);
    [done | simpl; lia | |].
  - destruct (default_policy_total rt pl (get_state nq) (uninitialised rt i) m1)
      as (r' & m2 & Hdp).
    pose proof (Hwf _ _ Hq) as [Hd Hpa Hv Hlev Har].
    destruct q as [|k q0 _] using rev_ind.
    { simpl in Hq. injection Hq as ->. congruence. }
    destruct (lookup_node_snoc_inv _ _ _ _ Hq) as (n0 & Hq0 & _).
    rewrite length_app in Hd, Hlev. simpl in Hd, Hlev.
    destruct (backup_local_below pl fuel t nq q0 n0 r') as (t1 & Hb & Hrel);
      [lia | by eapply Hpa | by eapply well_formed_linked | done | lia |].
    pose proof (simulation_Some rt pl _ i _ _ _ _ _ _ _ Htp Hdp Hb) as Hs.
    rewrite Hs in Hsim. injection Hsim as <- <-.
    eapply (sim_terminal_node pl t t1 q0 k nq r'); [done..| |done].
    intros x nx Hx Hlx. apply (Hway x nx); [apply prefix_nil | | | done].
    + by apply prefix_app_r.
    + intros ->. by apply prefix_snoc_not in Hx.
  - cbv zeta in Htp.
    set (c := new_child_of pl q nq a s') in *.
    set (t1 := update_node t q (λ _, expand_node nq indice c)) in *.
    destruct (default_policy_total rt pl (get_state c) (uninitialised rt i) m1)
      as (r' & m2 & Hdp).
    pose proof (Hwf _ _ Hq) as [Hd Hpa Hv Hlev Har].
    assert (Hwf1 : well_formed (j + 1) t1) by (by apply well_formed_expand).
    assert (Hq1 : lookup_node t1 q = Some (expand_node nq indice c)).
    { exact (lookup_update_node_same t q (λ _, expand_node nq indice c) nq Hq). }
    destruct (backup_local_below pl fuel t1 c q (expand_node nq indice c) r')
      as (t2 & Hb & Hrel).
    { simpl. rewrite Hd. rewrite wrap_small by lia. lia. }
    { done. }
    { by eapply well_formed_linked. }
    { done. }
    { lia. }
    pose proof (simulation_Some rt pl _ i _ _ _ _ _ _ _ Htp Hdp Hb) as Hs.
    rewrite Hs in Hsim. injection Hsim as <- <-.
    eapply (sim_expansion pl t t2 q nq indice a s' r'); [done..| | |done].
    + destruct (tree_policy_new_child _ _ _ _ _ _ Htp)
        as [Heq|(q2 & nq2 & i2 & a2 & s2 & m3 & m4 & Hq2 & Htr & Hloc & _)].
      * simpl in Heq. exfalso.
        pose proof (tree_size_update_node t q (λ _, expand_node nq indice c) nq 1 Hq
                      (tree_size_expand_node nq indice c eq_refl)) as Hsz.
        fold t1 in Hsz. rewrite Heq in Hsz. lia.
      * simpl in Hloc, Hq2. unfold c, new_child_of in Hloc.
        injection Hloc as -> -> _ ->. rewrite Hq in Hq2. injection Hq2 as <-.
        by exists m3, m4.
    + intros x nx Hx Hne Hlx. apply (Hway x nx); [apply prefix_nil | done..].
Qed.

(** One iteration keeps a tree well formed, whatever its root. *)
Lemma simulation_well_formed j t fuel i m t' m' :
  well_formed j t → leaves_below_expandable t →
  j + 1 < uint_max → (N.to_nat j + 1 < fuel)%nat →
  simulation rt pl fuel i t m = Some (t', m') →
  well_formed (j + 1) t' ∧ leaves_below_expandable t'.
Proof.
  intros Hwf Hlv Hj Hfuel Hsim.
  destruct (is_terminal (get_state t)) eqn:Hroot.
  - destruct fuel as [|fuel]; [lia|].
    destruct (simulation_terminal_root rt pl fuel i t m Hroot) as (m1 & Hs).
    { by destruct (Hwf [] t eq_refl). }
    rewrite Hs in Hsim. injection Hsim as <- <-. split; [|done].
    eapply well_formed_mono; [|done]. lia.
  - destruct (simulation_total rt pl j t fuel i m Hwf Hlv Hj Hfuel Hroot)
      as (t1 & m1 & Hs & Hwf1 & Hlv1 & _).
    rewrite Hs in Hsim. by injection Hsim as <- <-.
Qed.

(** Induction on the iterations of the loop of [operator()]: what holds
    of the root node [operator()] starts from, and is kept by every step
    between well-formed trees, holds of the tree after [k] iterations. *)
Lemma simulations_invariant (P : N → b03_node D → Prop) fuel k s0 m t m' :
  N.of_nat k < uint_max → (k < fuel)%nat →
  P 0 (root_node rt pl s0) →
  (∀ j t1 t2, j < N.of_nat k →
     well_formed j t1 → leaves_below_expandable t1 → well_formed (j + 1) t2 →
     sim_step pl t1 t2 → P j t1 → P (j + 1) t2) →
  simulations rt pl fuel k 0 (root_node rt pl s0) m = Some (t, m') →
  P (N.of_nat k) t.
Proof.
  intros Hk Hfuel H0 Hstep Hsim.
  assert (Hgen : ∀ k' j t0 i m0,
    (N.to_nat j + k' = k)%nat →
    well_formed j t0 → leaves_below_expandable t0 → P j t0 →
    simulations rt pl fuel k' i t0 m0 = Some (t, m') → P (N.of_nat k) t).
  { clear Hsim. induction k' as [|k' IH]; intros j t0 i m0 Hjk Hwf Hlv HP Hs.
    - simpl in Hs. injection Hs as <- <-.
      replace (N.of_nat k) with j by lia. done.
    - rewrite simulations_S in Hs.
      apply bind_Some in Hs as (t1 & m1 & Hs1 & Hs).
      destruct (simulation_well_formed j t0 fuel i m0 t1 m1 Hwf Hlv)
        as [Hwf1 Hlv1]; [lia | lia | done |].
      apply (IH (j + 1) t1 (i + 1) m1); [lia | done | done | | done].
      apply (Hstep j t0 t1); [lia | done..| | done].
      apply (simulation_sim_step j t0 fuel i m0 t1 m1); [done | lia | lia | done]. }
  apply (Hgen k 0 (root_node rt pl s0) 0 m); [lia | | | done | done].
  - apply well_formed_root_node.
  - apply leaves_root_node.
Qed.

End Reachable.

(** * Invariants of the trees that the loop builds *)

Section TreeInvariants.

Context {D : Type} `{Double D} {FZ : Type}.
Variable rt : runtime D.
Variable pl : b03_uct_pilot D FZ.

Implicit Types (t n c : b03_node D) (p q : node_ref) (m : machine D FZ).

Lemma children_of_prefix t p x y n n' :
  lookup_node t p = Some n → lookup_node t (p ++ x :: y) = Some n' →
  children n ≠ [].
Proof.
  intros Hp. rewrite lookup_node_app, Hp. simpl.
  intros Hx Hnil. by rewrite Hnil in Hx.
Qed.

Lemma children_of_strict_prefix t p q n nq :
  lookup_node t p = Some n → lookup_node t q = Some nq →
  p `prefix_of` q → p ≠ q → children n ≠ [].
Proof.
  intros Hp Hq [y ->] Hne. destruct y as [|x y].
  - by rewrite app_nil_r in Hne.
  - by eapply children_of_prefix.
Qed.

Lemma children_nil_length n n' :
  length (children n') = length (children n) → children n' = [] ↔ children n = [].
Proof. intros Hl. destruct (children n), (children n'); naive_solver. Qed.

(** A node of a tree after a backup: the node that was there, with one
    more visit and the discounted return added when the backup went
    through it, and as it was otherwise. *)
Lemma backed_up_cases r q t t' p n' :
  backed_up pl r q t t' → lookup_node t' p = Some n' →
  ∃ n, lookup_node t p = Some n
    ∧ get_state n' = get_state n ∧ incoming_action n' = incoming_action n
    ∧ expendable_actions n' = expendable_actions n
    ∧ depth n' = depth n ∧ parent n' = parent n
    ∧ length (children n') = length (children n)
    ∧ ((p `prefix_of` q
        ∧ number_of_visits n' = wrap (number_of_visits n + 1)
        ∧ average_reward n'
          = (average_reward n + dpow (df pl) (of_uint (depth n)) * r)%D)
       ∨ (¬ p `prefix_of` q
          ∧ number_of_visits n' = number_of_visits n
          ∧ average_reward n' = average_reward n)).
Proof.
  intros Hb Hp.
  destruct (backed_up_lookup pl _ _ _ _ _ _ Hb Hp) as (n & Hn & Hi).
  exists n. split; [done|].
  destruct (node_info_fields _ _ Hi) as (Hs & Ha & He & Hr & Hv & Hd & Hpa & Hl).
  destruct (decide (p `prefix_of` q)) as [Hpre|Hpre]; simpl in *;
    (split_and!; [done..|]); [left | right]; done.
Qed.

(** The nodes stay where they are in a backup. *)
Lemma backed_up_lookup_inv r q t t' p n :
  backed_up pl r q t t' → lookup_node t p = Some n →
  ∃ n', lookup_node t' p = Some n'.
Proof.
  intros Hb Hp. specialize (Hb p). rewrite Hp in Hb.
  destruct (lookup_node t' p); [eauto|done].
Qed.

(** The visit counts of a well-formed tree whose root was visited at most
    [j + 1] times. *)
Lemma visits_bounds j t p n :
  well_formed j t → 1 ≤ number_of_visits t ≤ j + 1 →
  lookup_node t p = Some n → 1 ≤ number_of_visits n ≤ j + 1.
Proof.
  intros Hwf Hroot Hp. destruct p as [|i p].
  - simpl in Hp. by injection Hp as <-.
  - destruct (ok_visits _ _ _ (Hwf _ _ Hp)); [done|]. lia.
Qed.

(** ** The leaves keep the statistics they were built with *)

Lemma leaf_statistics_step j t1 t2 :
  j + 2 < uint_max → well_formed j t1 → sim_step pl t1 t2 →
  1 ≤ number_of_visits t1 ≤ j + 1 ∧ leaf_statistics t1 →
  1 ≤ number_of_visits t2 ≤ j + 1 + 1 ∧ leaf_statistics t2.
Proof.
  intros Hj Hwf Hstep [Hroot Hleaf].
  assert (Hvis : ∀ p n, lookup_node t1 p = Some n → 1 ≤ number_of_visits n ≤ j + 1).
  { intros p n. by apply visits_bounds. }
  destruct Hstep as [Hterm ->|q k nq r Hq Hterm _ Hb|q nq indice a s' r Hq Hterm Ha Htr Hway Hb].
  - split; [lia|done].
  - assert (Hnode : ∀ p n', lookup_node t2 p = Some n' →
              1 ≤ number_of_visits n' ≤ j + 1 + 1
              ∧ (children n' = [] →
                 number_of_visits n' = 1 ∧ average_reward n' = dconst 0)
              ∧ (children n' ≠ [] → 2 ≤ number_of_visits n')).
    { intros p n' Hp.
      destruct (backed_up_cases _ _ _ _ _ _ Hb Hp)
        as (n & Hn & _ & _ & _ & _ & _ & Hl & Hcase).
      destruct (Hleaf _ _ Hn) as [Hl0 Hl1]. pose proof (Hvis _ _ Hn) as Hv.
      pose proof (children_nil_length _ _ Hl) as Hnil.
      destruct Hcase as [(Hpre & Hv' & Hr')|(Hpre & Hv' & Hr')].
      - assert (Hc : children n ≠ []).
        { apply (children_of_strict_prefix t1 p (q ++ [k]) n nq); [done..| |].
          - by apply prefix_app_r.
          - intros ->. by apply prefix_snoc_not in Hpre. }
        specialize (Hl1 Hc). rewrite Hv', wrap_small by lia.
        split; [lia|]. split; [|lia]. intros E. by apply Hnil in E.
      - rewrite Hv', Hr'. split; [lia|]. split.
        + intros E. apply Hl0. by apply Hnil.
        + intros E. apply Hl1. intros E'. by apply Hnil in E'. }
    split; [exact (proj1 (Hnode [] t2 eq_refl))|].
    intros p n' Hp. exact (proj2 (Hnode p n' Hp)).
  - set (c := new_child_of pl q nq a s') in *.
    set (tm := update_node t1 q (λ _, expand_node nq indice c)) in *.
    assert (Hnode : ∀ p n', lookup_node t2 p = Some n' →
              1 ≤ number_of_visits n' ≤ j + 1 + 1
              ∧ (children n' = [] →
                 number_of_visits n' = 1 ∧ average_reward n' = dconst 0)
              ∧ (children n' ≠ [] → 2 ≤ number_of_visits n')).
    { intros p n' Hp.
      destruct (backed_up_cases _ _ _ _ _ _ Hb Hp)
        as (nm & Hnm & _ & _ & _ & _ & _ & Hl & Hcase).
      pose proof (children_nil_length _ _ Hl) as Hnil.
      destruct (lookup_expand t1 q nq indice c p nm Hq eq_refl Hnm)
        as [[-> ->]|[[-> ->]|(Hpq & Hpc & n & Hn & Hi)]].
      + (* the expanded node *)
        pose proof (Hvis _ _ Hq) as Hv.
        destruct Hcase as [(_ & Hv' & _)|(Hpre & _)]; [|by destruct Hpre].
        simpl in Hv', Hl. rewrite Hv', wrap_small by lia.
        split; [lia|]. split; [|lia].
        intros E. rewrite E, length_app in Hl. simpl in Hl. lia.
      + (* the new child *)
        destruct Hcase as [(Hpre & _)|(_ & Hv' & Hr')].
        { by apply prefix_snoc_not in Hpre. }
        simpl in Hv', Hr', Hl. rewrite Hv', Hr'. split; [lia|]. split; [done|].
        intros E. by destruct (children n').
      + (* a node that was there *)
        destruct (node_info_fields _ _ Hi) as (_ & _ & _ & Hr0 & Hv0 & _ & _ & Hl0).
        destruct (Hleaf _ _ Hn) as [Hleaf0 Hleaf1]. pose proof (Hvis _ _ Hn) as Hv.
        assert (Hnil' : children nm = [] ↔ children n = []).
        { by apply children_nil_length. }
        destruct Hcase as [(Hpre & Hv' & Hr')|(Hpre & Hv' & Hr')].
        * assert (Hc : children n ≠ []).
          { by apply (children_of_strict_prefix t1 p q n nq). }
          specialize (Hleaf1 Hc). rewrite Hv', <- Hv0, wrap_small by lia.
          split; [lia|]. split; [|lia].
          intros E. apply Hnil, Hnil' in E. done.
        * rewrite Hv', Hr', <- Hv0, <- Hr0. split; [lia|]. split.
          -- intros E. apply Hleaf0. by apply Hnil', Hnil.
          -- intros E. apply Hleaf1. intros E'. by apply Hnil', Hnil in E'. }
    split; [exact (proj1 (Hnode [] t2 eq_refl))|].
    intros p n' Hp. exact (proj2 (Hnode p n' Hp)).
Qed.

(** ** Every action is tried once *)

(** The incoming actions of the children of a node, read through the
    references to the children. *)
Lemma children_actions t t' p n n' :
  lookup_node t p = Some n → lookup_node t' p = Some n' →
  (∀ i, incoming_action <$> lookup_node t' (p ++ [i])
        = incoming_action <$> lookup_node t (p ++ [i])) →
  map incoming_action (children n') = map incoming_action (children n).
Proof.
  intros Hp Hp' Hi. apply list_eq. intros i. rewrite !list_lookup_fmap.
  specialize (Hi i). rewrite !lookup_node_app, Hp, Hp' in Hi. simpl in Hi.
  by destruct (children n' !! i), (children n !! i).
Qed.

Lemma backed_up_incoming r q t t' p :
  backed_up pl r q t t' →
  incoming_action <$> lookup_node t' p = incoming_action <$> lookup_node t p.
Proof.
  intros Hb. destruct (lookup_node t' p) as [n'|] eqn:Hp.
  - destruct (backed_up_cases _ _ _ _ _ _ Hb Hp) as (n & Hn & _ & Ha & _).
    rewrite Hn. simpl. by rewrite Ha.
  - destruct (lookup_node t p) as [n|] eqn:Hn; [|done].
    destruct (backed_up_lookup_inv _ _ _ _ _ _ Hb Hn) as [n' Hn']. congruence.
Qed.

Lemma actions_partitioned_backed_up r q t t' :
  backed_up pl r q t t' → actions_partitioned pl t → actions_partitioned pl t'.
Proof.
  intros Hb Hact p n' Hp.
  destruct (backed_up_cases _ _ _ _ _ _ Hb Hp) as (n & Hn & _ & _ & He & _).
  rewrite He, (children_actions t t' p n n'); [by apply (Hact p) | done | done |].
  intros i. by eapply backed_up_incoming.
Qed.

Lemma actions_partitioned_expand t q nq indice a s' :
  lookup_node t q = Some nq → expendable_actions nq !! indice = Some a →
  actions_partitioned pl t →
  actions_partitioned pl
    (update_node t q (λ _, expand_node nq indice (new_child_of pl q nq a s'))).
Proof.
  intros Hq Ha Hact p n' Hp.
  set (c := new_child_of pl q nq a s') in *.
  destruct (lookup_expand t q nq indice c p n' Hq eq_refl Hp)
    as [[-> ->]|[[-> ->]|(Hpq & Hpc & n & Hn & Hi)]].
  - simpl. rewrite map_app. simpl. rewrite <- (Hact _ _ Hq).
    rewrite <- app_assoc. apply Permutation_app_head. simpl.
    symmetry. by apply delete_Permutation.
  - done.
  - destruct (node_info_fields _ _ Hi) as (_ & _ & He & _ & _ & _ & _ & Hl).
    rewrite <- He. rewrite <- (Hact _ _ Hn).
    assert (E : map incoming_action (children n') = map incoming_action (children n));
      [|by rewrite E].
    apply list_eq. intros i. rewrite !list_lookup_fmap.
    destruct (children n' !! i) as [c'|] eqn:Hc'; simpl.
    + pose proof (lookup_node_snoc _ _ _ _ _ Hp Hc') as Hpi.
      destruct (lookup_expand t q nq indice c (p ++ [i]) c' Hq eq_refl Hpi)
        as [[E ->]|[[E ->]|(_ & _ & c0 & Hc0 & Hi0)]].
      * rewrite <- E in Hq. apply lookup_node_snoc_inv in Hq as (n0 & Hn0 & Hci).
        rewrite Hn in Hn0. injection Hn0 as <-. by rewrite Hci.
      * apply app_inj_tail in E as [-> _]. done.
      * apply lookup_node_snoc_inv in Hc0 as (n0 & Hn0 & Hci).
        rewrite Hn in Hn0. injection Hn0 as <-. rewrite Hci. simpl.
        destruct (node_info_fields _ _ Hi0) as (_ & Hin & _). by rewrite Hin.
    + apply lookup_ge_None in Hc'. rewrite <- Hl in Hc'.
      apply lookup_ge_None in Hc'. by rewrite Hc'.
Qed.

Lemma actions_partitioned_step t1 t2 :
  sim_step pl t1 t2 → actions_partitioned pl t1 → actions_partitioned pl t2.
Proof.
  intros [Hterm ->|q k nq r Hq Hterm _ Hb|q nq indice a s' r Hq Hterm Ha Htr Hway Hb] Hact.
  - done.
  - by eapply actions_partitioned_backed_up.
  - eapply actions_partitioned_backed_up; [done|].
    by apply actions_partitioned_expand.
Qed.

Lemma actions_partitioned_root_node s0 :
  actions_partitioned pl (root_node rt pl s0).
Proof.
  intros p n Hp. destruct p as [|i p]; [|done].
  simpl in Hp. by injection Hp as <-.
Qed.

(** ** The size of the tree *)

Lemma backup_size fuel (fr fr' : @frame D) l r :
  backup pl fuel fr l r = Some fr' → tree_size (root fr') = tree_size (root fr).
Proof.
  revert fr l. induction fuel as [|fuel IH]; intros fr l Hb; [done|].
  simpl in Hb. destruct (load fr l) as [v|] eqn:Hv; simpl in Hb; [|done].
  assert (Hst : tree_size (root (store fr l (backup_node pl v r)))
                = tree_size (root fr)).
  { destruct l as [|p]; [done|]. simpl in *.
    rewrite (tree_size_update_node _ _ _ v 0); [lia | done |].
    rewrite (tree_size_children (backup_node _ _ _)), (tree_size_children v).
    simpl. lia. }
  destruct (0 <? depth v).
  - destruct (parent v) as [pq|]; simpl in Hb; [|done].
    apply IH in Hb. congruence.
  - injection Hb as <-. done.
Qed.

Lemma tree_policy_size_ge fuel (fr : @frame D) p m fr' m' :
  tree_policy rt pl fuel fr p m = Some (fr', m') →
  (tree_size (root fr) ≤ tree_size (root fr'))%nat.
Proof.
  revert p m. induction fuel as [|fuel IH]; intros p m Htp; [done|].
  destruct (lookup_node (root fr) p) as [v0|] eqn:Hv0.
  2:{ simpl in Htp. unfold bind, lift in Htp. by rewrite Hv0 in Htp. }
  destruct (is_terminal (get_state v0)) eqn:Ht.
  { rewrite (tree_policy_terminal _ _ _ _ _ v0) in Htp by done.
    injection Htp as <- <-. simpl. lia. }
  destruct (is_fully_expanded v0) eqn:Hf.
  - rewrite (tree_policy_descend _ _ _ _ _ v0) in Htp by done.
    apply bind_Some in Htp as (i & m1 & _ & Htp). by eapply IH.
  - destruct (tree_policy_expand rt pl fuel fr p v0 m Hv0 Ht Hf)
      as (a & s' & m2 & _ & _ & Heq).
    cbv zeta in Heq. rewrite Heq in Htp. injection Htp as <- <-. simpl.
    erewrite tree_size_update_node; [|done|by apply tree_size_expand_node]. lia.
Qed.

End TreeInvariants.

(** * The action that [operator()] selects *)

Section BestAction.

Context {D : Type} `{Double D} {FZ : Type}.
Variable rt : runtime D.

Implicit Types (t n c : b03_node D) (p q : node_ref) (m : machine D FZ).

(** What [get_best_action] returns when it returns. *)
Lemma get_best_action_Some v0 m a m' :
  get_best_action rt v0 m = Some (a, m') →
  let scores := map average_reward (children v0) in
  ∃ i c, sort_indices scores
           !! (rand_seq rt (rand_calls m) `mod` length (sort_indices scores))%nat
         = Some i
    ∧ children v0 !! i = Some c ∧ a = incoming_action c ∧ m' = after_rand m.
Proof.
  intros Hb scores. unfold get_best_action in Hb.
  apply bind_Some in Hb as (i & m1 & Hre & Hb).
  apply bind_Some in Hb as (c & m2 & Hc & Hb).
  apply lift_Some in Hc as [Hc ->]. injection Hb as <- <-.
  unfold rand_element in Hre. apply bind_Some in Hre as (k & m3 & Hk & Hl).
  apply lift_Some in Hl as [Hl ->].
  unfold rand_indice in Hk. fold scores in Hk, Hl.
  destruct (sort_indices scores) as [|x0 l0] eqn:E; [done|].
  injection Hk as <- <-. by exists i, c.
Qed.

End BestAction.

(** * More on the pilot: the trees it builds and the command it writes *)

Section SearchTree.

Context {D : Type} `{Double D} {FZ : Type}.
Variable rt : runtime D.
Variable pl : b03_uct_pilot D FZ.

Implicit Types (t n c : b03_node D) (p q : node_ref) (m : machine D FZ).

(** The two invariants along the iterations. *)
Lemma simulations_actions_partitioned fuel k s0 m t m' :
  N.of_nat k < uint_max → (k < fuel)%nat →
  simulations rt pl fuel k 0 (root_node rt pl s0) m = Some (t, m') →
  actions_partitioned pl t.
Proof.
  intros Hk Hfuel Hsim.
  apply (simulations_invariant rt pl (λ _, actions_partitioned pl)
           fuel k s0 m t m'); [done | done | | | done].
  - apply actions_partitioned_root_node.
  - intros j t1 t2 _ _ _ _ Hstep. by apply actions_partitioned_step.
Qed.

Lemma simulations_leaf_statistics fuel k s0 m t m' :
  N.of_nat k + 1 < uint_max → (k < fuel)%nat →
  simulations rt pl fuel k 0 (root_node rt pl s0) m = Some (t, m') →
  1 ≤ number_of_visits t ≤ N.of_nat k + 1 ∧ leaf_statistics t.
Proof.
  intros Hk Hfuel Hsim.
  apply (simulations_invariant rt pl
           (λ j t0, 1 ≤ number_of_visits t0 ≤ j + 1 ∧ leaf_statistics t0)
           fuel k s0 m t m'); [lia | done | | | done].
  - split; [simpl; lia|]. intros [|i p0] n0 Hn0; [|done].
    simpl in Hn0. injection Hn0 as <-. done.
  - intros j t1 t2 Hj Hwf1 _ _ Hstep HP1.
    apply (leaf_statistics_step pl j t1 t2); [lia | done..].
Qed.

(** The calls of the pilot leave the state and the command they were
    handed as they are, up to the command that [operator()] writes at its
    end. *)
Lemma keeps_arguments :
  let R := λ m0 m0' : machine D FZ,
             arg_state m0' = arg_state m0 ∧ arg_command m0' = arg_command m0 in
  PreOrder R ∧ (∀ m0, R m0 (after_rand m0))
  ∧ (∀ s1 a0, keeps R (get_transition_model pl s1 a0)).
Proof.
  intros R. split_and!.
  - split; [by intros ?|]. intros ? ? ? [? ?] [? ?]. unfold R in *.
    split; congruence.
  - done.
  - intros s1 a0 m0 s' m0' Hs. unfold get_transition_model in Hs.
    destruct (transition_function _ _ _ _ _ _) as [[ac3 fz3] tm].
    by injection Hs as <- <-.
Qed.

(** X1: in the tree that [k] iterations of [operator()] have built, the
    depth of a node is the number of edges between the root and it, and is
    at most [k]; the parent pointer of a node below the root designates
    the node just above it; a node below the root was visited between once
    and [k] times, so that no counter has wrapped. *)
Theorem search_tree_depths fuel k s0 m t m' p n :
  N.of_nat k < uint_max → (k < fuel)%nat →
  simulations rt pl fuel k 0 (root_node rt pl s0) m = Some (t, m') →
  lookup_node t p = Some n →
  depth n = N.of_nat (length p) ∧ (length p ≤ k)%nat
  ∧ (∀ p' i, p = p' ++ [i] →
       parent n = Some p' ∧ is_Some (lookup_node t p')
       ∧ 1 ≤ number_of_visits n ≤ N.of_nat k).
Proof.
  intros Hk Hfuel Hsim Hp.
  destruct (simulations_well_formed rt pl fuel k s0 m t m' Hk Hfuel Hsim) as [Hwf _].
  destruct (Hwf p n Hp) as [Hd Hpa Hv Hlev Har].
  split; [done|]. split; [lia|].
  intros p' i ->. split; [by eapply Hpa|]. split.
  - eapply lookup_node_prefix; [done|]. by apply prefix_app_r.
  - apply Hv. by destruct p'.
Qed.

(** X2: in the tree that [k] iterations of [operator()] have built, the
    incoming actions of the children of a node and the actions the node
    can still expand are, together and counted with their multiplicity,
    the three actions of [get_expendable_actions]: no action is tried
    twice from a node, and a node has at most three children.  So a node
    has no expendable action left exactly when it has as many children as
    there are actions, the test of [is_fully_expanded] in
    pilot/uct/b03_node.hpp. *)
Theorem search_tree_actions fuel k s0 m t m' p n :
  N.of_nat k < uint_max → (k < fuel)%nat →
  simulations rt pl fuel k 0 (root_node rt pl s0) m = Some (t, m') →
  lookup_node t p = Some n →
  map incoming_action (children n) ++ expendable_actions n
    ≡ₚ get_expendable_actions pl
  ∧ (length (children n) + length (expendable_actions n) = 3)%nat
  ∧ (is_fully_expanded n = true
     ↔ length (children n) = length (get_expendable_actions pl)).
Proof.
  intros Hk Hfuel Hsim Hp.
  pose proof (simulations_actions_partitioned fuel k s0 m t m' Hk Hfuel Hsim p n Hp)
    as Hperm.
  split; [done|].
  apply Permutation_length in Hperm.
  rewrite length_app, length_map in Hperm. simpl in Hperm.
  split; [done|]. unfold is_fully_expanded. simpl.
  destruct (expendable_actions n); simpl in Hperm; split; intros; (done || lia).
Qed.

(** X3: in the tree that [k] iterations of [operator()] have built, a node
    without children holds the statistics it was built with, one visit and
    a return of zero, however often the tree policy has ended on it: the
    backup starts from a copy of that node, and reaches the tree at its
    parent.  A node with children was visited twice at least. *)
Theorem leaves_keep_initial_statistics fuel k s0 m t m' p n :
  N.of_nat k + 1 < uint_max → (k < fuel)%nat →
  simulations rt pl fuel k 0 (root_node rt pl s0) m = Some (t, m') →
  lookup_node t p = Some n →
  (children n = [] → number_of_visits n = 1 ∧ average_reward n = dconst 0)
  ∧ (children n ≠ [] → 2 ≤ number_of_visits n).
Proof.
  intros Hk Hfuel Hsim Hp.
  destruct (simulations_leaf_statistics fuel k s0 m t m' Hk Hfuel Hsim) as [_ Hleaf].
  by apply (Hleaf p n).
Qed.

(** X4: the loop of [operator()] changes the size of the tree by at most
    one node per iteration, and never removes a node: after [k] iterations
    from a single root the tree has between 1 and [k + 1] nodes. *)
Theorem simulations_tree_size fuel k i t0 m t m' :
  simulations rt pl fuel k i t0 m = Some (t, m') →
  (tree_size t0 ≤ tree_size t ≤ tree_size t0 + k)%nat
  ∧ (∀ s0, t0 = root_node rt pl s0 → (1 ≤ tree_size t ≤ k + 1)%nat).
Proof.
  intros Hsim.
  assert (Hsize : (tree_size t0 ≤ tree_size t ≤ tree_size t0 + k)%nat).
  { revert i t0 m Hsim. induction k as [|k IH]; intros i t0 m Hsim.
    - simpl in Hsim. injection Hsim as <- <-. lia.
    - rewrite simulations_S in Hsim.
      apply bind_Some in Hsim as (t1 & m1 & Hs1 & Hsim).
      specialize (IH _ _ _ Hsim).
      unfold simulation in Hs1.
      apply bind_Some in Hs1 as (fr & m2 & Htp & Hs1).
      apply bind_Some in Hs1 as (r' & m3 & _ & Hs1).
      apply bind_Some in Hs1 as (fr' & m4 & Hb & Hs1).
      apply lift_Some in Hb as [Hb ->]. injection Hs1 as <- <-.
      pose proof (tree_policy_size rt pl _ _ _ _ _ _ Htp) as Hle.
      pose proof (tree_policy_size_ge rt pl _ _ _ _ _ _ Htp) as Hge.
      pose proof (backup_size pl _ _ _ _ _ Hb) as Heq.
      simpl in Hle, Hge. lia. }
  split; [done|]. intros s0 ->. simpl in Hsize. lia.
Qed.

(** X5: [backup], handed a reference [q] to a node of a tree whose depths
    and parent pointers agree with the places of the nodes, returns; it
    leaves every node where it is; to each node on the way from the root
    to [q], and to no other, it adds one visit and the return [r]
    discounted by the depth of the node; states, actions, depths and
    parent pointers stay. *)
Theorem backup_updates_path fuel t l q nq r :
  linked t → lookup_node t q = Some nq → (length q < fuel)%nat →
  ∃ t', backup pl fuel (mk_frame t l) (InTree q) r = Some (mk_frame t' l)
    ∧ (∀ p, is_Some (lookup_node t' p) ↔ is_Some (lookup_node t p))
    ∧ ∀ p n', lookup_node t' p = Some n' →
        ∃ n, lookup_node t p = Some n
          ∧ get_state n' = get_state n ∧ incoming_action n' = incoming_action n
          ∧ expendable_actions n' = expendable_actions n
          ∧ depth n' = depth n ∧ parent n' = parent n
          ∧ length (children n') = length (children n)
          ∧ ((p `prefix_of` q
              ∧ number_of_visits n' = wrap (number_of_visits n + 1)
              ∧ average_reward n'
                = (average_reward n + dpow (df pl) (of_uint (depth n)) * r)%D)
             ∨ (¬ p `prefix_of` q
                ∧ number_of_visits n' = number_of_visits n
                ∧ average_reward n' = average_reward n)).
Proof.
  intros Hl Hq Hfuel.
  destruct (backup_in_tree pl fuel t l q nq r Hl Hq Hfuel) as (t' & Hb & Hrel).
  exists t'. split; [done|]. split.
  - intros p. specialize (Hrel p).
    destruct (lookup_node t' p), (lookup_node t p); simpl in Hrel;
      split; intros [? ?]; done || eauto.
  - intros p n' Hp. by apply (backed_up_cases pl r q t t').
Qed.

(** X6: [default_policy] returns whatever the start state; it leaves in
    [reward] the value found there at the call plus, added one after the
    other, the discounted rewards of the steps it executed; these are at
    most [horizon] steps, numbered from 0, none of which reached a terminal
    state; the state and command passed to [operator()] stay as they are. *)
Theorem default_policy_accumulates s r m :
  ∃ m', default_policy rt pl s r m
        = Some (discounted_sum pl r
                  (rollout_steps rt pl (N.to_nat (horizon pl)) 0 s m), m')
    ∧ (length (rollout_steps rt pl (N.to_nat (horizon pl)) 0 s m)
       ≤ N.to_nat (horizon pl))%nat
    ∧ (∀ i st, rollout_steps rt pl (N.to_nat (horizon pl)) 0 s m !! i = Some st →
         step_index st = N.of_nat i ∧ is_terminal (step_to st) = false)
    ∧ (horizon pl = 0 → discounted_sum pl r
         (rollout_steps rt pl (N.to_nat (horizon pl)) 0 s m) = r)
    ∧ arg_state m' = arg_state m ∧ arg_command m' = arg_command m.
Proof.
  destruct (default_policy_return rt pl s r m) as [m' Hdp]. exists m'.
  split; [done|]. split; [apply rollout_steps_length|]. split.
  { intros i st Hst. destruct (rollout_steps_lookup rt pl _ _ _ _ _ _ Hst) as [-> ?].
    split; [lia|done]. }
  split.
  { intros ->. done. }
  pose proof keeps_arguments as HR. cbv zeta in HR.
  set (R := λ m0 m0' : machine D FZ,
              arg_state m0' = arg_state m0 ∧ arg_command m0' = arg_command m0) in HR.
  destruct HR as (HR & Hrand & Htr).
  apply (keeps_default_policy_loop rt pl R Hrand Htr _ _ _ _ _ _ _ Hdp).
Qed.

(** X7: [get_best_action] on a node whose children hold accumulated
    returns that the comparison orders (no NaN among them): when it
    returns, the command is the incoming action of a child whose
    accumulated return no other child exceeds; the child is drawn by one
    call of [rand ()], the only change of the machine. *)
Theorem get_best_action_maximal v0 m a m' :
  ordered_on (map average_reward (children v0)) →
  get_best_action rt v0 m = Some (a, m') →
  ∃ i c, children v0 !! i = Some c ∧ a = incoming_action c
    ∧ (∀ c', c' ∈ children v0 →
         (average_reward c <? average_reward c')%D = false)
    ∧ m' = after_rand m.
Proof.
  intros Hord Hb.
  destruct (get_best_action_Some rt v0 m a m' Hb) as (i & c & Hi & Hc & -> & ->).
  exists i, c. split; [done|]. split; [done|]. split; [|done].
  apply list_elem_of_lookup_2 in Hi.
  apply (sort_indices_max_on _ _ Hord) in Hi as (vi & Hvi & Hmax).
  rewrite list_lookup_fmap, Hc in Hvi. injection Hvi as <-.
  intros c' [j Hj]%list_elem_of_lookup_1.
  apply (Hmax j). by rewrite list_lookup_fmap, Hj.
Qed.

(** X8: a call of [operator()] with a budget of one iteration at least,
    on a state that is not terminal, returns, and the command it writes is
    one of the three actions of [get_expendable_actions]: no change of the
    angle of attack or of the sideslip, and a bank rate of plus, zero or
    minus [angle_rate_magnitude]; the state stays as it is. *)
Theorem select_action_command fuel m :
  is_terminal (arg_state m) = false →
  0 < computational_budget pl < uint_max →
  (N.to_nat (computational_budget pl) < fuel)%nat →
  ∃ m', select_action rt pl fuel m = Some (tt, m')
    ∧ arg_command m' ∈ get_expendable_actions pl
    ∧ dalpha (arg_command m') = dconst 0 ∧ dbeta (arg_command m') = dconst 0
    ∧ arg_state m' = arg_state m.
Proof.
  intros Ht Hb Hfuel.
  destruct (simulations_total rt pl fuel (N.to_nat (computational_budget pl)) 0
              (root_node rt pl (arg_state m)) 0 m
              (well_formed_root_node rt pl (arg_state m))
              (leaves_root_node rt pl (arg_state m)))
    as (t & m1 & Hsim & _ & _ & _ & _ & Hc); [lia | lia | done | done |].
  destruct (get_best_action_total rt t m1) as (i & c & m2 & Hbest & Hi & _).
  { apply Hc. lia. }
  assert (Hsel : select_action rt pl fuel m
                 = Some (tt, mk_machine (arg_state m2) (incoming_action c)
                               (ac m2) (fz m2) (rand_calls m2))).
  { rewrite select_action_eq. unfold bind. rewrite Hsim, Hbest. done. }
  eexists. split; [exact Hsel|]. simpl.
  assert (Hin : incoming_action c ∈ get_expendable_actions pl).
  { assert (Hk : N.of_nat (N.to_nat (computational_budget pl)) < uint_max) by lia.
    pose proof (simulations_actions_partitioned fuel _ (arg_state m) m t m1
                  Hk Hfuel Hsim [] t eq_refl) as Hperm.
    rewrite <- Hperm. apply elem_of_app. left.
    apply list_elem_of_fmap. exists c. split; [done|].
    by eapply list_elem_of_lookup_2. }
  split; [done|].
  pose proof keeps_arguments as HR. cbv zeta in HR.
  set (R := λ m0 m0' : machine D FZ,
              arg_state m0' = arg_state m0 ∧ arg_command m0' = arg_command m0) in HR.
  destruct HR as (HR & Hrand & Htr).
  destruct (keeps_simulations rt pl R Hrand Htr _ _ _ _ _ _ _ Hsim) as [Hst1 _].
  destruct (keeps_get_best_action rt R Hrand _ _ _ _ Hbest) as [Hst2 _].
  assert (Hst : arg_state m2 = arg_state m) by congruence.
  clear -Hin Hst. unfold get_expendable_actions in Hin.
  repeat (apply elem_of_cons in Hin as [->|Hin]); try done.
  by apply elem_of_nil in Hin.
Qed.

End SearchTree.

(** * The first three iterations *)

Section FirstIterations.

Context {D : Type} `{Double D} {FZ : Type}.
Variable rt : runtime D.
Variable pl : b03_uct_pilot D FZ.

Implicit Types (t n c : b03_node D) (p q : node_ref) (m : machine D FZ).

(** As long as the root has an expendable action, an iteration gives the
    root one more child, and the children of the root have no children. *)
Lemma first_iterations_step s0 j t1 t2 :
  is_terminal s0 = false → well_formed j t1 → sim_step pl t1 t2 →
  get_state t1 = s0
  ∧ (j ≤ 3 → length (children t1) = N.to_nat j
             ∧ ∀ i c, children t1 !! i = Some c → children c = []) →
  get_state t2 = s0
  ∧ (j + 1 ≤ 3 → length (children t2) = N.to_nat (j + 1)
                 ∧ ∀ i c, children t2 !! i = Some c → children c = []).
Proof.
  intros Hs0 Hwf Hstep [Hst HP].
  assert (Hexp : j + 1 ≤ 3 → expendable_actions t1 ≠ []).
  { intros Hj. destruct HP as [Hlen _]; [lia|].
    pose proof (ok_arity _ _ _ (Hwf [] t1 eq_refl)) as Har.
    intros E. rewrite E, Hlen in Har. simpl in Har. lia. }
  destruct Hstep as [Hterm ->|q k nq r Hq Hterm Hway Hb
                    |q nq indice a s' r Hq Hterm Ha Htr Hway Hb].
  - congruence.
  - split.
    + destruct (backed_up_cases pl _ _ _ _ _ _ Hb (eq_refl : lookup_node t2 [] = Some t2))
        as (n & Hn & Hs & _).
      simpl in Hn. injection Hn as <-. congruence.
    + intros Hj. destruct (Hexp Hj). apply (Hway [] t1); [apply prefix_nil | done].
  - set (c := new_child_of pl q nq a s') in *.
    set (tm := update_node t1 q (λ _, expand_node nq indice c)) in *.
    split.
    + destruct (backed_up_cases pl _ _ _ _ _ _ Hb (eq_refl : lookup_node t2 [] = Some t2))
        as (n & Hn & Hs & _).
      simpl in Hn. injection Hn as <-. rewrite Hs, <- Hst.
      destruct (lookup_expand t1 q nq indice c [] tm Hq eq_refl eq_refl)
        as [[<- ->]|[[E _]|(_ & _ & n & Hn & Hi)]].
      * simpl in Hq. by injection Hq as <-.
      * by destruct q.
      * simpl in Hn. injection Hn as <-.
        by destruct (node_info_fields _ _ Hi) as (<- & _).
    + intros Hj. specialize (Hexp Hj). destruct HP as [Hlen Hleaves]; [lia|].
      destruct q as [|x q'].
      2:{ destruct Hexp. apply (Hway [] t1); [apply prefix_nil | done | done]. }
      simpl in Hq. injection Hq as <-. simpl in tm.
      destruct (backed_up_cases pl _ _ _ _ _ _ Hb (eq_refl : lookup_node t2 [] = Some t2))
        as (n & Hn & _ & _ & _ & _ & _ & Hl & _).
      simpl in Hn. injection Hn as <-. split.
      * rewrite Hl. simpl. rewrite length_app, Hlen. simpl. lia.
      * intros i c2 Hc2.
        assert (Hp2 : lookup_node t2 [i] = Some c2) by (simpl; by rewrite Hc2).
        destruct (backed_up_cases pl _ _ _ _ _ _ Hb Hp2)
          as (cm & Hcm & _ & _ & _ & _ & _ & Hl2 & _).
        assert (Hnil : children cm = []).
        { simpl in Hcm.
          destruct ((children t1 ++ [c]) !! i) as [cm'|] eqn:E; [|done].
          injection Hcm as ->.
          apply lookup_app_Some in E as [E|[_ E]]; [by eapply Hleaves|].
          apply list_lookup_singleton_Some in E as [_ <-]. done. }
        rewrite Hnil in Hl2. by destruct (children c2).
Qed.

Lemma first_iterations fuel k s0 m t m' :
  is_terminal s0 = false → (k ≤ 3)%nat → (k < fuel)%nat →
  simulations rt pl fuel k 0 (root_node rt pl s0) m = Some (t, m') →
  length (children t) = k
  ∧ ∀ c, c ∈ children t → average_reward c = dconst 0 ∧ number_of_visits c = 1.
Proof.
  intros Hs0 Hk Hfuel Hsim.
  assert (Hk' : N.of_nat k + 1 < uint_max).
  { unfold uint_max. assert (2 ^ 3 ≤ 2 ^ 32) by (apply N.pow_le_mono_r; lia). lia. }
  assert (HP : get_state t = s0
               ∧ (N.of_nat k ≤ 3 → length (children t) = N.to_nat (N.of_nat k)
                  ∧ ∀ i c, children t !! i = Some c → children c = [])).
  { apply (simulations_invariant rt pl
             (λ j t0, get_state t0 = s0
                      ∧ (j ≤ 3 → length (children t0) = N.to_nat j
                         ∧ ∀ i c, children t0 !! i = Some c → children c = []))
             fuel k s0 m t m'); [lia | done | | | done].
    - split; [done|]. intros _. split; [done|]. intros i c Hc. done.
    - intros j t1 t2 _ Hwf1 _ _ Hstep HP1.
      by apply (first_iterations_step s0 j t1 t2). }
  destruct HP as [_ [Hlen Hleaves]]; [lia|].
  rewrite Nat2N.id in Hlen. split; [done|].
  intros c [i Hi]%list_elem_of_lookup_1.
  destruct (simulations_leaf_statistics rt pl fuel k s0 m t m' Hk' Hfuel Hsim)
    as [_ Hleaf].
  destruct (Hleaf [i] c) as [Hl _].
  { simpl. by rewrite Hi. }
  destruct Hl as [-> ->]; [by eapply Hleaves | done].
Qed.

(** X9: with a budget of one, two or three iterations, and a root that is
    not terminal, every iteration gives the root one more child, and no
    return ever reaches a child: at the end the children of the root all
    hold a return of zero and one visit, every one of them is a best
    child, and the command that [operator()] writes is the incoming action
    of the child whose index is drawn by the last call of [rand ()],
    whatever the rewards of the rollouts were. *)
Theorem select_action_small_budget fuel m :
  is_terminal (arg_state m) = false →
  1 ≤ computational_budget pl ≤ 3 → (3 < fuel)%nat →
  (dconst 0 <? dconst 0)%D = false →
  ∃ t m1 c,
    simulations rt pl fuel (N.to_nat (computational_budget pl)) 0
      (root_node rt pl (arg_state m)) m = Some (t, m1)
    ∧ length (children t) = N.to_nat (computational_budget pl)
    ∧ (∀ c', c' ∈ children t →
         average_reward c' = dconst 0 ∧ number_of_visits c' = 1)
    ∧ children t !! (rand_seq rt (rand_calls m1)
                     `mod` N.to_nat (computational_budget pl))%nat = Some c
    ∧ select_action rt pl fuel m
      = Some (tt, mk_machine (arg_state m1) (incoming_action c) (ac m1) (fz m1)
                    (S (rand_calls m1))).
Proof.
  intros Ht Hb Hfuel Hz.
  set (k := N.to_nat (computational_budget pl)).
  assert (Hk : (1 ≤ k ≤ 3)%nat) by lia.
  assert (H3 : 3 + 1 < uint_max).
  { unfold uint_max. assert (2 ^ 3 ≤ 2 ^ 32) by (apply N.pow_le_mono_r; lia). lia. }
  destruct (simulations_total rt pl fuel k 0 (root_node rt pl (arg_state m)) 0 m
              (well_formed_root_node rt pl (arg_state m))
              (leaves_root_node rt pl (arg_state m)))
    as (t & m1 & Hsim & _); [lia | lia | done | simpl; lia |].
  destruct (first_iterations fuel k (arg_state m) m t m1) as [Hlen Hstat];
    [done | lia | lia | done |].
  assert (Hlt : (rand_seq rt (rand_calls m1) `mod` k < length (children t))%nat).
  { rewrite Hlen. apply Nat.mod_upper_bound. lia. }
  destruct (lookup_lt_is_Some_2 _ _ Hlt) as [c Hc].
  exists t, m1, c. split; [done|]. split; [done|]. split; [done|]. split; [done|].
  assert (Hsort : sort_indices (map average_reward (children t)) = seq 0 k).
  { rewrite (sort_indices_ties (dconst 0)); [by rewrite length_map, Hlen | done |].
    apply Forall_forall. intros y [c' [-> Hc']]%list_elem_of_fmap.
    by apply Hstat. }
  rewrite select_action_eq. unfold bind at 1. fold k. rewrite Hsim.
  unfold bind, get_best_action. rewrite Hsort.
  unfold rand_element, bind, rand_indice. destruct k as [|k']; [lia|].
  cbn [seq]. unfold bind, rand, ret, lift.
  change (0%nat :: seq 1 k') with (seq 0 (S k')). rewrite length_seq.
  rewrite lookup_seq_lt by (apply Nat.mod_upper_bound; lia).
  rewrite Nat.add_0_l, Hc. done.
Qed.

End FirstIterations.

(** * What the tree policy leaves as it was *)

Section TreePolicyFrame.

Context {D : Type} `{Double D} {FZ : Type}.
Variable rt : runtime D.
Variable pl : b03_uct_pilot D FZ.

Implicit Types (t n c : b03_node D) (p q : node_ref) (m : machine D FZ).



End TreePolicyFrame.

(** * The terminal nodes *)

Section TerminalNodes.

Context {D : Type} `{Double D} {FZ : Type}.
Variable rt : runtime D.
Variable pl : b03_uct_pilot D FZ.

Implicit Types (t n c : b03_node D) (p q : node_ref) (m : machine D FZ).

Lemma terminal_leaves_step t1 t2 :
  sim_step pl t1 t2 →
  (∀ p n, lookup_node t1 p = Some n → is_terminal (get_state n) = true →
          children n = [] ∧ expendable_actions n = get_expendable_actions pl) →
  ∀ p n, lookup_node t2 p = Some n → is_terminal (get_state n) = true →
         children n = [] ∧ expendable_actions n = get_expendable_actions pl.
Proof.
  intros [Hterm ->|q k nq r Hq Hterm _ Hb|q nq indice a s' r Hq Hterm Ha Htr Hway Hb]
    HP p n' Hp Ht; [by apply (HP p)|..].
  - destruct (backed_up_cases pl _ _ _ _ _ _ Hb Hp)
      as (n & Hn & Hs & _ & He & _ & _ & Hl & _).
    rewrite Hs in Ht. destruct (HP p n Hn Ht) as [Hc He'].
    split; [|congruence]. rewrite Hc in Hl. by destruct (children n').
  - destruct (backed_up_cases pl _ _ _ _ _ _ Hb Hp)
      as (nm & Hnm & Hs & _ & He & _ & _ & Hl & _).
    rewrite Hs in Ht.
    destruct (lookup_expand _ _ _ indice (new_child_of pl q nq a s') _ _ Hq eq_refl Hnm)
      as [[-> ->]|[[-> ->]|(_ & _ & n & Hn & Hi)]].
    + simpl in Ht. congruence.
    + simpl in Hl, He. split; [by destruct (children n')|done].
    + destruct (node_info_fields _ _ Hi) as (Hs0 & _ & He0 & _ & _ & _ & _ & Hl0).
      rewrite <- Hs0 in Ht. destruct (HP p n Hn Ht) as [Hc He'].
      split; [|congruence]. rewrite <- Hl0, Hc in Hl. by destruct (children n').
Qed.

(** X17: in the tree that [k] iterations of [operator()] have built, a
    node whose state is terminal has no child and has lost none of its
    three expendable actions: the tree policy stops on it; and it holds one
    visit and a return of zero, however often the tree policy has stopped
    on it. *)
Theorem terminal_nodes_stay_leaves fuel k s0 m t m' p n :
  N.of_nat k + 1 < uint_max → (k < fuel)%nat →
  simulations rt pl fuel k 0 (root_node rt pl s0) m = Some (t, m') →
  lookup_node t p = Some n → is_terminal (get_state n) = true →
  children n = [] ∧ expendable_actions n = get_expendable_actions pl
  ∧ number_of_visits n = 1 ∧ average_reward n = dconst 0.
Proof.
  intros Hk Hfuel Hsim Hp Ht.
  assert (HP : ∀ p n, lookup_node t p = Some n → is_terminal (get_state n) = true →
                 children n = [] ∧ expendable_actions n = get_expendable_actions pl).
  { apply (simulations_invariant rt pl
             (λ _ t0, ∀ p n, lookup_node t0 p = Some n →
                is_terminal (get_state n) = true →
                children n = [] ∧ expendable_actions n = get_expendable_actions pl)
             fuel k s0 m t m'); [lia | done | | | done].
    - intros [|i p0] n0 Hn0 _; [|done]. simpl in Hn0. by injection Hn0 as <-.
    - intros j t1 t2 _ _ _ _ Hstep HP1. by apply (terminal_leaves_step t1 t2). }
  destruct (HP p n Hp Ht) as [Hc He]. split; [done|]. split; [done|].
  destruct (simulations_leaf_statistics rt pl fuel k s0 m t m' Hk Hfuel Hsim)
    as [_ Hleaf].
  by apply (Hleaf p n).
Qed.

Lemma child_states_step t1 t2 :
  sim_step pl t1 t2 →
  (∀ p i n c, lookup_node t1 p = Some n → lookup_node t1 (p ++ [i]) = Some c →
     ∃ m1 m2, get_transition_model pl (get_state n) (incoming_action c) m1
              = Some (get_state c, m2)) →
  ∀ p i n c, lookup_node t2 p = Some n → lookup_node t2 (p ++ [i]) = Some c →
    ∃ m1 m2, get_transition_model pl (get_state n) (incoming_action c) m1
             = Some (get_state c, m2).
Proof.
  intros [Hterm ->|q k nq r Hq Hterm _ Hb|q nq indice a s' r Hq Hterm Ha Htr Hway Hb]
    HP p i n' c' Hp Hc; [by eapply HP|..].
  - destruct (backed_up_cases pl _ _ _ _ _ _ Hb Hp) as (n & Hn & -> & _).
    destruct (backed_up_cases pl _ _ _ _ _ _ Hb Hc) as (c & Hcn & -> & -> & _).
    by eapply HP.
  - destruct (backed_up_cases pl _ _ _ _ _ _ Hb Hp) as (nm & Hnm & -> & _).
    destruct (backed_up_cases pl _ _ _ _ _ _ Hb Hc) as (cm & Hcm & -> & -> & _).
    clear Hb Hp Hc n' c'.
    set (cn := new_child_of pl q nq a s') in *.
    destruct (lookup_expand _ _ _ indice cn _ _ Hq eq_refl Hnm)
      as [[-> ->]|[[-> ->]|(Hpq & Hpc & n & Hn & Hi)]].
    + (* below the expanded node *)
      destruct (lookup_expand _ _ _ indice cn _ _ Hq eq_refl Hcm)
        as [[E _]|[[_ ->]|(_ & _ & c & Hcn & Hic)]].
      * apply (f_equal length) in E. rewrite length_app in E. simpl in E. lia.
      * done.
      * destruct (node_info_fields _ _ Hic) as (<- & <- & _). simpl.
        by eapply HP.
    + (* below the new child *)
      destruct (lookup_expand _ _ _ indice cn _ _ Hq eq_refl Hcm)
        as [[E _]|[[E _]|(_ & _ & c & Hcn & _)]].
      * apply (f_equal length) in E. rewrite !length_app in E. simpl in E. lia.
      * apply (f_equal length) in E. rewrite !length_app in E. simpl in E. lia.
      * exfalso. apply lookup_node_snoc_inv in Hcn as (n0 & Hn0 & _).
        apply lookup_node_snoc_inv in Hn0 as (n1 & Hn1 & Hlen).
        rewrite Hq in Hn1. injection Hn1 as <-.
        apply lookup_lt_Some in Hlen. lia.
    + (* a node that was there *)
      destruct (node_info_fields _ _ Hi) as (<- & _).
      destruct (lookup_expand _ _ _ indice cn _ _ Hq eq_refl Hcm)
        as [[E ->]|[[E _]|(_ & _ & c & Hcn & Hic)]].
      * simpl. rewrite <- E in Hq. by eapply HP.
      * apply app_inj_tail in E as [-> _]. done.
      * destruct (node_info_fields _ _ Hic) as (<- & <- & _). by eapply HP.
Qed.

(** X18: in the tree that [k] iterations of [operator()] have built, the
    root holds the state that [operator()] was given, and every other node
    holds the state that the transition model returned, when the node was
    built, for the state of its parent and its own incoming action. *)
Theorem child_states_follow_transitions fuel k s0 m t m' p i n c :
  N.of_nat k < uint_max → (k < fuel)%nat →
  simulations rt pl fuel k 0 (root_node rt pl s0) m = Some (t, m') →
  lookup_node t p = Some n → children n !! i = Some c →
  get_state t = s0
  ∧ ∃ m1 m2, get_transition_model pl (get_state n) (incoming_action c) m1
             = Some (get_state c, m2).
Proof.
  intros Hk Hfuel Hsim Hp Hc.
  assert (HP : get_state t = s0
    ∧ ∀ p i n c, lookup_node t p = Some n → lookup_node t (p ++ [i]) = Some c →
        ∃ m1 m2, get_transition_model pl (get_state n) (incoming_action c) m1
                 = Some (get_state c, m2)).
  { apply (simulations_invariant rt pl
             (λ _ t0, get_state t0 = s0
                ∧ ∀ p i n c, lookup_node t0 p = Some n →
                    lookup_node t0 (p ++ [i]) = Some c →
                    ∃ m1 m2, get_transition_model pl (get_state n)
                               (incoming_action c) m1 = Some (get_state c, m2))
             fuel k s0 m t m'); [lia | done | | | done].
    - split; [done|]. intros [|j p0] i0 n0 c0 Hn0 Hc0; [|done].
      simpl in Hn0, Hc0. done.
    - intros j t1 t2 _ _ _ _ Hstep [Hs HP1]. split.
      + rewrite <- Hs. clear -Hstep.
        destruct Hstep as [Hterm ->|q k nq r Hq Hterm _ Hb
                          |q nq indice a s' r Hq Hterm Ha Htr Hway Hb]; [done|..].
        * destruct (backed_up_cases pl _ _ _ _ _ _ Hb
                      (eq_refl : lookup_node t2 [] = Some t2)) as (n & Hn & -> & _).
          simpl in Hn. by injection Hn as <-.
        * destruct (backed_up_cases pl _ _ _ _ _ _ Hb
                      (eq_refl : lookup_node t2 [] = Some t2)) as (n & Hn & -> & _).
          destruct (lookup_expand _ _ _ indice (new_child_of pl q nq a s') _ _
                      Hq eq_refl Hn) as [[<- ->]|[[E _]|(_ & _ & n0 & Hn0 & Hi)]].
          -- simpl in Hq. by injection Hq as <-.
          -- by destruct q.
          -- simpl in Hn0. injection Hn0 as <-.
             by destruct (node_info_fields _ _ Hi) as (<- & _).
      + by apply (child_states_step t1 t2). }
  split; [apply HP|]. apply (proj2 HP p i n c Hp). by eapply lookup_node_snoc.
Qed.

End TerminalNodes.

(** * The recovery policy, the heuristic pilot and the checks of the glider *)

Section Pilots.

Context {D : Type} `{Double D} `{DoubleOps D} {FZ : Type}.
Variable pl : b03_uct_pilot D FZ.

Implicit Types (m : machine D FZ) (s : beeler_glider_state D)
  (u : beeler_glider_command D) (hp : heuristic_pilot.pilot D).

(** X10: [out_of_range] of the UCT pilot always returns; it writes the
    command that [out_of_range] of the heuristic pilot writes for the same
    [angle_rate_magnitude]: no change of the angle of attack or of the
    sideslip, and a bank rate of [angle_rate_magnitude] below a bank angle
    of 0.4 and of zero otherwise, whatever the command held before; it
    builds no tree, draws no random number and leaves the state and the
    aircraft of the pilot as they are; a second call changes nothing. *)
Theorem out_of_range_recovery hp m :
  heuristic_pilot.angle_rate_magnitude hp = angle_rate_magnitude pl →
  ∃ m', out_of_range pl m = Some (tt, m')
    ∧ arg_command m' = heuristic_pilot.out_of_range hp (arg_state m) (arg_command m)
    ∧ (∀ u, heuristic_pilot.out_of_range hp (arg_state m) u = arg_command m')
    ∧ dalpha (arg_command m') = dconst 0 ∧ dbeta (arg_command m') = dconst 0
    ∧ dsigma (arg_command m')
      = (if (sigma (arg_state m) <? dconst 0.4)%D
         then angle_rate_magnitude pl else dconst 0)
    ∧ arg_state m' = arg_state m ∧ ac m' = ac m ∧ fz m' = fz m
    ∧ rand_calls m' = rand_calls m
    ∧ out_of_range pl m' = Some (tt, m').
Proof.
  intros Harm.
  exists (mk_machine (arg_state m)
            (mk_command (dconst 0) (dconst 0)
               (if (sigma (arg_state m) <? dconst 0.4)%D
                then angle_rate_magnitude pl else dconst 0))
            (ac m) (fz m) (rand_calls m)).
  split; [done|].
  unfold heuristic_pilot.out_of_range. rewrite Harm. simpl.
  unfold out_of_range, bind, get_arg_state, set_arg_command. simpl.
  destruct (sigma (arg_state m) <? dconst 0.4)%D eqn:E; by split_and!.
Qed.

(** X11: [operator()] of the heuristic pilot.  It writes no sideslip
    change and an angle of attack change of [0.01 * (0 - gammadot)].  Below
    minus half of [angle_rate_magnitude], the bank angle gets the rate
    [angle_rate_magnitude]; otherwise, above half of it, the rate minus
    [angle_rate_magnitude]; in between the bank rate is not written: the
    command keeps the rate it held, so that the rate that [out_of_range]
    has set stays.  Of the command at the call only the bank rate plays a
    part, and a second call on the same state changes nothing. *)
Theorem heuristic_bank_rate hp s u :
  let th := (dconst 0.5 * heuristic_pilot.angle_rate_magnitude hp)%D in
  let u' := heuristic_pilot.operator_call hp s u in
  dalpha u' = (dconst 1e-2 * (dconst 0 - gammadot s))%D
  ∧ dbeta u' = dconst 0
  ∧ ((sigma s <? - th)%D = true →
     dsigma u' = heuristic_pilot.angle_rate_magnitude hp)
  ∧ ((sigma s <? - th)%D = false → (sigma s >? th)%D = true →
     dsigma u' = (- heuristic_pilot.angle_rate_magnitude hp)%D)
  ∧ ((sigma s <? - th)%D = false → (sigma s >? th)%D = false →
     dsigma u' = dsigma u
     ∧ ∀ s0 u0, (sigma s0 <? dconst 0.4)%D = true →
         dsigma (heuristic_pilot.operator_call hp s
                   (heuristic_pilot.out_of_range hp s0 u0))
         = heuristic_pilot.angle_rate_magnitude hp)
  ∧ (∀ u2, dsigma u2 = dsigma u → heuristic_pilot.operator_call hp s u2 = u')
  ∧ heuristic_pilot.operator_call hp s u' = u'.
Proof.
  intros th u'. subst u'. unfold heuristic_pilot.operator_call. fold th.
  destruct (sigma s <? - th)%D eqn:E1; destruct (sigma s >? th)%D eqn:E2; simpl;
    split_and!; try done; try (by intros u2 ->).
  intros _ _. split; [done|]. intros s0 u0 E0.
  unfold heuristic_pilot.out_of_range. by rewrite E0.
Qed.

(** X14: the glider and the UCT pilot agree on the ground: a state that
    the pilot takes as terminal is one that [is_in_model] refuses, with
    the line on the altitude, whatever the angles; a state that
    [is_in_model] accepts is not terminal and crosses none of the four
    limits on the angles; a line is printed exactly when the verdict is
    [false]. *)
Theorem is_in_model_terminal (g : beeler_glider D) :
  let s := ac_state g in
  let mam := max_angle_magnitude s in
  (is_terminal s = true → is_in_model g = (false, Some stop_altitude))
  ∧ ((is_in_model g).1 = true →
     is_terminal s = false
     ∧ (gamma s >? mam)%D = false ∧ (gamma s <? - mam)%D = false
     ∧ (alpha s + gamma s >? mam)%D = false
     ∧ (alpha s + gamma s <? - mam)%D = false)
  ∧ ((is_in_model g).1 = false ↔ is_Some (is_in_model g).2).
Proof.
  intros s mam. unfold is_in_model, is_terminal. fold s. fold mam.
  destruct (z s <? dconst 0)%D; [|destruct (gamma s >? mam)%D;
    [|destruct (gamma s <? - mam)%D; [|destruct (alpha s + gamma s >? mam)%D;
      [|destruct (alpha s + gamma s <? - mam)%D]]]]; simpl;
    (split_and!; [done || by intros _ | done | split; [by eauto | done]])
    || (split_and!; [done | done | split; [done | by intros [? ?]]]).
Qed.

End Pilots.

(** * The Euler integrator *)

Section Euler.

Import euler_integrator.

Context {D : Type} `{Double D} `{DoubleOps D} {FZ AC : Type} `{Aircraft D FZ AC}.

Lemma transition_loop_steps k fuel j (w : AC * FZ * D) tsw dt :
  (Z.of_nat (j + k) ≤ int_max)%Z → (k < fuel)%nat →
  (∀ n, (j ≤ n < j + k)%nat → (of_int (Z.of_nat n) <? tsw / dt)%D = true) →
  (of_int (Z.of_nat (j + k)) <? tsw / dt)%D = false →
  transition_loop fuel (Z.of_nat j) w tsw dt = Some (Nat.iter k (sub_step dt) w).
Proof.
  revert fuel j w. induction k as [|k IH]; intros fuel j w Hmax Hfuel Htrue Hfalse.
  - destruct fuel as [|fuel]; [lia|]. simpl.
    rewrite Nat.add_0_r in Hfalse. by rewrite Hfalse.
  - destruct fuel as [|fuel]; [lia|]. simpl transition_loop.
    rewrite Htrue by lia.
    destruct (Z.leb_spec (Z.of_nat j + 1) int_max) as [_|]; [|lia].
    replace (Z.of_nat j + 1)%Z with (Z.of_nat (S j)) by lia.
    rewrite IH; [| lia | lia | |].
    + by rewrite Nat.iter_succ_r.
    + intros n Hn. apply Htrue. lia.
    + by replace (S j + k)%nat with (j + S k)%nat by lia.
Qed.

Lemma iter_sub_step_time k dt (w : AC * FZ * D) :
  (Nat.iter k (sub_step dt) w).2 = Nat.iter k (λ c, (c + dt)%D) w.2.
Proof.
  induction k as [|k IH]; [done|]. simpl. rewrite <- IH.
  destruct (Nat.iter k (sub_step dt) w) as [[a f] c]. simpl.
  by destruct (update_state_dynamic f c a).
Qed.

(** X12: the transition of the Euler integrator applies the command
    once, and then makes as many Euler steps of width [dt] as there are
    integers [n], from 0 on, with [n < time_step_width / dt]; when [k],
    which fits in an [int], is the first integer that does not satisfy
    this, it makes [k] steps and returns; [current_time] has then received
    [dt] [k] times; and when 0 does not satisfy it, the call only applies
    the command. *)
Theorem transition_function_steps fuel k (a : AC) (f : FZ) (t tsw dt : D) :
  (Z.of_nat k ≤ int_max)%Z → (k < fuel)%nat →
  (∀ n, (n < k)%nat → (of_int (Z.of_nat n) <? tsw / dt)%D = true) →
  (of_int (Z.of_nat k) <? tsw / dt)%D = false →
  transition_function fuel a f t tsw dt
  = Some (Nat.iter k (sub_step dt) (apply_command a, f, t))
  ∧ (Nat.iter k (sub_step dt) (apply_command a, f, t)).2
    = Nat.iter k (λ c, (c + dt)%D) t
  ∧ (k = 0%nat → transition_function fuel a f t tsw dt = Some (apply_command a, f, t)).
Proof.
  intros Hmax Hfuel Htrue Hfalse.
  assert (Heq : transition_function fuel a f t tsw dt
                = Some (Nat.iter k (sub_step dt) (apply_command a, f, t))).
  { unfold transition_function.
    apply (transition_loop_steps k fuel 0); [done | done | | done].
    intros n Hn. apply Htrue. lia. }
  split; [done|]. split; [apply iter_sub_step_time|].
  intros ->. done.
Qed.

Lemma transition_loop_no_return fuel n (w : AC * FZ * D) tsw dt :
  (∀ i, (0 ≤ i ≤ int_max)%Z → (of_int i <? tsw / dt)%D = true) →
  (0 ≤ n ≤ int_max)%Z → transition_loop fuel n w tsw dt = None.
Proof.
  intros Htrue. revert n w. induction fuel as [|fuel IH]; intros n w Hn; [done|].
  simpl. rewrite Htrue by done.
  destruct (Z.leb_spec (n + 1) int_max); [|done]. apply IH. lia.
Qed.

(** X13: when every [int] from 0 on is below [time_step_width / dt], as
    it is for a [dt] of zero and a positive [time_step_width], the loop of
    the transition does not end before its counter overflows: the
    transition returns no result, whatever the number of steps it is
    given. *)
Theorem transition_function_no_return fuel (a : AC) (f : FZ) (t tsw dt : D) :
  (∀ i, (0 ≤ i ≤ int_max)%Z → (of_int i <? tsw / dt)%D = true) →
  transition_function fuel a f t tsw dt = None.
Proof.
  intros Htrue. unfold transition_function.
  apply transition_loop_no_return; [done|]. unfold int_max. lia.
Qed.

End Euler.

(** * Runs of the examples for the properties above *)

(** The tree after five iterations from ten metres up. *)
Lemma test_simulations_5 :
  simulations test_runtime (test_pilot 3 5) 10 5 0
    (root_node test_runtime (test_pilot 3 5) (sinking_state 10))
    (test_machine (sinking_state 10))
  = Some (test_tree_5, test_machine_5).
Proof. vm_compute. reflexivity. Qed.

Lemma linked_test_tree_5 : linked test_tree_5.
Proof.
  eapply well_formed_linked.
  apply (simulations_well_formed test_runtime (test_pilot 3 5) 10 5
           (sinking_state 10) (test_machine (sinking_state 10))
           test_tree_5 test_machine_5); [done | lia | apply test_simulations_5].
Qed.

(** The first child of the first child of the root, after five
    iterations: two edges below the root. *)
Lemma search_tree_depths_witness :
  ∃ n, N.of_nat 5 < uint_max ∧ (5 < 10)%nat
    ∧ simulations test_runtime (test_pilot 3 5) 10 5 0
        (root_node test_runtime (test_pilot 3 5) (sinking_state 10))
        (test_machine (sinking_state 10))
      = Some (test_tree_5, test_machine_5)
    ∧ lookup_node test_tree_5 [0; 0]%nat = Some n
    ∧ depth n = N.of_nat (length [0; 0]%nat) ∧ (length [0; 0]%nat ≤ 5)%nat
    ∧ (∀ p' i, [0; 0]%nat = p' ++ [i] →
         parent n = Some p' ∧ is_Some (lookup_node test_tree_5 p')
         ∧ 1 ≤ number_of_visits n ≤ N.of_nat 5).
Proof.
  eexists. split; [reflexivity|]. split; [lia|].
  split; [vm_compute; reflexivity|]. split; [vm_compute; reflexivity|].
  apply (search_tree_depths test_runtime (test_pilot 3 5) 10 5 (sinking_state 10)
           (test_machine (sinking_state 10)) test_tree_5 test_machine_5 [0; 0]%nat);
    [reflexivity | lia | vm_compute; reflexivity | vm_compute; reflexivity].
Defined.

(** The first child of the root, after five iterations: one child, two
    expendable actions. *)
Lemma search_tree_actions_witness :
  ∃ n, N.of_nat 5 < uint_max ∧ (5 < 10)%nat
    ∧ simulations test_runtime (test_pilot 3 5) 10 5 0
        (root_node test_runtime (test_pilot 3 5) (sinking_state 10))
        (test_machine (sinking_state 10))
      = Some (test_tree_5, test_machine_5)
    ∧ lookup_node test_tree_5 [0%nat] = Some n
    ∧ length (children n) = 1%nat
    ∧ map incoming_action (children n) ++ expendable_actions n
        ≡ₚ get_expendable_actions (test_pilot 3 5)
    ∧ (length (children n) + length (expendable_actions n) = 3)%nat
    ∧ (is_fully_expanded n = true
       ↔ length (children n) = length (get_expendable_actions (test_pilot 3 5))).
Proof.
  eexists. split; [reflexivity|]. split; [lia|].
  split; [vm_compute; reflexivity|]. split; [vm_compute; reflexivity|].
  split; [reflexivity|].
  apply (search_tree_actions test_runtime (test_pilot 3 5) 10 5 (sinking_state 10)
           (test_machine (sinking_state 10)) test_tree_5 test_machine_5 [0%nat]);
    [reflexivity | lia | vm_compute; reflexivity | vm_compute; reflexivity].
Defined.

(** The second child of the root, after five iterations, is a leaf; the
    first child has a child. *)
Lemma leaves_keep_initial_statistics_witness :
  ∃ n n', N.of_nat 5 + 1 < uint_max ∧ (5 < 10)%nat
    ∧ simulations test_runtime (test_pilot 3 5) 10 5 0
        (root_node test_runtime (test_pilot 3 5) (sinking_state 10))
        (test_machine (sinking_state 10))
      = Some (test_tree_5, test_machine_5)
    ∧ lookup_node test_tree_5 [1%nat] = Some n ∧ children n = []
    ∧ lookup_node test_tree_5 [0%nat] = Some n' ∧ children n' ≠ []
    ∧ (number_of_visits n = 1 ∧ average_reward n = dconst 0)
    ∧ 2 ≤ number_of_visits n'.
Proof.
  eexists _, _. split; [reflexivity|]. split; [lia|].
  split; [vm_compute; reflexivity|]. split; [vm_compute; reflexivity|].
  split; [reflexivity|]. split; [vm_compute; reflexivity|]. split; [done|].
  split.
  - apply (leaves_keep_initial_statistics test_runtime (test_pilot 3 5) 10 5
             (sinking_state 10) (test_machine (sinking_state 10))
             test_tree_5 test_machine_5 [1%nat]);
      [reflexivity | lia | vm_compute; reflexivity | vm_compute; reflexivity
      | reflexivity].
  - apply (leaves_keep_initial_statistics test_runtime (test_pilot 3 5) 10 5
             (sinking_state 10) (test_machine (sinking_state 10))
             test_tree_5 test_machine_5 [0%nat]);
      [reflexivity | lia | vm_compute; reflexivity | vm_compute; reflexivity
      | done].
Defined.

(** Five iterations from a single root: six nodes. *)
Lemma simulations_tree_size_witness :
  simulations test_runtime (test_pilot 3 5) 10 5 0
    (root_node test_runtime (test_pilot 3 5) (sinking_state 10))
    (test_machine (sinking_state 10))
  = Some (test_tree_5, test_machine_5)
  ∧ tree_size test_tree_5 = 6%nat
  ∧ (1 ≤ tree_size test_tree_5 ≤ 5 + 1)%nat.
Proof.
  split; [vm_compute; reflexivity|]. split; [reflexivity|].
  apply (proj2 (simulations_tree_size test_runtime (test_pilot 3 5) 10 5 0
                  (root_node test_runtime (test_pilot 3 5) (sinking_state 10))
                  (test_machine (sinking_state 10)) test_tree_5 test_machine_5
                  test_simulations_5) (sinking_state 10) eq_refl).
Defined.

(** A backup from the first child of the first child of the root of the
    tree after five iterations. *)
Lemma backup_updates_path_witness :
  ∃ nq, linked test_tree_5 ∧ lookup_node test_tree_5 [0; 0]%nat = Some nq
    ∧ (length [0; 0]%nat < 10)%nat
    ∧ ∃ t', backup (test_pilot 3 5) 10 (mk_frame test_tree_5 test_tree_5)
              (InTree [0; 0]%nat) (q 1)
            = Some (mk_frame t' test_tree_5)
        ∧ number_of_visits t' = 7
        ∧ (number_of_visits <$> lookup_node t' [0%nat]) = Some 3
        ∧ (number_of_visits <$> lookup_node t' [0; 0]%nat) = Some 2
        ∧ (number_of_visits <$> lookup_node t' [1%nat]) = Some 1.
Proof.
  eexists. split; [apply linked_test_tree_5|].
  split; [vm_compute; reflexivity|]. split; [simpl; lia|].
  destruct (backup_updates_path (test_pilot 3 5) 10 test_tree_5 test_tree_5
              [0; 0]%nat _ (q 1) linked_test_tree_5
              ltac:(vm_compute; reflexivity) ltac:(simpl; lia))
    as (t' & Hb & _).
  exists t'. split; [exact Hb|].
  vm_compute in Hb. injection Hb as <-.
  split_and!; vm_compute; reflexivity.
Defined.

Lemma ordered_on_test_tree_5 :
  ordered_on (map average_reward (children test_tree_5)).
Proof.
  vm_compute map. split_and!.
  - intros a Ha. decompose_list_elem_of; subst; reflexivity.
  - intros a b c Ha Hb Hc. decompose_list_elem_of; subst; vm_compute; done.
  - intros a b c Ha Hb Hc. decompose_list_elem_of; subst; vm_compute; done.
Qed.

(** The best action after five iterations from ten metres up. *)
Lemma get_best_action_maximal_witness :
  ordered_on (map average_reward (children test_tree_5))
  ∧ get_best_action test_runtime test_tree_5 test_machine_5
    = Some (mk_command (q 0) (q 0) (q 0.01), after_rand test_machine_5)
  ∧ ∃ i c, children test_tree_5 !! i = Some c
      ∧ mk_command (q 0) (q 0) (q 0.01) = incoming_action c
      ∧ (∀ c', c' ∈ children test_tree_5 →
           (average_reward c <? average_reward c')%D = false)
      ∧ after_rand test_machine_5 = after_rand test_machine_5.
Proof.
  split; [apply ordered_on_test_tree_5|]. split; [vm_compute; reflexivity|].
  apply (get_best_action_maximal test_runtime test_tree_5 test_machine_5);
    [apply ordered_on_test_tree_5 | vm_compute; reflexivity].
Defined.

(** A call with a budget of five iterations from ten metres up. *)
Lemma select_action_command_witness :
  is_terminal (arg_state (test_machine (sinking_state 10))) = false
  ∧ 0 < computational_budget (test_pilot 3 5) < uint_max
  ∧ (N.to_nat (computational_budget (test_pilot 3 5)) < 10)%nat
  ∧ ∃ m', select_action test_runtime (test_pilot 3 5) 10
            (test_machine (sinking_state 10)) = Some (tt, m')
      ∧ arg_command m' ∈ get_expendable_actions (test_pilot 3 5)
      ∧ dalpha (arg_command m') = dconst 0 ∧ dbeta (arg_command m') = dconst 0
      ∧ arg_state m' = arg_state (test_machine (sinking_state 10)).
Proof.
  split; [reflexivity|]. split; [split; reflexivity|]. split; [vm_compute; lia|].
  apply (select_action_command test_runtime (test_pilot 3 5) 10
           (test_machine (sinking_state 10)));
    [reflexivity | split; reflexivity | vm_compute; lia].
Defined.

(** A call with a budget of three iterations from ten metres up. *)
Lemma select_action_small_budget_witness :
  is_terminal (arg_state (test_machine (sinking_state 10))) = false
  ∧ 1 ≤ computational_budget (test_pilot 3 3) ≤ 3 ∧ (3 < 10)%nat
  ∧ (dconst 0 <? dconst 0)%D = false
  ∧ ∃ t m1 c,
      simulations test_runtime (test_pilot 3 3) 10
        (N.to_nat (computational_budget (test_pilot 3 3))) 0
        (root_node test_runtime (test_pilot 3 3)
           (arg_state (test_machine (sinking_state 10))))
        (test_machine (sinking_state 10)) = Some (t, m1)
      ∧ length (children t) = N.to_nat (computational_budget (test_pilot 3 3))
      ∧ (∀ c', c' ∈ children t →
           average_reward c' = dconst 0 ∧ number_of_visits c' = 1)
      ∧ children t !! (rand_seq test_runtime (rand_calls m1)
                       `mod` N.to_nat (computational_budget (test_pilot 3 3)))%nat
        = Some c
      ∧ select_action test_runtime (test_pilot 3 3) 10
          (test_machine (sinking_state 10))
        = Some (tt, mk_machine (arg_state m1) (incoming_action c) (ac m1) (fz m1)
                      (S (rand_calls m1))).
Proof.
  split; [reflexivity|]. split; [split; vm_compute; discriminate|].
  split; [lia|]. split; [reflexivity|].
  apply (select_action_small_budget test_runtime (test_pilot 3 3) 10
           (test_machine (sinking_state 10)));
    [reflexivity | split; vm_compute; discriminate | lia | reflexivity].
Defined.

(** The recovery policy of the two pilots with a magnitude of 0.01, on a
    glider that flies level. *)
Lemma out_of_range_recovery_witness :
  heuristic_pilot.angle_rate_magnitude (heuristic_pilot.mk_pilot (q 0.01))
  = angle_rate_magnitude (test_pilot 3 1)
  ∧ ∃ m', out_of_range (test_pilot 3 1) (test_machine (sinking_state 10))
          = Some (tt, m')
      ∧ arg_command m' = mk_command (q 0) (q 0) (q 0.01).
Proof.
  split; [reflexivity|].
  destruct (out_of_range_recovery (test_pilot 3 1)
              (heuristic_pilot.mk_pilot (q 0.01)) (test_machine (sinking_state 10))
              eq_refl) as (m' & Ho & Hc & _).
  exists m'. split; [exact Ho|]. rewrite Hc. reflexivity.
Defined.


(** After five iterations from a metre and a half up, the first child of
    the first child of the root is below the ground. *)
Lemma terminal_nodes_stay_leaves_witness :
  ∃ n, N.of_nat 5 + 1 < uint_max ∧ (5 < 10)%nat
    ∧ simulations test_runtime (test_pilot 3 5) 10 5 0
        (root_node test_runtime (test_pilot 3 5) (sinking_state 1.5))
        (test_machine (sinking_state 1.5))
      = Some (test_tree_low, test_machine_low)
    ∧ lookup_node test_tree_low [0; 0]%nat = Some n
    ∧ is_terminal (get_state n) = true
    ∧ children n = [] ∧ expendable_actions n = get_expendable_actions (test_pilot 3 5)
    ∧ number_of_visits n = 1 ∧ average_reward n = dconst 0.
Proof.
  eexists. split; [reflexivity|]. split; [lia|].
  split; [vm_compute; reflexivity|]. split; [vm_compute; reflexivity|].
  split; [reflexivity|].
  apply (terminal_nodes_stay_leaves test_runtime (test_pilot 3 5) 10 5
           (sinking_state 1.5) (test_machine (sinking_state 1.5))
           test_tree_low test_machine_low [0; 0]%nat);
    [reflexivity | lia | vm_compute; reflexivity | vm_compute; reflexivity
    | reflexivity].
Defined.

(** After five iterations from ten metres up, the first child of the root
    is a metre below the root. *)
Lemma child_states_follow_transitions_witness :
  ∃ c, N.of_nat 5 < uint_max ∧ (5 < 10)%nat
    ∧ simulations test_runtime (test_pilot 3 5) 10 5 0
        (root_node test_runtime (test_pilot 3 5) (sinking_state 10))
        (test_machine (sinking_state 10))
      = Some (test_tree_5, test_machine_5)
    ∧ lookup_node test_tree_5 [] = Some test_tree_5
    ∧ children test_tree_5 !! 0%nat = Some c
    ∧ z (get_state c) = q 9
    ∧ get_state test_tree_5 = sinking_state 10
    ∧ ∃ m1 m2, get_transition_model (test_pilot 3 5) (get_state test_tree_5)
                 (incoming_action c) m1 = Some (get_state c, m2).
Proof.
  eexists. split; [reflexivity|]. split; [lia|].
  split; [vm_compute; reflexivity|]. split; [reflexivity|].
  split; [reflexivity|]. split; [reflexivity|].
  apply (child_states_follow_transitions test_runtime (test_pilot 3 5) 10 5
           (sinking_state 10) (test_machine (sinking_state 10))
           test_tree_5 test_machine_5 [] 0%nat test_tree_5);
    [reflexivity | lia | vm_compute; reflexivity | reflexivity | reflexivity].
Defined.

(** A time step of one second in sub-steps of three tenths: four
    sub-steps, and a second and two tenths on the clock. *)
Lemma transition_function_steps_witness :
  (Z.of_nat 4 ≤ euler_integrator.int_max)%Z ∧ (4 < 10)%nat
  ∧ (∀ n, (n < 4)%nat → (of_int (Z.of_nat n) <? q 1 / q 0.3)%D = true)
  ∧ (of_int (Z.of_nat 4) <? q 1 / q 0.3)%D = false
  ∧ euler_integrator.transition_function 10 (mk_toy (q 0) (q 0) (q 0))
      (mk_flat_zone (q 0) (q 0)) (q 0) (q 1) (q 0.3)
    = Some (mk_toy (q 1.2) (q 1) (q 1.2), mk_flat_zone (q 0) (q 0), q 1.2).
Proof.
  assert (H1 : (Z.of_nat 4 ≤ euler_integrator.int_max)%Z).
  { unfold euler_integrator.int_max. lia. }
  assert (H2 : ∀ n, (n < 4)%nat → (of_int (Z.of_nat n) <? q 1 / q 0.3)%D = true).
  { intros n Hn. destruct n as [|[|[|[|n]]]]; [reflexivity..|lia]. }
  split; [exact H1|]. split; [lia|]. split; [exact H2|]. split; [reflexivity|].
  rewrite (proj1 (transition_function_steps 10 4
                    (mk_toy (q 0) (q 0) (q 0)) (mk_flat_zone (q 0) (q 0))
                    (q 0) (q 1) (q 0.3) H1 ltac:(lia) H2 eq_refl)).
  vm_compute. reflexivity.
Defined.

(** The comparison of an [int] with a quotient of rational numbers. *)
Lemma Qx_of_int_ltb (n : Z) (a b : Q) :
  ¬ (b == 0)%Q →
  (of_int n <? Some a / Some b)%D = true ↔ (inject_Z n < a / b)%Q.
Proof.
  intros Hb. simpl. unfold Qx_div.
  destruct (Qeq_bool b 0) eqn:E.
  { apply Qeq_bool_iff in E. done. }
  unfold Qx_ltb. rewrite negb_true_iff.
  rewrite <- not_true_iff_false, Qle_bool_iff, Qred_correct.
  split; [apply Qnot_le_lt | apply Qlt_not_le].
Qed.

(** Every [int] is below 2^31. *)
Lemma below_two_power_31 (i : Z) :
  (0 ≤ i ≤ euler_integrator.int_max)%Z →
  (of_int i <? q 2147483648 / q 1)%D = true.
Proof.
  intros Hi. unfold euler_integrator.int_max in Hi.
  assert (H1 : ¬ (Qred 1 == 0)%Q) by done.
  apply (Qx_of_int_ltb i (Qred 2147483648) (Qred 1) H1).
  change (Qred 2147483648) with 2147483648%Q. change (Qred 1) with 1%Q.
  unfold Qlt, Qdiv, Qmult, Qinv, inject_Z. simpl. lia.
Qed.

(** A time step of 2^31 seconds in sub-steps of one second: the counter
    of the loop cannot reach the end. *)
Lemma transition_function_no_return_witness :
  (∀ i, (0 ≤ i ≤ euler_integrator.int_max)%Z →
        (of_int i <? q 2147483648 / q 1)%D = true)
  ∧ euler_integrator.transition_function 10 (mk_toy (q 0) (q 0) (q 0))
      (mk_flat_zone (q 0) (q 0)) (q 0) (q 2147483648) (q 1) = None.
Proof.
  split; [exact below_two_power_31|].
  exact (transition_function_no_return 10 (mk_toy (q 0) (q 0) (q 0))
           (mk_flat_zone (q 0) (q 0)) (q 0) (q 2147483648) (q 1)
           below_two_power_31).
Defined.
